(** * The worker pool of the HydraScraper backend

    A shallow embedding of [class WorkerPool] and of the statistics route of
    the backend entry point, with the properties of the bounded task
    scheduler stated against it.

    JavaScript runs every handler to completion on one event loop, so the
    pool is a state machine: a state, and one transition per call of
    [execute] or [terminate] and per event of a worker thread. *)

From Stdlib Require Import Ascii String.
From stdpp Require Import base option list strings relations.


(** ** JavaScript values *)

(** [!v] for a value that is [null] or a string: [null] and the empty string
    are falsy, every other string is truthy. *)
Definition truthy_string (s : string) : bool :=
  match s with
  | EmptyString => false
  | String _ _ => true
  end.

Definition truthy (v : option string) : bool :=
  match v with
  | None => false
  | Some s => truthy_string s
  end.

(** A [Map] with string keys, as the list of its entries in insertion order.
    [set] on a key that is present replaces the value in place, on a new key
    it appends the entry; [delete] removes the entry. *)
Module JSMap.
Section Ops.
Context {V : Type}.

Fixpoint get (k : string) (m : list (string * V)) : option V :=
  match m with
  | [] => None
  | (k', v) :: m' => if String.eqb k' k then Some v else get k m'
  end.

Fixpoint set (k : string) (v : V) (m : list (string * V)) : list (string * V) :=
  match m with
  | [] => [(k, v)]
  | (k', v') :: m' =>
      if String.eqb k' k then (k', v) :: m' else (k', v') :: set k v m'
  end.

Fixpoint delete (k : string) (m : list (string * V)) : list (string * V) :=
  match m with
  | [] => []
  | (k', v') :: m' =>
      if String.eqb k' k then m' else (k', v') :: delete k m'
  end.

Definition size (m : list (string * V)) : nat := length m.

Definition keys (m : list (string * V)) : list string := m.*1.
End Ops.
End JSMap.

(** ** Objects *)

(** An object is kept as the list of its own properties in the order in
    which they were made. [Object.keys], [Object.values], [Object.entries]
    and the spread of an object do not go through the properties in that
    order: the keys that are array indices come first, by rising index, and
    after them the other keys in the order in which they were made. An array
    index is the decimal writing, with no sign and no leading zero, of an
    integer from 0 to 2^32 - 2. *)
Definition digit (a : ascii) : option N :=
  let n := N_of_ascii a in
  if ((48 <=? n) && (n <=? 57))%N then Some (n - 48)%N else None.

Fixpoint digits (acc : N) (s : string) : option N :=
  match s with
  | EmptyString => Some acc
  | String a s' =>
      match digit a with
      | Some d => digits (10 * acc + d)%N s'
      | None => None
      end
  end.

Definition array_index (k : string) : option N :=
  match k with
  | EmptyString => None
  | String a s' =>
      match digit a, s' with
      | None, _ => None
      | Some 0%N, EmptyString => Some 0%N
      | Some 0%N, String _ _ => None
      | Some _, _ =>
          match digits 0 k with
          | Some n => if (n <? 2 ^ 32 - 1)%N then Some n else None
          | None => None
          end
      end
  end.

Fixpoint insert_index {A} (n : N) (e : A) (l : list (N * A)) : list (N * A) :=
  match l with
  | [] => [(n, e)]
  | (m, e') :: l' =>
      if (n <=? m)%N then (n, e) :: l else (m, e') :: insert_index n e l'
  end.

(** The properties whose keys are array indices, by rising index. *)
Definition index_entries {A} (obj : list (string * A)) : list (N * (string * A)) :=
  foldr (λ e acc, match array_index e.1 with
                  | Some n => insert_index n e acc
                  | None => acc
                  end) [] obj.

(** [Object.entries(obj)] *)
Definition Object_entries {A} (obj : list (string * A)) : list (string * A) :=
  (index_entries obj).*2 ++ filter (λ e, array_index e.1 = None) obj.

(** [Object.values(obj)] *)
Definition Object_values {A} (obj : list (string * A)) : list A :=
  (Object_entries obj).*2.

(** ** The data of the pool *)

(** A [Worker] object as the pool uses it: the property [taskId] the pool
    hangs on it, and whether [worker.terminate()] has been called. *)
Record WorkerObj := mkWorker {
  w_taskId : option string;
  w_terminated : bool;
}.

(** What a completed promise holds. *)
Inductive Settlement {Value : Type} :=
| Resolved (result : Value)
| Rejected (error : Value).
Arguments Settlement : clear implicits.

Inductive PromiseState {Value : Type} :=
| Pending
| Fulfilled (result : Value)
| Failed (error : Value).
Arguments PromiseState : clear implicits.

(** The task object built by [execute]. [resolve] and [reject] are the two
    functions of one promise: [promise] names that promise. [worker] is the
    index in [this.workers] of the worker the task was given to. *)
Record Task {Value : Type} := mkTask {
  taskId : string;
  data : Value;
  promise : nat;
  worker : option nat;
}.
Arguments Task : clear implicits.
Arguments mkTask {Value}.

(** The pool, and what it has done to its surroundings: the promises handed
    out by [execute] are numbered from 0, [settled] lists the calls of
    [resolve] and [reject] and [assigned] the calls of [assignTask] (each
    posts the task's data to the worker), oldest first. *)
Record Pool {Value : Type} := mkPool {
  workers : list WorkerObj;
  taskQueue : list (Task Value);
  activeWorkers : list (string * Task Value);
  poolSize : nat;
  promises : nat;
  settled : list (nat * Settlement Value);
  assigned : list (nat * Task Value);
}.
Arguments Pool : clear implicits.
Arguments mkPool {Value}.

(** The body of [GET /api/workers/stats]. *)
Record Stats := mkStats {
  st_poolSize : nat;
  st_activeWorkers : nat;
  st_queuedTasks : nat;
  st_totalWorkers : nat;
}.

(** What reaches the pool. Payloads, results and errors are values that
    pass between threads; their type is left open. A message of a worker is
    an object: [m_taskId] is its property [taskId] when that is a string,
    [m_body] the object. *)
Record Message {Value : Type} := mkMessage {
  m_taskId : option string;
  m_body : Value;
}.
Arguments Message : clear implicits.
Arguments mkMessage {Value}.

Inductive Event {Value : Type} :=
| Execute (payload : Value) (now rnd : string)
| OnMessage (i : nat) (result : Message Value)
| OnError (i : nat) (error : Value)
| OnExit (i : nat) (code : nat)
| Terminate.
Arguments Event : clear implicits.

Section WorkerPool.
Context {Value : Type}.

#[local] Abbreviation Task := (Task Value).
#[local] Abbreviation Pool := (Pool Value).

(** *** constructor and [initializeWorkers] *)

Definition fresh_worker : WorkerObj :=
  {| w_taskId := None; w_terminated := false |}.

(** The loop [for (let i = 0; i < poolSize; i++)] with [n] rounds left.
    [spawn i = false] says that [new Worker(...)] throws in round [i]: the
    [catch] around the loop ends it there. *)
Fixpoint initializeWorkers_from (spawn : nat → bool) (i n : nat)
    (ws : list WorkerObj) : list WorkerObj :=
  match n with
  | 0 => ws
  | S n' =>
      if spawn i then initializeWorkers_from spawn (S i) n' (ws ++ [fresh_worker])
      else ws
  end.

Definition initializeWorkers (spawn : nat → bool) (p : Pool) : Pool :=
  {| workers := initializeWorkers_from spawn 0 (poolSize p) (workers p);
     taskQueue := taskQueue p;
     activeWorkers := activeWorkers p;
     poolSize := poolSize p;
     promises := promises p;
     settled := settled p;
     assigned := assigned p |}.

Definition new_WorkerPool (spawn : nat → bool) (size : nat) : Pool :=
  initializeWorkers spawn
    {| workers := []; taskQueue := []; activeWorkers := []; poolSize := size;
       promises := 0; settled := []; assigned := [] |}.

(** *** [assignTask] *)

(** [this.workers.find(w => !w.taskId)], as the index of the worker. *)
Definition available (w : WorkerObj) : bool := negb (truthy (w_taskId w)).

Definition find_available (ws : list WorkerObj) : option nat :=
  fst <$> list_find (λ w, available w = true) ws.

Definition assignTask (i : nat) (task : Task) (p : Pool) : Pool :=
  let task' := {| taskId := taskId task; data := data task;
                  promise := promise task; worker := Some i |} in
  {| workers :=
       alter (λ w, {| w_taskId := Some (taskId task);
                      w_terminated := w_terminated w |}) i (workers p);
     taskQueue := taskQueue p;
     activeWorkers := JSMap.set (taskId task) task' (activeWorkers p);
     poolSize := poolSize p;
     promises := promises p;
     settled := settled p;
     assigned := assigned p ++ [(i, task')] |}.

(** *** [execute] *)

(** [`task-${Date.now()}-${Math.random().toString(36).substr(2, 9)}`]: the
    clock reading and the random digits come from outside. *)
Definition make_taskId (now rnd : string) : string :=
  ("task-" +:+ now +:+ "-" +:+ rnd)%string.

Definition enqueue (task : Task) (p : Pool) : Pool :=
  {| workers := workers p;
     taskQueue := taskQueue p ++ [task];
     activeWorkers := activeWorkers p;
     poolSize := poolSize p;
     promises := promises p;
     settled := settled p;
     assigned := assigned p |}.

Definition new_promise (p : Pool) : Pool :=
  {| workers := workers p;
     taskQueue := taskQueue p;
     activeWorkers := activeWorkers p;
     poolSize := poolSize p;
     promises := S (promises p);
     settled := settled p;
     assigned := assigned p |}.

(** Returns the promise and the pool after the executor has run. *)
Definition execute (payload : Value) (now rnd : string) (p : Pool) : nat * Pool :=
  let h := promises p in
  let task := {| taskId := make_taskId now rnd; data := payload;
                 promise := h; worker := None |} in
  let p1 := new_promise p in
  match find_available (workers p1) with
  | Some i => (h, assignTask i task p1)
  | None => (h, enqueue task p1)
  end.

(** *** [processQueue] *)

Definition set_taskQueue (q : list Task) (p : Pool) : Pool :=
  {| workers := workers p;
     taskQueue := q;
     activeWorkers := activeWorkers p;
     poolSize := poolSize p;
     promises := promises p;
     settled := settled p;
     assigned := assigned p |}.

(** The recursion of [processQueue] follows the queue, which [q] repeats:
    every call either returns or shifts one task and calls itself. *)
Fixpoint processQueue_from (q : list Task) (p : Pool) : Pool :=
  match q with
  | [] => p
  | task :: rest =>
      match find_available (workers p) with
      | Some i => processQueue_from rest (assignTask i task (set_taskQueue rest p))
      | None => p
      end
  end.

Definition processQueue (p : Pool) : Pool := processQueue_from (taskQueue p) p.

(** *** the handlers of a worker's events *)

Definition settle (h : nat) (o : Settlement Value) (p : Pool) : Pool :=
  {| workers := workers p;
     taskQueue := taskQueue p;
     activeWorkers := activeWorkers p;
     poolSize := poolSize p;
     promises := promises p;
     settled := settled p ++ [(h, o)];
     assigned := assigned p |}.

Definition delete_active (k : string) (p : Pool) : Pool :=
  {| workers := workers p;
     taskQueue := taskQueue p;
     activeWorkers := JSMap.delete k (activeWorkers p);
     poolSize := poolSize p;
     promises := promises p;
     settled := settled p;
     assigned := assigned p |}.

(** [worker.on('message', ...)] *)
Definition on_message (result : Message Value) (p : Pool) : Pool :=
  match m_taskId result with
  | None => p
  | Some k =>
      match JSMap.get k (activeWorkers p) with
      | Some task =>
          processQueue
            (delete_active k (settle (promise task) (Resolved (m_body result)) p))
      | None => p
      end
  end.

(** [worker.on('error', ...)] of the worker at index [i]: the first entry
    of [activeWorkers] whose task has this worker. *)
Definition on_error (i : nat) (error : Value) (p : Pool) : Pool :=
  match list_find (λ e : string * Task, worker e.2 = Some i) (activeWorkers p) with
  | Some (_, (k, _)) =>
      if truthy_string k then
        match JSMap.get k (activeWorkers p) with
        | Some task =>
            processQueue (delete_active k (settle (promise task) (Rejected error) p))
        | None => p
        end
      else p
  | None => p
  end.

(** [worker.on('exit', ...)] writes to the console and nothing else. *)
Definition on_exit (i code : nat) (p : Pool) : Pool := p.

(** *** [terminate] *)

Definition terminate (p : Pool) : Pool :=
  {| workers := (λ w, {| w_taskId := w_taskId w; w_terminated := true |}) <$> workers p;
     taskQueue := taskQueue p;
     activeWorkers := activeWorkers p;
     poolSize := poolSize p;
     promises := promises p;
     settled := settled p;
     assigned := assigned p |}.

(** *** the statistics route *)

Definition stats (p : Pool) : Stats :=
  {| st_poolSize := poolSize p;
     st_activeWorkers := JSMap.size (activeWorkers p);
     st_queuedTasks := length (taskQueue p);
     st_totalWorkers := length (workers p) |}.

(** *** the pool as a state machine *)

Definition step (p : Pool) (e : Event Value) : Pool :=
  match e with
  | Execute payload now rnd => (execute payload now rnd p).2
  | OnMessage _ result => on_message result p
  | OnError i error => on_error i error p
  | OnExit i code => on_exit i code p
  | Terminate => terminate p
  end.

Definition run (es : list (Event Value)) (p : Pool) : Pool := foldl step p es.

(** *** reading the state *)

(** A promise is settled by the first call of [resolve] or [reject]; later
    calls change nothing. *)
Definition promiseState (h : nat) (p : Pool) : PromiseState Value :=
  match list_find (λ e : nat * Settlement Value, e.1 = h) (settled p) with
  | Some (_, (_, Resolved r)) => Fulfilled r
  | Some (_, (_, Rejected e)) => Failed e
  | None => Pending
  end.

(** How often [resolve] or [reject] of promise [h] has been called. *)
Definition settle_calls (h : nat) (p : Pool) : nat :=
  length (filter (λ e : nat * Settlement Value, e.1 = h) (settled p)).

Definition busy_workers (p : Pool) : nat :=
  length (filter (λ w, truthy (w_taskId w) = true) (workers p)).

Definition idle_workers (p : Pool) : nat :=
  length (filter (λ w, available w = true) (workers p)).

(** The position of promise [h]'s task among the calls of [assignTask]. *)
Definition assigned_at (h : nat) (p : Pool) : option nat :=
  fst <$> list_find (λ e : nat * Task, promise e.2 = h) (assigned p).

(** The tasks that were given to a worker, then those that wait, by their
    promises. *)
Definition line (p : Pool) : list nat :=
  (promise ∘ snd <$> assigned p) ++ (promise <$> taskQueue p).

End WorkerPool.

(** * The command bot *)

(** [class ComandanteBot] of [bots/comandante.bot.js]: the table of commands,
    the map from names and aliases to commands, the parsing of an input line
    and the choice of the handler. *)
Module Comandante.
#[local] Open Scope string_scope.
#[local] Open Scope list_scope.

(** ** Strings *)

(** A JavaScript string whose code units are all below 256 is the [string]
    of these code units. Among them, [trim] and the class [\s] of regular
    expressions take the same seven for white space: tab, line feed, vertical
    tab, form feed, carriage return, space and no-break space. *)
Definition is_space (a : ascii) : bool :=
  let n := nat_of_ascii a in
  ((n =? 9) || (n =? 10) || (n =? 11) || (n =? 12) || (n =? 13) || (n =? 32)
   || (n =? 160))%nat.

Fixpoint trimStart (s : string) : string :=
  match s with
  | "" => ""
  | String a s' => if is_space a then trimStart s' else s
  end.

Fixpoint trimEnd (s : string) : string :=
  match s with
  | "" => ""
  | String a s' =>
      match trimEnd s' with
      | "" => if is_space a then "" else String a ""
      | r => String a r
      end
  end.

(** [s.trim()] *)
Definition trim (s : string) : string := trimEnd (trimStart s).

(** [s.startsWith(p)] *)
Definition startsWith (s p : string) : bool := String.prefix p s.

(** [s.slice(1)] *)
Definition slice1 (s : string) : string :=
  match s with
  | "" => ""
  | String _ s' => s'
  end.

(** [s.split(/\s+/)]: the pieces of [s] between its runs of white space.
    [tok] is the piece being read; [in_gap] says that the last code unit read
    was white space. A run at the start gives a first piece that is empty, a
    run at the end a last piece that is empty, and the empty string gives one
    empty piece. *)
Fixpoint split_from (in_gap : bool) (tok : string) (s : string) : list string :=
  match s with
  | "" => [tok]
  | String a s' =>
      if is_space a then
        if in_gap then split_from true tok s' else tok :: split_from true "" s'
      else split_from false (tok ++ String a "") s'
  end.

Definition split_spaces (s : string) : list string := split_from false "" s.

(** [toLowerCase] on code units below 256: the letters A to Z, and the
    letters from 192 to 222 but for the sign at 215, move up by 32. *)
Definition lower_unit (a : ascii) : ascii :=
  let n := nat_of_ascii a in
  if (((65 <=? n) && (n <=? 90))
      || ((192 <=? n) && (n <=? 222) && negb (n =? 215)))%nat
  then ascii_of_nat (n + 32) else a.

Fixpoint toLowerCase (s : string) : string :=
  match s with
  | "" => ""
  | String a s' => String (lower_unit a) (toLowerCase s')
  end.

(** [args.join(' ')] *)
Definition join (args : list string) : string := String.concat " " args.

(** ** Objects *)

(** The names of the properties of [Object.prototype], which every object
    written [{...}] inherits. Their values are functions, or an object for
    [__proto__]: all of them truthy. *)
Definition Object_prototype : list string :=
  [ "constructor"; "__defineGetter__"; "__defineSetter__"; "hasOwnProperty";
    "__lookupGetter__"; "__lookupSetter__"; "isPrototypeOf";
    "propertyIsEnumerable"; "toString"; "valueOf"; "__proto__";
    "toLocaleString" ].

Definition inherited (k : string) : bool := bool_decide (k ∈ Object_prototype).

(** What [obj[k]] finds: a property of the object itself, one it inherits,
    or nothing ([undefined]). *)
Inductive Property {V : Type} :=
| Own (v : V)
| Inherited
| Absent.
Arguments Property : clear implicits.

Definition property_get {V} (obj : list (string * V)) (k : string) : Property V :=
  match JSMap.get k obj with
  | Some v => Own v
  | None => if inherited k then Inherited else Absent
  end.

(** [obj[k] = v] for a string [v]: the key [__proto__] goes to the setter
    of the prototype, which ignores a string. *)
Definition property_set (k v : string) (obj : list (string * string)) :
    list (string * string) :=
  if String.eqb k "__proto__" then obj else JSMap.set k v obj.

(** [k in obj] *)
Definition property_in {V} (obj : list (string * V)) (k : string) : bool :=
  match property_get obj k with
  | Absent => false
  | _ => true
  end.

(** ** The table of commands *)

Inductive Handler :=
| handleHelp | handleCatalog | handleBooking | handleStatus | handlePricing
| handleHours | handleLocation | handleContact | handleFaq | handleSupport
| handleCancel | handleRefund.

Record Command := mkCommand {
  name : string;
  description : string;
  handler : Handler;
  aliases : list string;
}.

(** [initializeCommands]: the object, as its keys and values in the order
    in which they are written. None of the keys is an array index. *)
Definition initializeCommands : list (string * Command) :=
  [ ("help", mkCommand "help" "Display help information and available commands"
               handleHelp ["h"; "info"; "?"; "assist"]);
    ("catalog", mkCommand "catalog" "Browse the product/service catalog"
               handleCatalog ["c"; "products"; "services"; "menu"; "list"]);
    ("booking", mkCommand "booking" "Make or manage a booking"
               handleBooking ["b"; "book"; "reserve"; "schedule"; "appointment"]);
    ("status", mkCommand "status" "Check booking or order status"
               handleStatus ["s"; "check"; "track"; "progress"; "update"]);
    ("pricing", mkCommand "pricing" "View pricing information"
               handlePricing ["p"; "price"; "cost"; "rates"; "fees"]);
    ("hours", mkCommand "hours" "Display operating hours"
               handleHours ["h"; "time"; "open"; "schedule"; "availability"]);
    ("location", mkCommand "location" "Get location information"
               handleLocation ["l"; "address"; "where"; "map"; "directions"]);
    ("contact", mkCommand "contact" "Get contact information"
               handleContact ["ct"; "email"; "phone"; "support"; "reach"]);
    ("faq", mkCommand "faq" "Frequently asked questions"
               handleFaq ["f"; "question"; "questions"; "qa"; "common"]);
    ("support", mkCommand "support" "Get customer support assistance"
               handleSupport ["sup"; "help"; "assist"; "agent"; "ticket"]);
    ("cancel", mkCommand "cancel" "Cancel a booking or order"
               handleCancel ["x"; "terminate"; "abort"; "stop"; "delete"]);
    ("refund", mkCommand "refund" "Request a refund"
               handleRefund ["r"; "money-back"; "reimbursement"; "return"; "claim"]) ].

(** [initializeAliases]: for every command of [Object.values(commands)] in
    turn, its name and then each of its aliases is set to its name. *)
Definition add_command (als : list (string * string)) (command : Command) :
    list (string * string) :=
  foldl (λ als alias, property_set alias (name command) als)
        (property_set (name command) (name command) als)
        (aliases command).

Definition initializeAliases (commands : list (string * Command)) :
    list (string * string) :=
  foldl add_command [] (Object_values commands).

(** The bot. Of [this.config] only [prefix] is read. The constructor writes
    [prefix: config.prefix || '/'] and then spreads [config] over it: the
    prefix is the one of [config] when [config] has one, whatever it is, and
    ['/'] otherwise. *)
Record Bot := mkBot {
  prefix : string;
  commands : list (string * Command);
  aliases_of : list (string * string);
}.

Definition new_ComandanteBot (config_prefix : option string) : Bot :=
  {| prefix := default "/" config_prefix;
     commands := initializeCommands;
     aliases_of := initializeAliases initializeCommands |}.

(** ** [parseCommand] *)

Record Parsed := mkParsed {
  raw : string;
  hasPrefix : bool;
  commandAlias : string;
  args : list string;
  fullArgs : string;
}.

(** [None] stands for the [TypeError] of [parts[0].toLowerCase()] on an
    empty array. *)
Definition parseCommand (bot : Bot) (input : string) : option Parsed :=
  let trimmed := trim input in
  let hasPrefix := startsWith trimmed (prefix bot) in
  let commandStr := if hasPrefix then slice1 trimmed else trimmed in
  match split_spaces commandStr with
  | [] => None
  | part0 :: rest =>
      Some {| raw := input;
              hasPrefix := hasPrefix;
              commandAlias := toLowerCase part0;
              args := rest;
              fullArgs := join rest |}
  end.

(** ** [execute] *)

(** What [execute] does with an input: it answers that the command is
    unknown, or calls a handler with the arguments and wraps its answer with
    [success: true] and the name of the command, or catches an exception and
    answers with [success: false] and the message of the exception. *)
Inductive Outcome :=
| UnknownCommand (alias : string)
| Called (commandName : string) (h : Handler) (args : list string) (fullArgs : string)
| Threw.

Definition execute (bot : Bot) (input : string) : Outcome :=
  match parseCommand bot input with
  | None => Threw
  | Some parsed =>
      match property_get (aliases_of bot) (commandAlias parsed) with
      | Absent => UnknownCommand (commandAlias parsed)
      | Own commandName =>
          if truthy_string commandName then
            match JSMap.get commandName (commands bot) with
            | Some command =>
                Called commandName (handler command) (args parsed) (fullArgs parsed)
            | None => Threw
            end
          else UnknownCommand (commandAlias parsed)
      | Inherited => Threw
      end
  end.

(** [getCommand]: [None] is [null] or [undefined]. *)
Definition getCommand (bot : Bot) (nameOrAlias : string) : option Command :=
  match property_get (aliases_of bot) (toLowerCase nameOrAlias) with
  | Own commandName =>
      if truthy_string commandName then JSMap.get commandName (commands bot) else None
  | Inherited => None
  | Absent => None
  end.

Definition hasCommand (bot : Bot) (nameOrAlias : string) : bool :=
  property_in (aliases_of bot) (toLowerCase nameOrAlias).

(** Command [c] lays claim to the key [k]: as its name or as an alias. *)
Definition claims (c : Command) (k : string) : Prop := k = name c ∨ k ∈ aliases c.

#[export] Instance claims_dec c k : Decision (claims c k).
Proof. unfold claims. apply _. Defined.

(** The string holds white space; the string ends in white space. *)
Fixpoint has_space (s : string) : bool :=
  match s with
  | "" => false
  | String a s' => is_space a || has_space s'
  end.

Fixpoint ends_with_space (s : string) : bool :=
  match s with
  | "" => false
  | String a s' =>
      match s' with
      | "" => is_space a
      | String _ _ => ends_with_space s'
      end
  end.

End Comandante.

(** * The conversation bot *)

(** [class PorteroBot] of [bots/portero.bot.js]: the machine of states, the
    history of its moves and the conversations.

    The bot calls functions given by its user: the handlers [onEnter] and
    [onExit] of a state and the listeners of [on]. Of a handler the bot sees
    whether its call returns or throws, and that is an argument of the
    operation that calls it, as the readings of the clock are where a time
    is stored. A listener that throws has [emit] call [_error], which emits
    again: what that comes to is not known here, so an operation that would
    call a listener has the result [None]. The map [transitionCallbacks] is
    never written to, so [_executeTransitionCallbacks] calls nothing. What
    goes to the console is left out. *)
Module Portero.
#[local] Open Scope string_scope.
#[local] Open Scope list_scope.

(** A value kept as [onEnter] or [onExit] of a state. [onEnterState] and
    [onExitState] take functions only; the [config] of [registerState] can
    hold any value, of which the truthy ones are kept. *)
Inductive Handler {V : Type} :=
| IsFunction (f : V)
| NotFunction (v : V).
Arguments Handler : clear implicits.

(** What the call of a function of the user comes to, as the bot sees it:
    the function returns (an async function: its promise is fulfilled), or it
    throws a value (an async function: its promise is rejected with it). Of a
    value thrown the bot reads [message], which fails on [null] and on
    [undefined]. The function is taken to leave the bot alone. What a call
    comes to is not known before it is made: it is given with the call of the
    bot that makes it, as the readings of the clock are. *)
Inductive Outcome :=
| Returns
| Throws (nullish : bool).

(** The [config] argument of [registerState]: each field is [None] when
    it is missing or falsy. *)
Record StateConfig {V : Type} := mkStateConfig {
  c_type : option string;
  c_allowedTransitions : option (list string);
  c_onEnter : option (Handler V);
  c_onExit : option (Handler V);
  c_timeout : option nat;
  c_metadata : option V;
}.
Arguments StateConfig : clear implicits.
Arguments mkStateConfig {V}.

(** An entry of [this.states]; the [metadata] [None] is the empty object. *)
Record StateDef {V : Type} := mkStateDef {
  s_name : string;
  s_type : string;
  allowedTransitions : list string;
  onEnter : option (Handler V);
  onExit : option (Handler V);
  timeout : option nat;
  metadata : option V;
}.
Arguments StateDef : clear implicits.
Arguments mkStateDef {V}.

(** The [context] of a transition: given by the caller, or the object
    [{ reason: 'reset' }] of [reset]. *)
Inductive Context {V : Type} :=
| GivenContext (context : V)
| ResetContext.
Arguments Context : clear implicits.

Record Flow {V : Type} := mkFlow {
  f_from : string;
  f_to : string;
  f_timestamp : nat;
  f_context : Context V;
}.
Arguments Flow : clear implicits.
Arguments mkFlow {V}.

Record ChatMessage {V : Type} := mkChatMessage {
  role : string;
  content : string;
  m_timestamp : nat;
  m_metadata : V;
}.
Arguments ChatMessage : clear implicits.
Arguments mkChatMessage {V}.

Record Conversation {V : Type} := mkConversation {
  userId : string;
  startTime : nat;
  lastMessageTime : nat;
  messageCount : nat;
  context : list (string * V);
  messages : list (ChatMessage V);
  state : string;
  sessionId : string;
}.
Arguments Conversation : clear implicits.
Arguments mkConversation {V}.

Record Bot {V : Type} := mkBot {
  name : string;
  version : string;
  initialState : string;
  states : list (string * StateDef V);
  currentState : string;
  previousState : option string;
  conversations : list (string * Conversation V);
  flowHistory : list (Flow V);
  eventHandlers : list (string * list V);
}.
Arguments Bot : clear implicits.
Arguments mkBot {V}.

(** The [config] of the constructor, as far as it is read. *)
Record Config {V : Type} := mkConfig {
  cfg_name : option string;
  cfg_version : option string;
  cfg_initialState : option string;
  cfg_states : list (string * StateConfig V);
}.
Arguments Config : clear implicits.
Arguments mkConfig {V}.

(** What [transitionTo] and [reset] answer: one of the four objects
    that [transitionTo] returns, or a promise that is rejected. *)
Inductive TransitionResult :=
| Success (sourceState targetState : string) (timestamp : nat)
| NotAllowed (sourceState targetState : string)
| NotFound (sourceState targetState : string)
| Caught (targetState : string)
| PromiseRejected.

Record Statistics := mkStatistics {
  st_name : string;
  st_version : string;
  st_currentState : string;
  totalStates : nat;
  activeConversations : nat;
  totalMessages : nat;
  flowHistoryLength : nat;
}.

Section Model.
Context {V : Type}.

#[local] Abbreviation Bot := (Bot V).
#[local] Abbreviation StateConfig := (StateConfig V).
#[local] Abbreviation StateDef := (StateDef V).
#[local] Abbreviation Conversation := (Conversation V).

(** [a || b] for a string that may be missing. *)
Definition or_string (a : option string) (b : string) : string :=
  match a with
  | Some s => if truthy_string s then s else b
  | None => b
  end.

Definition set_states (sts : list (string * StateDef)) (bot : Bot) : Bot :=
  {| name := name bot; version := version bot; initialState := initialState bot;
     states := sts; currentState := currentState bot;
     previousState := previousState bot; conversations := conversations bot;
     flowHistory := flowHistory bot; eventHandlers := eventHandlers bot |}.

Definition set_conversations (cs : list (string * Conversation)) (bot : Bot) : Bot :=
  {| name := name bot; version := version bot; initialState := initialState bot;
     states := states bot; currentState := currentState bot;
     previousState := previousState bot; conversations := cs;
     flowHistory := flowHistory bot; eventHandlers := eventHandlers bot |}.

(** [registerState]; it returns [true]. *)
Definition registerState (stateName : string) (config : StateConfig) (bot : Bot) : Bot :=
  set_states
    (JSMap.set stateName
       {| s_name := stateName;
          s_type := or_string (c_type config) "standard";
          allowedTransitions := default [] (c_allowedTransitions config);
          onEnter := c_onEnter config;
          onExit := c_onExit config;
          timeout := match c_timeout config with Some 0 => None | t => t end;
          metadata := c_metadata config |}
       (states bot))
    bot.

Definition plain (type : string) (allowed : list string) : StateConfig :=
  {| c_type := Some type; c_allowedTransitions := Some allowed;
     c_onEnter := None; c_onExit := None; c_timeout := None; c_metadata := None |}.

Definition defaultStates : list (string * StateConfig) :=
  [ ("idle", plain "initial" ["greeting"; "waiting"]);
    ("greeting", plain "interaction" ["processing"; "idle"]);
    ("processing", plain "working" ["responding"; "error"; "idle"]);
    ("responding", plain "interaction" ["awaiting_input"; "closing"; "idle"]);
    ("awaiting_input", plain "waiting" ["processing"; "closing"; "idle"]);
    ("error", plain "exception" ["recovering"; "idle"]);
    ("recovering", plain "recovery" ["idle"; "greeting"]);
    ("closing", plain "terminal" ["idle"]);
    ("waiting", plain "idle" ["greeting"; "closing"; "idle"]) ].

(** [{ ...defaultStates, ...this.stateDefinitions }] *)
Definition finalStates (stateDefinitions : list (string * StateConfig)) :
    list (string * StateConfig) :=
  foldl (λ m e, JSMap.set e.1 e.2 m) defaultStates (Object_entries stateDefinitions).

Definition _initializeStates (stateDefinitions : list (string * StateConfig))
    (bot : Bot) : Bot :=
  foldl (λ b e, registerState e.1 e.2 b) bot
        (Object_entries (finalStates stateDefinitions)).

Definition new_PorteroBot (config : Config V) : Bot :=
  _initializeStates (cfg_states config)
    {| name := or_string (cfg_name config) "PorteroBot";
       version := or_string (cfg_version config) "1.0.0";
       initialState := or_string (cfg_initialState config) "idle";
       states := [];
       currentState := or_string (cfg_initialState config) "idle";
       previousState := None;
       conversations := [];
       flowHistory := [];
       eventHandlers := [] |}.

(** [onEnterState] and [onExitState] with a function for [handler]:
    [None] is the exception for a state that is not there. *)
Definition onEnterState (stateName : string) (handler : V) (bot : Bot) : option Bot :=
  match JSMap.get stateName (states bot) with
  | None => None
  | Some st =>
      Some (set_states
              (JSMap.set stateName
                 {| s_name := s_name st; s_type := s_type st;
                    allowedTransitions := allowedTransitions st;
                    onEnter := Some (IsFunction handler); onExit := onExit st;
                    timeout := timeout st; metadata := metadata st |}
                 (states bot))
              bot)
  end.

Definition onExitState (stateName : string) (handler : V) (bot : Bot) : option Bot :=
  match JSMap.get stateName (states bot) with
  | None => None
  | Some st =>
      Some (set_states
              (JSMap.set stateName
                 {| s_name := s_name st; s_type := s_type st;
                    allowedTransitions := allowedTransitions st;
                    onEnter := onEnter st; onExit := Some (IsFunction handler);
                    timeout := timeout st; metadata := metadata st |}
                 (states bot))
              bot)
  end.

(** [on] with a function for [handler]. *)
Definition on (eventType : string) (handler : V) (bot : Bot) : Bot :=
  {| name := name bot; version := version bot; initialState := initialState bot;
     states := states bot; currentState := currentState bot;
     previousState := previousState bot; conversations := conversations bot;
     flowHistory := flowHistory bot;
     eventHandlers :=
       JSMap.set eventType
         (default [] (JSMap.get eventType (eventHandlers bot)) ++ [handler])
         (eventHandlers bot) |}.

(** [emit] calls the listeners of the event: it is known here only when
    there are none ([None] otherwise). [_error] writes to the console and
    emits [error]. *)
Definition emit (eventType : string) (bot : Bot) : option unit :=
  match JSMap.get eventType (eventHandlers bot) with
  | None | Some [] => Some ()
  | Some (_ :: _) => None
  end.

Definition _error (bot : Bot) : option unit := emit "error" bot.

(** The call [handler(context)]: a value that is not a function cannot
    be called, which throws a [TypeError]. *)
Definition call (handler : Handler V) (outcome : Outcome) : Outcome :=
  match handler with
  | IsFunction _ => outcome
  | NotFunction _ => Throws false
  end.

(** [_executeHandler]: what the call came to. When the call throws, the
    [catch] calls [_error] and throws the value again. *)
Definition _executeHandler (handler : Handler V) (outcome : Outcome) (bot : Bot) :
    option Outcome :=
  match call handler outcome with
  | Returns => Some Returns
  | Throws nullish => _ ← _error bot; Some (Throws nullish)
  end.

(** [if (handler) { await this._executeHandler(handler, ...) }] *)
Definition if_handler (handler : option (Handler V)) (outcome : Outcome) (bot : Bot) :
    option Outcome :=
  match handler with
  | None => Some Returns
  | Some h => _executeHandler h outcome bot
  end.

(** The [catch] of [transitionTo]: it calls [_error] and returns an object
    with [error.message], which it cannot read of [null] or [undefined]:
    then the promise of [transitionTo] is rejected. *)
Definition transitionTo_catch (targetState : string) (nullish : bool) (bot : Bot) :
    option (TransitionResult * Bot) :=
  _ ← _error bot;
  Some (if nullish then PromiseRejected else Caught targetState, bot).

(** The bot after the move: the lines of [transitionTo] under
    [// Update state] and [// Record in flow history]. *)
Definition moved (sourceState targetState : string) (t_history : nat)
    (context : Context V) (bot : Bot) : Bot :=
  {| name := name bot; version := version bot;
     initialState := initialState bot;
     states := states bot;
     currentState := targetState;
     previousState := Some sourceState;
     conversations := conversations bot;
     flowHistory :=
       flowHistory bot ++ [mkFlow sourceState targetState t_history context];
     eventHandlers := eventHandlers bot |}.

(** [transitionTo]. [t_history] is the time stored in the history,
    [t_result] the time in the result; [exit_outcome] is what the call of the
    [onExit] handler comes to if there is one to call, [enter_outcome] the
    same for the [onEnter] handler. [this.transitionCallbacks] is never
    written, so [_executeTransitionCallbacks] finds nothing to call. *)
Definition transitionTo (targetState : string) (context : Context V)
    (t_history t_result : nat) (exit_outcome enter_outcome : Outcome) (bot : Bot) :
    option (TransitionResult * Bot) :=
  let sourceState := currentState bot in
  match JSMap.get sourceState (states bot) with
  | None => transitionTo_catch targetState false bot
  | Some st =>
      if negb (bool_decide (targetState ∈ allowedTransitions st)) then
        _ ← _error bot; Some (NotAllowed sourceState targetState, bot)
      else
        match JSMap.get targetState (states bot) with
        | None => _ ← _error bot; Some (NotFound sourceState targetState, bot)
        | Some newState =>
            exited ← if_handler (onExit st) exit_outcome bot;
            match exited with
            | Throws nullish => transitionTo_catch targetState nullish bot
            | Returns =>
                _ ← emit "state_transition" bot;
                let bot' := moved sourceState targetState t_history context bot in
                entered ← if_handler (onEnter newState) enter_outcome bot';
                match entered with
                | Throws nullish => transitionTo_catch targetState nullish bot'
                | Returns => Some (Success sourceState targetState t_result, bot')
                end
            end
        end
  end.

(** [reset]. When the promise of [transitionTo] is rejected, the [catch]
    of [reset] calls [_error] and throws again: nothing is cleared. *)
Definition reset (t_history t_result : nat) (exit_outcome enter_outcome : Outcome)
    (bot : Bot) : option (TransitionResult * Bot) :=
  '(result, bot') ← transitionTo (initialState bot) ResetContext t_history t_result
                      exit_outcome enter_outcome bot;
  match result with
  | PromiseRejected => _ ← _error bot'; Some (PromiseRejected, bot')
  | _ =>
      Some (result,
            {| name := name bot'; version := version bot';
               initialState := initialState bot';
               states := states bot'; currentState := currentState bot';
               previousState := previousState bot';
               conversations := [];
               flowHistory := [];
               eventHandlers := eventHandlers bot' |})
  end.

(** [array.slice(start)] for an integer [start]. *)
Definition slice_from {A} (start : Z) (l : list A) : list A :=
  if (start <? 0)%Z then drop (Z.to_nat (Z.max (Z.of_nat (length l) + start) 0)) l
  else drop (Z.to_nat start) l.

(** [getFlowHistory(limit)] with an integer for [limit], or without. *)
Definition getFlowHistory (limit : option Z) (bot : Bot) : list (Flow V) :=
  slice_from (- default 50%Z limit) (flowHistory bot).

(** [getOrCreateConversation]: [t_start] is the time stored as
    [startTime] of a new conversation, [t_last] the one stored at the end as
    [lastMessageTime]; [sid] is what [_generateSessionId] makes. *)
Definition getOrCreateConversation (user : string) (t_start t_last : nat) (sid : string)
    (bot : Bot) : Conversation * Bot :=
  let conv :=
    match JSMap.get user (conversations bot) with
    | Some c => c
    | None =>
        {| userId := user; startTime := t_start; lastMessageTime := t_start;
           messageCount := 0; context := []; messages := [];
           state := initialState bot; sessionId := sid |}
    end in
  let conv' :=
    {| userId := userId conv; startTime := startTime conv; lastMessageTime := t_last;
       messageCount := messageCount conv; context := context conv;
       messages := messages conv; state := state conv; sessionId := sessionId conv |} in
  (conv', set_conversations (JSMap.set user conv' (conversations bot)) bot).

(** [addMessage]: returns the index of the message. *)
Definition addMessage (user role content : string) (meta : V)
    (t_start t_last t_message : nat) (sid : string) (bot : Bot) : option (Z * Bot) :=
  let '(conv, bot1) := getOrCreateConversation user t_start t_last sid bot in
  let conv' :=
    {| userId := userId conv; startTime := startTime conv;
       lastMessageTime := lastMessageTime conv;
       messageCount := S (messageCount conv); context := context conv;
       messages := messages conv ++ [mkChatMessage role content t_message meta];
       state := state conv; sessionId := sessionId conv |} in
  let bot2 := set_conversations (JSMap.set user conv' (conversations bot1)) bot1 in
  _ ← emit "message_added" bot2;
  Some (Z.of_nat (length (messages conv')) - 1, bot2)%Z.

(** [getConversation]: [None] is [null]. *)
Definition getConversation (user : string) (bot : Bot) : option Conversation :=
  JSMap.get user (conversations bot).

(** [updateConversationContext]: [{ ...conversation.context, ...contextData }] *)
Definition updateConversationContext (user : string) (contextData : list (string * V))
    (t_start t_last : nat) (sid : string) (bot : Bot) : option Bot :=
  let '(conv, bot1) := getOrCreateConversation user t_start t_last sid bot in
  let conv' :=
    {| userId := userId conv; startTime := startTime conv;
       lastMessageTime := lastMessageTime conv;
       messageCount := messageCount conv;
       context := foldl (λ m e, JSMap.set e.1 e.2 m) (context conv) contextData;
       messages := messages conv; state := state conv; sessionId := sessionId conv |} in
  let bot2 := set_conversations (JSMap.set user conv' (conversations bot1)) bot1 in
  _ ← emit "context_updated" bot2;
  Some bot2.

(** [clearConversation]: what [Map.delete] returns, and the bot. *)
Definition clearConversation (user : string) (bot : Bot) : bool * Bot :=
  (bool_decide (is_Some (JSMap.get user (conversations bot))),
   set_conversations (JSMap.delete user (conversations bot)) bot).

(** [getStatistics], without the time. *)
Definition getStatistics (bot : Bot) : Statistics :=
  {| st_name := name bot;
     st_version := version bot;
     st_currentState := currentState bot;
     totalStates := JSMap.size (states bot);
     activeConversations := JSMap.size (conversations bot);
     totalMessages := foldl (λ n e, n + messageCount e.2) 0 (conversations bot);
     flowHistoryLength := length (flowHistory bot) |}.

(** The calls that change the bot, and a bot after a sequence of them.
    The result is [None] when a call runs a listener registered with [on],
    or throws. *)
Inductive Op :=
| OpRegisterState (stateName : string) (config : StateConfig)
| OpOnEnterState (stateName : string) (handler : V)
| OpOnExitState (stateName : string) (handler : V)
| OpOn (eventType : string) (handler : V)
| OpTransitionTo (targetState : string) (context : V) (t_history t_result : nat)
    (exit_outcome enter_outcome : Outcome)
| OpReset (t_history t_result : nat) (exit_outcome enter_outcome : Outcome)
| OpGetOrCreateConversation (user : string) (t_start t_last : nat) (sid : string)
| OpAddMessage (user role content : string) (meta : V)
    (t_start t_last t_message : nat) (sid : string)
| OpUpdateConversationContext (user : string) (contextData : list (string * V))
    (t_start t_last : nat) (sid : string)
| OpClearConversation (user : string).

Definition apply_op (bot : Bot) (op : Op) : option Bot :=
  match op with
  | OpRegisterState stateName config => Some (registerState stateName config bot)
  | OpOnEnterState stateName handler => onEnterState stateName handler bot
  | OpOnExitState stateName handler => onExitState stateName handler bot
  | OpOn eventType handler => Some (on eventType handler bot)
  | OpTransitionTo targetState context t_history t_result exit_outcome enter_outcome =>
      snd <$> transitionTo targetState (GivenContext context) t_history t_result
                exit_outcome enter_outcome bot
  | OpReset t_history t_result exit_outcome enter_outcome =>
      snd <$> reset t_history t_result exit_outcome enter_outcome bot
  | OpGetOrCreateConversation user t_start t_last sid =>
      Some (getOrCreateConversation user t_start t_last sid bot).2
  | OpAddMessage user role content meta t_start t_last t_message sid =>
      snd <$> addMessage user role content meta t_start t_last t_message sid bot
  | OpUpdateConversationContext user contextData t_start t_last sid =>
      updateConversationContext user contextData t_start t_last sid bot
  | OpClearConversation user => Some (clearConversation user bot).2
  end.

Fixpoint apply_ops (ops : list Op) (bot : Bot) : option Bot :=
  match ops with
  | [] => Some bot
  | op :: ops' => bot' ← apply_op bot op; apply_ops ops' bot'
  end.

(** The state is in [this.states]. *)
Definition registered (bot : Bot) (stateName : string) : Prop :=
  is_Some (JSMap.get stateName (states bot)).


(** The calls that register nothing: no state, no handler, no listener. *)
Definition registers_nothing (op : Op) : bool :=
  match op with
  | OpRegisterState _ _ | OpOnEnterState _ _ | OpOnExitState _ _ | OpOn _ _ => false
  | _ => true
  end.

(** What the handler of a state comes to, when the state has one. *)
Definition handler_outcome (handler : option (Handler V)) (outcome : Outcome) : Outcome :=
  match handler with
  | None => Returns
  | Some h => call h outcome
  end.


(** The bot made without any [config]. *)
Definition plain_bot : Bot := new_PorteroBot (mkConfig None None None []).

Definition default_names : list string :=
  [ "idle"; "greeting"; "processing"; "responding"; "awaiting_input"; "error";
    "recovering"; "closing"; "waiting" ].

(** What holds of the plain bot while nothing is registered. *)
Definition plain_inv (bot : Bot) : Prop :=
  states bot = states plain_bot ∧ eventHandlers bot = [] ∧
  initialState bot = "idle" ∧ currentState bot ∈ default_names.

(** Every conversation is kept under the id of its user and counts its
    messages. *)
Definition conversations_ok (bot : Bot) : Prop :=
  NoDup (JSMap.keys (conversations bot)) ∧
  Forall (λ e, userId e.2 = e.1 ∧ messageCount e.2 = length (messages e.2))
         (conversations bot).

End Model.
(** Three moves and a message on the plain bot. *)
Definition three_moves : list (@Op unit) :=
  [ OpTransitionTo "greeting" () 1 2 Returns Returns;
    OpAddMessage "ana" "user" "hola" () 3 4 5 "session_1";
    OpTransitionTo "processing" () 6 7 Returns Returns;
    OpTransitionTo "closing" () 8 9 Returns Returns;
    OpTransitionTo "responding" () 10 11 Returns Returns ].

Definition after_three_moves : Bot unit :=
  default plain_bot (apply_ops three_moves plain_bot).

(** The plain bot with a message, moved to [greeting], and then given a
    handler for leaving [greeting] and one for entering [idle]. *)
Definition guarded_ops : list (@Op unit) :=
  [ OpAddMessage "ana" "user" "hola" () 1 2 3 "session_1";
    OpTransitionTo "greeting" () 4 5 Returns Returns;
    OpOnExitState "greeting" ();
    OpOnEnterState "idle" () ].

Definition guarded_bot : Bot unit :=
  default plain_bot (apply_ops guarded_ops plain_bot).

End Portero.

(** * What the properties speak of *)

Section Vocabulary.
Context {Value : Type}.

#[local] Abbreviation Task := (Task Value).
#[local] Abbreviation Pool := (Pool Value).

Implicit Types (p : Pool) (task : Task).

(** Every transition of the pool is a sequence of these updates: a
    submission that finds a worker, a submission that finds none, the
    settlement of a task in flight, one round of [processQueue] that moves
    the head of the queue to a worker, and [terminate]. *)
Inductive micro : Pool → Pool → Prop :=
| micro_submit_assign p payload now rnd i :
    find_available (workers p) = Some i →
    micro p (assignTask i (mkTask (make_taskId now rnd) payload (promises p) None)
               (new_promise p))
| micro_submit_enqueue p payload now rnd :
    find_available (workers p) = None →
    micro p (enqueue (mkTask (make_taskId now rnd) payload (promises p) None)
               (new_promise p))
| micro_complete p k task o :
    JSMap.get k (activeWorkers p) = Some task →
    micro p (delete_active k (settle (promise task) o p))
| micro_dequeue p task rest i :
    taskQueue p = task :: rest →
    find_available (workers p) = Some i →
    micro p (assignTask i task (set_taskQueue rest p))
| micro_terminate p :
    micro p (terminate p).

(** The promises in the line are distinct and have been handed out. *)
Definition wf_line p : Prop :=
  NoDup (line p) ∧ Forall (λ h, h < promises p) (line p).

(** What holds in every state that a pool reaches from its constructor:
    the workers are at most [poolSize]; the keys of [activeWorkers] are
    distinct; a task in flight sits under its own id, which is the [taskId] of
    its worker, and its promise is not settled; promises are settled once and
    only for tasks that were given to a worker; a worker is given a task once
    and then fails the test of [find]; and no worker passes that test while a
    task waits. *)
Record pool_inv p : Prop := {
  inv_size : length (workers p) ≤ poolSize p;
  inv_keys : NoDup (JSMap.keys (activeWorkers p));
  inv_active : ∀ k t, (k, t) ∈ activeWorkers p →
    truthy_string k = true ∧ taskId t = k ∧
    (∃ i w, worker t = Some i ∧ workers p !! i = Some w ∧ w_taskId w = Some k) ∧
    (promise t ∉ (settled p).*1) ∧
    promise t ∈ (promise ∘ snd <$> assigned p);
  inv_active_promises : NoDup (promise ∘ snd <$> activeWorkers p);
  inv_line : wf_line p;
  inv_settled : NoDup (settled p).*1;
  inv_settled_assigned : ∀ h, h ∈ (settled p).*1 → h ∈ (promise ∘ snd <$> assigned p);
  inv_assigned : NoDup (assigned p).*1;
  inv_assigned_busy : ∀ i t, (i, t) ∈ assigned p →
    ∃ w, workers p !! i = Some w ∧ available w = false;
  inv_stuck : taskQueue p ≠ [] → find_available (workers p) = None;
}.

End Vocabulary.

(** ** Concrete pools and events *)

Section Inputs.
#[local] Open Scope string_scope.
#[local] Open Scope list_scope.

(** Every worker thread starts. *)
Definition all_spawn : nat → bool := λ _, true.

(** The [n]-th submission of a burst: the clock has not moved, the random
    digits are [n]. *)
Definition submit (n : string) : Event string :=
  Execute ("job " +:+ n) "1700000000000" n.

Definition id_of (n : string) : string := make_taskId "1700000000000" n.

(** The first [n] worker threads start, the next one does not. *)
Definition spawn_until (n : nat) : nat → bool := λ i, (i <? n)%nat.

(** A worker's message that names the task of submission [n]. *)
Definition done_message (n : string) : Message string :=
  {| m_taskId := Some (id_of n); m_body := "result " +:+ n |}.

(** A pool in which two tasks wait while two workers have no task yet, and
    the first worker runs a task. *)
Definition waiting_pool : Pool string :=
  {| workers := [ {| w_taskId := Some (id_of "1"); w_terminated := false |};
                  fresh_worker; fresh_worker ];
     taskQueue := [ mkTask (id_of "2") "job 2" 1 None;
                    mkTask (id_of "3") "job 3" 2 None ];
     activeWorkers := [ (id_of "1", mkTask (id_of "1") "job 1" 0 (Some 0)) ];
     poolSize := 3;
     promises := 3;
     settled := [];
     assigned := [ (0, mkTask (id_of "1") "job 1" 0 (Some 0)) ] |}.

End Inputs.

(** * Properties *)

(** ** The map *)

Section JSMapFacts.
Context {V : Type}.
Implicit Types (m : list (string * V)) (k : string) (v : V).

Lemma JSMap_get_elem_of k v m : JSMap.get k m = Some v → (k, v) ∈ m.
Proof.
  induction m as [|[k' v'] m IH]; simpl; [done|].
  destruct (String.eqb_spec k' k) as [->|Hne].
  - intros [= ->]. apply list_elem_of_here.
  - intros H. apply list_elem_of_further, IH, H.
Qed.

Lemma JSMap_get_NoDup k v m :
  NoDup (JSMap.keys m) → (k, v) ∈ m → JSMap.get k m = Some v.
Proof.
  unfold JSMap.keys.
  induction m as [|[k' v'] m IH]; simpl; intros Hnd Hin.
  - by apply elem_of_nil in Hin.
  - apply NoDup_cons in Hnd as [Hk' Hnd].
    apply elem_of_cons in Hin as [[= <- <-]|Hin].
    + by rewrite String.eqb_refl.
    + destruct (String.eqb_spec k' k) as [->|Hne]; [|by apply IH].
      exfalso. apply Hk'. by apply (list_elem_of_fmap_2 fst _ (k, v)).
Qed.

Lemma JSMap_keys_set k v m :
  JSMap.keys (JSMap.set k v m) =
    if decide (k ∈ JSMap.keys m) then JSMap.keys m else JSMap.keys m ++ [k].
Proof.
  unfold JSMap.keys.
  induction m as [|[k' v'] m IH].
  - rewrite decide_False; [done|]. apply not_elem_of_nil.
  - cbn [JSMap.set]. destruct (String.eqb_spec k' k) as [->|Hne].
    + rewrite decide_True; [done|]. apply list_elem_of_here.
    + rewrite fmap_cons, IH. destruct (decide (k ∈ m.*1)) as [Hin|Hni].
      * rewrite decide_True; [done|]. by apply list_elem_of_further.
      * rewrite decide_False; [done|].
        rewrite fmap_cons. intros [?|?]%elem_of_cons; [simpl in *; congruence|done].
Qed.

Lemma JSMap_set_NoDup k v m :
  NoDup (JSMap.keys m) → NoDup (JSMap.keys (JSMap.set k v m)).
Proof.
  intros Hnd. rewrite JSMap_keys_set. case_decide; [done|].
  apply NoDup_app. split_and!; [done| |apply NoDup_singleton].
  intros x Hx ->%list_elem_of_singleton. done.
Qed.

Lemma JSMap_elem_of_set k v m k' v' :
  (k', v') ∈ JSMap.set k v m → (k', v') = (k, v) ∨ ((k', v') ∈ m ∧ (k' ≠ k ∨ k ∈ JSMap.keys m)).
Proof.
  unfold JSMap.keys.
  induction m as [|[k1 v1] m IH]; simpl.
  - intros ->%list_elem_of_singleton. by left.
  - destruct (String.eqb_spec k1 k) as [->|Hne].
    + intros [[= -> ->]|Hin]%elem_of_cons; [by left|].
      right. split; [by apply list_elem_of_further|]. right. apply list_elem_of_here.
    + intros [[= -> ->]|Hin]%elem_of_cons.
      * right. split; [apply list_elem_of_here|by left].
      * destruct (IH Hin) as [?|[? [?|?]]]; [by left|right..].
        -- split; [by apply list_elem_of_further|by left].
        -- split; [by apply list_elem_of_further|]. right. by apply list_elem_of_further.
Qed.

Lemma JSMap_set_elem_of k v m : (k, v) ∈ JSMap.set k v m.
Proof.
  induction m as [|[k1 v1] m IH]; simpl.
  - apply list_elem_of_here.
  - destruct (String.eqb_spec k1 k) as [->|Hne].
    + apply list_elem_of_here.
    + by apply list_elem_of_further.
Qed.

(** With distinct keys, the entries after [set k v] are [(k, v)] and the
    entries under the other keys. *)
Lemma JSMap_elem_of_set_NoDup k v m k' v' :
  NoDup (JSMap.keys m) →
  (k', v') ∈ JSMap.set k v m → (k', v') = (k, v) ∨ ((k', v') ∈ m ∧ k' ≠ k).
Proof.
  intros Hnd Hin.
  destruct (decide (k' = k)) as [->|Hne].
  - left. f_equal.
    pose proof (JSMap_get_NoDup k v' _ (JSMap_set_NoDup k v m Hnd) Hin) as H1.
    pose proof (JSMap_get_NoDup k v _ (JSMap_set_NoDup k v m Hnd) (JSMap_set_elem_of k v m)) as H2.
    congruence.
  - destruct (JSMap_elem_of_set _ _ _ _ _ Hin) as [[= -> ->]|[? _]]; [done|by right].
Qed.

Lemma JSMap_delete_sublist k m : JSMap.delete k m `sublist_of` m.
Proof.
  induction m as [|[k1 v1] m IH]; simpl; [done|].
  destruct (String.eqb k1 k).
  - by apply sublist_cons.
  - by apply sublist_skip.
Qed.

Lemma JSMap_elem_of_delete k m k' v' :
  NoDup (JSMap.keys m) → (k', v') ∈ JSMap.delete k m → (k', v') ∈ m ∧ k' ≠ k.
Proof.
  unfold JSMap.keys.
  induction m as [|[k1 v1] m IH]; simpl; intros Hnd Hin.
  - by apply elem_of_nil in Hin.
  - apply NoDup_cons in Hnd as [Hk1 Hnd].
    destruct (String.eqb_spec k1 k) as [->|Hne].
    + split; [by apply list_elem_of_further|].
      intros ->. apply Hk1. by apply (list_elem_of_fmap_2 fst _ (k, v')).
    + apply elem_of_cons in Hin as [[= -> ->]|Hin].
      * split; [apply list_elem_of_here|done].
      * destruct (IH Hnd Hin). split; [by apply list_elem_of_further|done].
Qed.

(** [set] keeps a function of the values free of repetitions when the new
    value is new under it. *)
Lemma JSMap_set_NoDup_values {B} (f : V → B) k v m :
  NoDup (f ∘ snd <$> m) → f v ∉ (f ∘ snd <$> m) →
  NoDup (f ∘ snd <$> JSMap.set k v m).
Proof.
  induction m as [|[k1 v1] m IH]; simpl; intros Hnd Hni.
  - apply NoDup_singleton.
  - apply NoDup_cons in Hnd as [Hv1 Hnd].
    apply not_elem_of_cons in Hni as [Hne Hni].
    destruct (String.eqb k1 k); simpl.
    + apply NoDup_cons. done.
    + apply NoDup_cons. split; [|by apply IH].
      intros ([k2 v2] & Heq & Hin)%list_elem_of_fmap. simpl in Heq.
      destruct (JSMap_elem_of_set _ _ _ _ _ Hin) as [[= -> ->]|[Hin' _]]; [done|].
      apply Hv1. apply list_elem_of_fmap. by exists (k2, v2).
Qed.

Lemma JSMap_get_set k v m : JSMap.get k (JSMap.set k v m) = Some v.
Proof.
  induction m as [|[k1 v1] m IH]; cbn.
  - by rewrite String.eqb_refl.
  - destruct (String.eqb_spec k1 k) as [->|Hne]; cbn.
    + by rewrite String.eqb_refl.
    + by destruct (String.eqb_spec k1 k).
Qed.

End JSMapFacts.

(** ** Elementary updates *)

Section PoolFacts.
Context {Value : Type}.

#[local] Abbreviation Task := (Task Value).
#[local] Abbreviation Pool := (Pool Value).

Implicit Types (p : Pool) (task : Task) (ws : list WorkerObj) (es : list (Event Value)).

Lemma find_available_Some ws i :
  find_available ws = Some i ↔
  ∃ w, ws !! i = Some w ∧ available w = true ∧
       ∀ j y, ws !! j = Some y → j < i → available y = false.
Proof.
  unfold find_available. split.
  - destruct (list_find _ ws) as [[i' w]|] eqn:Hf; [|done].
    intros [= <-]. apply list_find_Some in Hf as (Hw & Hav & Hleast).
    exists w. split_and!; [done..|].
    intros j y Hy Hj. specialize (Hleast j y Hy Hj).
    by destruct (available y).
  - intros (w & Hw & Hav & Hleast).
    assert (list_find (λ w, available w = true) ws = Some (i, w)) as ->; [|done].
    apply list_find_Some. split_and!; [done..|].
    intros j y Hy Hj. rewrite (Hleast j y Hy Hj). done.
Qed.

Lemma find_available_None ws :
  find_available ws = None ↔ Forall (λ w, available w = false) ws.
Proof.
  unfold find_available. rewrite fmap_None, list_find_None.
  apply Forall_iff. intros w. by destruct (available w).
Qed.


Lemma processQueue_from_micro q p :
  taskQueue p = q → rtc micro p (processQueue_from q p).
Proof.
  revert p. induction q as [|task rest IH]; intros p Hq; simpl; [done|].
  destruct (find_available (workers p)) as [i|] eqn:Hf; [|done].
  eapply rtc_l; [by eapply micro_dequeue|]. by apply IH.
Qed.

Lemma processQueue_micro p : rtc micro p (processQueue p).
Proof. by apply processQueue_from_micro. Qed.

Lemma execute_micro payload now rnd p : micro p (execute payload now rnd p).2.
Proof.
  unfold execute. cbn [workers new_promise].
  destruct (find_available (workers p)) as [i|] eqn:Hf; cbn [snd].
  - by apply micro_submit_assign.
  - by apply micro_submit_enqueue.
Qed.

Lemma execute_fst payload now rnd p : (execute payload now rnd p).1 = promises p.
Proof. unfold execute. by destruct (find_available _). Qed.

Lemma execute_available payload now rnd p i :
  find_available (workers p) = Some i →
  (execute payload now rnd p).2 =
    assignTask i (mkTask (make_taskId now rnd) payload (promises p) None) (new_promise p).
Proof. intros Hf. unfold execute. cbn [workers new_promise]. by rewrite Hf. Qed.

Lemma execute_no_available payload now rnd p :
  find_available (workers p) = None →
  (execute payload now rnd p).2 =
    enqueue (mkTask (make_taskId now rnd) payload (promises p) None) (new_promise p).
Proof. intros Hf. unfold execute. cbn [workers new_promise]. by rewrite Hf. Qed.

Lemma execute_settled payload now rnd p :
  settled (execute payload now rnd p).2 = settled p.
Proof. unfold execute. by destruct (find_available _). Qed.

Lemma step_micro p e : rtc micro p (step p e).
Proof.
  destruct e as [payload now rnd|i result|i error|i code|]; cbn [step].
  - apply rtc_once, execute_micro.
  - unfold on_message. destruct (m_taskId result) as [k|]; [|done].
    destruct (JSMap.get k (activeWorkers p)) as [task|] eqn:Hg; [|done].
    eapply rtc_l; [by eapply micro_complete|]. apply processQueue_micro.
  - unfold on_error.
    destruct (list_find _ (activeWorkers p)) as [[j [k t]]|]; [|done].
    destruct (truthy_string k); [|done].
    destruct (JSMap.get k (activeWorkers p)) as [task|] eqn:Hg; [|done].
    eapply rtc_l; [by eapply micro_complete|]. apply processQueue_micro.
  - done.
  - apply rtc_once, micro_terminate.
Qed.

Lemma run_micro es p : rtc micro p (run es p).
Proof.
  revert p. induction es as [|e es IH]; intros p; [done|].
  etrans; [apply step_micro|]. apply IH.
Qed.

End PoolFacts.

(** ** The order of assignment *)

Section Line.
Context {Value : Type}.

#[local] Abbreviation Task := (Task Value).
#[local] Abbreviation Pool := (Pool Value).

Implicit Types (p : Pool) (task : Task) (es : list (Event Value)).


Lemma line_assignTask i task p :
  line (assignTask i task p) =
    (promise ∘ snd <$> assigned p) ++ promise task :: (promise <$> taskQueue p).
Proof.
  unfold line; cbn [assigned taskQueue assignTask].
  rewrite fmap_app, <-app_assoc. done.
Qed.

Lemma micro_line_sublist p p' : micro p p' → line p `sublist_of` line p'.
Proof.
  destruct 1 as [p payload now rnd i Hf|p payload now rnd Hf|p k task o Hg
                |p task rest i Hq Hf|p].
  - rewrite line_assignTask. unfold line; cbn.
    apply sublist_app; [done|]. by apply sublist_cons.
  - unfold line; cbn. rewrite fmap_app. apply sublist_app; [done|].
    by apply sublist_inserts_r.
  - done.
  - rewrite line_assignTask. unfold line; cbn. rewrite Hq. done.
  - done.
Qed.

Lemma micro_wf_line p p' : micro p p' → wf_line p → wf_line p'.
Proof.
  unfold wf_line.
  destruct 1 as [p payload now rnd i Hf|p payload now rnd Hf|p k task o Hg
                |p task rest i Hq Hf|p]; intros [Hnd Hlt].
  - rewrite line_assignTask. cbn [promise assigned taskQueue promises new_promise].
    unfold line in *. split.
    + apply NoDup_app in Hnd as (H1 & H2 & H3).
      apply NoDup_app. split_and!; [done| |].
      * intros x Hx [->|Hq]%elem_of_cons; [|by eapply H2].
        rewrite Forall_forall in Hlt.
        assert (promises p < promises p); [|lia].
        apply Hlt, elem_of_app. by left.
      * apply NoDup_cons. split; [|done]. intros Hq.
        rewrite Forall_forall in Hlt.
        assert (promises p < promises p); [|lia].
        apply Hlt, elem_of_app. by right.
    + apply Forall_app in Hlt as [H1 H2]. apply Forall_app. split.
      * eapply Forall_impl; [done|]. intros ??; cbn in *; lia.
      * apply Forall_cons. split; [cbn; lia|]. eapply Forall_impl; [done|]. intros ??; cbn in *; lia.
  - unfold line in *; cbn. rewrite fmap_app, app_assoc. cbn. split.
    + apply NoDup_app. split_and!; [done| |apply NoDup_singleton].
      intros x Hx ->%list_elem_of_singleton.
      rewrite Forall_forall in Hlt. specialize (Hlt _ Hx). lia.
    + apply Forall_app. split.
      * eapply Forall_impl; [done|]. intros ??; cbn in *; lia.
      * apply Forall_singleton. cbn; lia.
  - done.
  - rewrite line_assignTask. unfold line in *; cbn. rewrite Hq in *. done.
  - done.
Qed.

Lemma rtc_micro_line p p' :
  rtc micro p p' → line p `sublist_of` line p' ∧ (wf_line p → wf_line p').
Proof.
  induction 1 as [p|p p1 p2 Hm _ [IH1 IH2]]; [done|]. split.
  - etrans; [by apply micro_line_sublist|done].
  - intros Hwf. apply IH2. by eapply micro_wf_line.
Qed.

(** In a list without repetition, where [a] comes before [b] the index of
    [a] is the smaller one. *)
Lemma sublist_pair_index (l : list nat) a b j :
  NoDup l → [a; b] `sublist_of` l → l !! j = Some b →
  ∃ i, l !! i = Some a ∧ i < j.
Proof.
  intros Hnd Hsub Hj.
  apply sublist_cons_l in Hsub as (k1 & k2 & -> & Hb).
  exists (length k1). split; [by apply list_lookup_middle|].
  assert (b ∈ k2) as [j' Hj']%list_elem_of_lookup.
  { eapply elem_of_sublist; [|done]. apply list_elem_of_here. }
  assert ((k1 ++ a :: k2) !! (length k1 + S j') = Some b) as Hj2.
  { rewrite lookup_app_r by lia. by replace (length k1 + S j' - length k1) with (S j') by lia. }
  pose proof (NoDup_lookup _ _ _ _ Hnd Hj Hj2). lia.
Qed.

Lemma assigned_at_Some h p j :
  assigned_at h p = Some j → (promise ∘ snd <$> assigned p) !! j = Some h.
Proof.
  unfold assigned_at.
  destruct (list_find _ (assigned p)) as [[j' e]|] eqn:Hf; [|done].
  intros [= <-]. apply list_find_Some in Hf as (He & Hp & _).
  rewrite list_lookup_fmap, He. simpl. by rewrite Hp.
Qed.

Lemma assigned_at_lookup h p j :
  NoDup (promise ∘ snd <$> assigned p) →
  (promise ∘ snd <$> assigned p) !! j = Some h → assigned_at h p = Some j.
Proof.
  intros Hnd Hj. unfold assigned_at.
  rewrite list_lookup_fmap in Hj.
  destruct (assigned p !! j) as [e|] eqn:He; [|done]. injection Hj as Hp.
  assert (list_find (λ e : nat * Task, promise e.2 = h) (assigned p) = Some (j, e)) as ->; [|done].
  apply list_find_Some. split_and!; [done..|].
  intros j' e' He' Hlt Hp'.
  assert (j' = j); [|lia].
  eapply NoDup_lookup; [done| |].
  - rewrite list_lookup_fmap, He'. simpl. by rewrite Hp'.
  - rewrite list_lookup_fmap, He. simpl. by rewrite Hp.
Qed.

(** Where [a] stands before [b] in the line, [b] is not given to a worker
    before [a]. *)
Lemma line_order p a b :
  NoDup (line p) → [a; b] `sublist_of` line p →
  match assigned_at b p with
  | None => True
  | Some j => ∃ i, assigned_at a p = Some i ∧ i < j
  end.
Proof.
  intros Hnd Hsub.
  destruct (assigned_at b p) as [j|] eqn:Hb; [|done].
  apply assigned_at_Some in Hb.
  assert (line p !! j = Some b) as Hj by (by apply lookup_app_l_Some).
  destruct (sublist_pair_index _ _ _ _ Hnd Hsub Hj) as (i & Hi & Hlt).
  exists i. split; [|done].
  apply assigned_at_lookup.
  - unfold line in Hnd. by apply NoDup_app in Hnd as (? & _).
  - unfold line in Hi. rewrite lookup_app_l in Hi; [done|].
    apply lookup_lt_Some in Hb. lia.
Qed.

End Line.

(** ** What holds in every state a pool can be in *)

Section Invariant.
Context {Value : Type}.

#[local] Abbreviation Task := (Task Value).
#[local] Abbreviation Pool := (Pool Value).

Implicit Types (p : Pool) (task : Task) (ws : list WorkerObj) (es : list (Event Value)).


Lemma initializeWorkers_from_spec spawn i n ws :
  ∃ m, m ≤ n ∧ initializeWorkers_from spawn i n ws = ws ++ replicate m fresh_worker.
Proof.
  revert i ws. induction n as [|n IH]; intros i ws; simpl.
  - exists 0. by rewrite app_nil_r.
  - destruct (spawn i).
    + destruct (IH (S i) (ws ++ [fresh_worker])) as (m & Hm & ->).
      exists (S m). split; [lia|]. by rewrite <-app_assoc.
    + exists 0. split; [lia|]. by rewrite app_nil_r.
Qed.

Lemma new_WorkerPool_workers spawn size :
  ∃ m, m ≤ size ∧
    workers (new_WorkerPool (Value:=Value) spawn size) = replicate m fresh_worker.
Proof.
  destruct (initializeWorkers_from_spec spawn 0 size []) as (m & Hm & Heq).
  exists m. split; [done|]. cbn. by rewrite Heq.
Qed.

Lemma new_WorkerPool_inv spawn size :
  pool_inv (new_WorkerPool (Value:=Value) spawn size).
Proof.
  destruct (new_WorkerPool_workers spawn size) as (m & Hm & Hws).
  split; cbn [new_WorkerPool initializeWorkers taskQueue activeWorkers poolSize
              promises settled assigned].
  - rewrite Hws, length_replicate. done.
  - apply NoDup_nil_2.
  - intros k t []%elem_of_nil.
  - apply NoDup_nil_2.
  - split; [apply NoDup_nil_2|apply Forall_nil_2].
  - apply NoDup_nil_2.
  - intros h []%elem_of_nil.
  - apply NoDup_nil_2.
  - intros i t []%elem_of_nil.
  - done.
Qed.

Lemma NoDup_fmap_elem_of_inj {A B} (f : A → B) (l : list A) x y :
  NoDup (f <$> l) → x ∈ l → y ∈ l → f x = f y → x = y.
Proof.
  intros Hnd [i Hi]%list_elem_of_lookup [j Hj]%list_elem_of_lookup Heq.
  assert (i = j) as ->; [|congruence].
  eapply NoDup_lookup; [done|..]; rewrite list_lookup_fmap.
  - by rewrite Hi.
  - rewrite Hj. simpl. by rewrite Heq.
Qed.

Lemma find_available_fmap (g : WorkerObj → WorkerObj) ws :
  (∀ w, w_taskId (g w) = w_taskId w) →
  find_available (g <$> ws) = find_available ws.
Proof.
  intros Hg. unfold find_available. rewrite list_find_fmap.
  rewrite <-option_fmap_compose.
  erewrite (list_find_ext _ (λ w, available w = true)).
  - by destruct (list_find _ ws) as [[??]|].
  - intros w. unfold available. simpl. by rewrite Hg.
Qed.

Lemma available_truthy w k :
  w_taskId w = Some k → truthy_string k = true → available w = false.
Proof. unfold available. intros -> Hk. simpl. by rewrite Hk. Qed.

(** A promise in the line has been handed out, the next one has not. *)
Lemma wf_line_fresh p h : wf_line p → h ∈ line p → h ≠ promises p.
Proof.
  intros [_ Hlt] Hin. rewrite Forall_forall in Hlt. specialize (Hlt _ Hin). lia.
Qed.

Lemma assigned_in_line p h : h ∈ (promise ∘ snd <$> assigned p) → h ∈ line p.
Proof. intros. apply elem_of_app. by left. Qed.

Lemma micro_inv p p' : micro p p' → pool_inv p → pool_inv p'.
Proof.
  intros Hm Hinv. pose proof (micro_wf_line _ _ Hm (inv_line _ Hinv)) as Hline.
  destruct Hm as [p payload now rnd i Hf|p payload now rnd Hf|p k task o Hg
                 |p task rest i Hq Hf|p]; destruct Hinv.
  - (* a submission that finds worker [i] *)
    pose proof Hf as (wi & Hwi & Havi & _)%find_available_Some.
    assert (∀ h, h ∈ (promise ∘ snd <$> assigned p) → h ≠ promises p) as Hfresh.
    { intros h Hh. by apply wf_line_fresh, assigned_in_line. }
    split; cbn [assignTask new_promise workers taskQueue activeWorkers poolSize
                promises settled assigned taskId promise worker data].
    + by rewrite length_alter.
    + by apply JSMap_set_NoDup.
    + intros k t H.
      destruct (JSMap_elem_of_set_NoDup _ _ _ _ _ inv_keys0 H) as [[= -> ->]|[Hin Hne]].
      * cbn. split_and!; [done|done| | |].
        -- exists i, (mkWorker (Some (make_taskId now rnd)) (w_terminated wi)).
           split_and!; [done| |done]. by rewrite list_lookup_alter_eq, Hwi.
        -- intros Hs%inv_settled_assigned0. by eapply Hfresh.
        -- rewrite fmap_app. apply elem_of_app. right. apply list_elem_of_here.
      * destruct (inv_active0 _ _ Hin) as (Hk & Hid & (i0 & w0 & Hw & Hl & Hwk) & Hs & Ha).
        split_and!; [done|done| |done|].
        -- exists i0, w0. split_and!; [done| |done].
           rewrite list_lookup_alter_ne; [done|]. intros <-.
           pose proof (available_truthy _ _ Hwk Hk). congruence.
        -- rewrite fmap_app. apply elem_of_app. by left.
    + apply JSMap_set_NoDup_values; [done|]. cbn.
      intros ([k t] & Heq & Hin)%list_elem_of_fmap. cbn in Heq.
      destruct (inv_active0 _ _ Hin) as (_ & _ & _ & _ & Ha).
      eapply Hfresh; [done|]. done.
    + done.
    + done.
    + intros h Hh. rewrite fmap_app. apply elem_of_app. left. auto.
    + rewrite fmap_app. apply NoDup_app. split_and!; [done| |apply NoDup_singleton].
      intros x Hx ->%list_elem_of_singleton.
      apply list_elem_of_fmap in Hx as ([i0 t] & Heq & Hin). cbn in Heq. subst i0.
      destruct (inv_assigned_busy0 _ _ Hin) as (w & Hw & Hav). congruence.
    + intros i0 t [Hin|[= -> ->]%list_elem_of_singleton]%elem_of_app.
      * destruct (inv_assigned_busy0 _ _ Hin) as (w & Hw & Hav).
        exists w. split; [|done]. rewrite list_lookup_alter_ne; [done|].
        intros <-. congruence.
      * eexists. split; [by rewrite list_lookup_alter_eq, Hwi|]. done.
    + intros Hq. specialize (inv_stuck0 Hq). congruence.
  - (* a submission that finds no worker *)
    split; cbn [enqueue new_promise workers taskQueue activeWorkers poolSize
                promises settled assigned]; done.
  - (* the settlement of a task in flight *)
    pose proof (JSMap_get_elem_of _ _ _ Hg) as Hin.
    destruct (inv_active0 _ _ Hin) as (_ & _ & _ & Hs & Ha).
    split; cbn [delete_active settle workers taskQueue activeWorkers poolSize
                promises settled assigned]; [done| | | |done| | |done..].
    + apply (sublist_NoDup _ _ inv_keys0). unfold JSMap.keys.
      apply fmap_sublist, JSMap_delete_sublist.
    + intros k' t' H.
      destruct (JSMap_elem_of_delete _ _ _ _ inv_keys0 H) as [Hin' Hne].
      destruct (inv_active0 _ _ Hin') as (Hk & Hid & Hw & Hs' & Ha').
      split_and!; [done..| |done].
      rewrite fmap_app. intros [?|Heq%list_elem_of_singleton]%elem_of_app; [done|].
      cbn in Heq. apply Hne.
      assert ((k', t') = (k, task)) as [= -> ->]; [|done].
      eapply (NoDup_fmap_elem_of_inj (promise ∘ snd)); done.
    + apply (sublist_NoDup _ _ inv_active_promises0).
      apply fmap_sublist, JSMap_delete_sublist.
    + rewrite fmap_app. apply NoDup_app. split_and!; [done| |apply NoDup_singleton].
      intros x Hx ->%list_elem_of_singleton. done.
    + rewrite fmap_app. intros h [?|Hh]%elem_of_app; [auto|].
      apply list_elem_of_singleton in Hh as ->. done.
  - (* a round of [processQueue]: no worker is free while tasks wait *)
    rewrite inv_stuck0 in Hf; [done|]. by rewrite Hq.
  - (* [terminate] *)
    split; cbn [terminate workers taskQueue activeWorkers poolSize
                promises settled assigned]; [|done| |done..| |].
    + by rewrite length_fmap.
    + intros k t Hin.
      destruct (inv_active0 _ _ Hin) as (Hk & Hid & (i0 & w0 & Hw & Hl & Hwk) & Hs & Ha).
      split_and!; [done..| |done|done].
      eexists i0, _. split_and!; [done| |]; [by rewrite list_lookup_fmap, Hl|done].
    + intros i t Hin. destruct (inv_assigned_busy0 _ _ Hin) as (w & Hw & Hav).
      eexists. split; [by rewrite list_lookup_fmap, Hw|done].
    + intros Hq. rewrite find_available_fmap; auto.
Qed.

Lemma rtc_micro_inv p p' : rtc micro p p' → pool_inv p → pool_inv p'.
Proof. induction 1; eauto using micro_inv. Qed.

Lemma run_inv es p : pool_inv p → pool_inv (run es p).
Proof. apply rtc_micro_inv, run_micro. Qed.

Lemma reachable_inv spawn size es :
  pool_inv (run es (new_WorkerPool (Value:=Value) spawn size)).
Proof. apply run_inv, new_WorkerPool_inv. Qed.

Lemma reachable_wf_line spawn size es :
  wf_line (run es (new_WorkerPool (Value:=Value) spawn size)).
Proof. apply inv_line, reachable_inv. Qed.

Lemma micro_poolSize p p' : micro p p' → poolSize p' = poolSize p.
Proof. by destruct 1. Qed.

Lemma run_poolSize es p : poolSize (run es p) = poolSize p.
Proof.
  induction (run_micro es p) as [|p0 p1 p2 Hm _ IH]; [done|].
  rewrite IH. by apply micro_poolSize.
Qed.

End Invariant.

(** ** Workers that have a task, and promises *)

Section Progress.
Context {Value : Type}.

#[local] Abbreviation Task := (Task Value).
#[local] Abbreviation Pool := (Pool Value).

Implicit Types (p : Pool) (task : Task) (ws : list WorkerObj) (es : list (Event Value)).

(** No update gives a worker that is not available its availability back. *)
Lemma micro_unavailable p p' i w :
  micro p p' → workers p !! i = Some w → available w = false →
  ∃ w', workers p' !! i = Some w' ∧ w_taskId w' = w_taskId w.
Proof.
  destruct 1 as [p payload now rnd i0 Hf|p payload now rnd Hf|p k task o Hg
                |p task rest i0 Hq Hf|p]; intros Hw Hav; cbn.
  - apply find_available_Some in Hf as (w0 & Hw0 & Hav0 & _).
    exists w. split; [|done]. rewrite list_lookup_alter_ne; [done|].
    intros <-. congruence.
  - by exists w.
  - by exists w.
  - apply find_available_Some in Hf as (w0 & Hw0 & Hav0 & _).
    exists w. split; [|done]. rewrite list_lookup_alter_ne; [done|].
    intros <-. congruence.
  - eexists. split; [by rewrite list_lookup_fmap, Hw|done].
Qed.

Lemma rtc_micro_unavailable p p' i w :
  rtc micro p p' → workers p !! i = Some w → available w = false →
  ∃ w', workers p' !! i = Some w' ∧ w_taskId w' = w_taskId w.
Proof.
  intros Hrtc. revert w.
  induction Hrtc as [p|p p1 p2 Hm _ IH]; intros w Hw Hav; [by exists w|].
  destruct (micro_unavailable _ _ _ _ Hm Hw Hav) as (w1 & Hw1 & Hid1).
  destruct (IH w1 Hw1) as (w2 & Hw2 & Hid2).
  - unfold available in *. by rewrite Hid1.
  - exists w2. split; [done|congruence].
Qed.

(** Once no worker is available, none is given a task any more and the
    queue only grows. *)
Lemma micro_no_available p p' :
  micro p p' → find_available (workers p) = None →
  find_available (workers p') = None ∧ assigned p' = assigned p ∧
  taskQueue p `prefix_of` taskQueue p'.
Proof.
  destruct 1 as [p payload now rnd i0 Hf|p payload now rnd Hf|p k task o Hg
                |p task rest i0 Hq Hf|p]; intros Hnone;
    cbn [assignTask enqueue new_promise delete_active settle terminate
         set_taskQueue workers taskQueue assigned]; try congruence.
  - split_and!; [done..|]. by apply prefix_app_r.
  - done.
  - split_and!; [|done..]. rewrite find_available_fmap; done.
Qed.

Lemma rtc_micro_no_available p p' :
  rtc micro p p' → find_available (workers p) = None →
  find_available (workers p') = None ∧ assigned p' = assigned p ∧
  taskQueue p `prefix_of` taskQueue p'.
Proof.
  induction 1 as [p|p p1 p2 Hm _ IH]; intros Hnone; [done|].
  destruct (micro_no_available _ _ Hm Hnone) as (H1 & H2 & H3).
  destruct (IH H1) as (H4 & H5 & H6).
  split_and!; [done|congruence|by etrans].
Qed.

(** [processQueue] returns at once where no worker is free while tasks wait. *)
Lemma processQueue_stuck p :
  (taskQueue p ≠ [] → find_available (workers p) = None) → processQueue p = p.
Proof.
  unfold processQueue. destruct (taskQueue p) as [|task rest]; [done|].
  intros H. cbn. by rewrite H.
Qed.

Lemma promiseState_not_settled h p : h ∉ (settled p).*1 → promiseState h p = Pending.
Proof.
  intros Hni. unfold promiseState.
  destruct (list_find _ (settled p)) as [[j [h' o]]|] eqn:Hf; [|done].
  apply list_find_Some in Hf as (Hj & Hh & _). cbn in Hh. subst h'.
  exfalso. apply Hni. apply list_elem_of_fmap. exists (h, o). split; [done|].
  by eapply list_elem_of_lookup_2.
Qed.

Lemma promiseState_settle h o p :
  h ∉ (settled p).*1 →
  promiseState h (settle h o p) =
    match o with Resolved r => Fulfilled r | Rejected e => Failed e end.
Proof.
  intros Hni. unfold promiseState. cbn [settle settled].
  assert (list_find (λ e : nat * Settlement Value, e.1 = h) (settled p ++ [(h, o)])
          = Some (length (settled p), (h, o))) as ->; [|done].
  apply list_find_Some. split_and!.
  - by rewrite list_lookup_middle.
  - done.
  - intros j [h' o'] Hj Hlt ?. cbn in *. subst h'.
    apply Hni. apply list_elem_of_fmap. exists (h, o'). split; [done|].
    apply list_elem_of_lookup. exists j.
    rewrite lookup_app_l in Hj; [done|lia].
Qed.

Lemma settle_calls_NoDup h p : NoDup (settled p).*1 → settle_calls h p ≤ 1.
Proof.
  unfold settle_calls. induction (settled p) as [|[h' o] l IH]; [cbn; lia|].
  rewrite fmap_cons. intros [Hni Hnd]%NoDup_cons. cbn in Hni.
  rewrite filter_cons. case_decide as Hh; [|by apply IH].
  cbn in Hh. subst h'. cbn.
  destruct (filter (λ e : nat * Settlement Value, e.1 = h) l) as [|e l'] eqn:Hfl;
    [cbn; lia|].
  exfalso. apply Hni.
  assert (e ∈ filter (λ e : nat * Settlement Value, e.1 = h) l) as [He Hin]%list_elem_of_filter.
  { rewrite Hfl. apply list_elem_of_here. }
  apply list_elem_of_fmap. by exists e.
Qed.

End Progress.

(** * The claims of the specification *)

Section Claims.
Context {Value : Type}.

#[local] Abbreviation Task := (Task Value).
#[local] Abbreviation Pool := (Pool Value).

Implicit Types (p : Pool) (task : Task) (ws : list WorkerObj) (es : list (Event Value)).

(** C2. Bounded concurrency: in every state that a pool of size [size]
    reaches, whatever was submitted and whatever the workers reported, the
    entries of [activeWorkers] are at most as many as the workers that hold a
    task, these are at most as many as the workers, and the workers are at
    most [size]. *)
Theorem bounded_concurrency spawn size es :
  let p := run es (new_WorkerPool (Value:=Value) spawn size) in
  JSMap.size (activeWorkers p) ≤ busy_workers p ∧
  busy_workers p ≤ length (workers p) ∧
  length (workers p) ≤ size ∧
  st_activeWorkers (stats p) ≤ size.
Proof.
  intros p. pose proof (reachable_inv spawn size es) as Hinv. fold p in Hinv.
  assert (JSMap.size (activeWorkers p) ≤ busy_workers p) as H1.
  { destruct Hinv. unfold JSMap.size, busy_workers, JSMap.keys in *.
    rewrite <-(length_fmap fst (activeWorkers p)).
    rewrite <-(length_fmap Some (activeWorkers p).*1).
    rewrite <-(length_fmap w_taskId (filter _ (workers p))).
    apply submseteq_length, NoDup_submseteq.
    - by apply (NoDup_fmap_2 Some).
    - intros x (k & -> & ([k' t] & Hk & Hin)%list_elem_of_fmap)%list_elem_of_fmap.
      cbn in Hk. subst k'.
      destruct (inv_active0 _ _ Hin) as (Hk & _ & (i & w & _ & Hw & Hwk) & _).
      apply list_elem_of_fmap. exists w. split; [done|].
      apply list_elem_of_filter. split.
      + rewrite Hwk. done.
      + by eapply list_elem_of_lookup_2. }
  assert (busy_workers p ≤ length (workers p)) as H2 by apply length_filter.
  assert (length (workers p) ≤ size) as H3.
  { pose proof (inv_size _ Hinv) as H. unfold p in H at 2.
    rewrite run_poolSize in H. done. }
  split_and!; [done..|]. cbn. lia.
Qed.

(** [execute], branch by branch, on the test that the code makes. It
    always returns: it hands back a promise that was not there before and
    settles nothing. If some worker passes the test of [find], the task goes
    to the first such worker in the order of [this.workers] and the queue is
    left as it was; otherwise the task is added at the end of the queue and
    nothing else changes. *)
Lemma execute_assigns_or_enqueues payload now rnd p :
  let h := (execute payload now rnd p).1 in
  let p' := (execute payload now rnd p).2 in
  h = promises p ∧ promises p' = S (promises p) ∧ settled p' = settled p ∧
  match find_available (workers p) with
  | Some i =>
      let task := mkTask (make_taskId now rnd) payload h (Some i) in
      available <$> workers p !! i = Some true ∧
      Forall (λ w, available w = false) (take i (workers p)) ∧
      taskQueue p' = taskQueue p ∧
      assigned p' = assigned p ++ [(i, task)] ∧
      JSMap.get (make_taskId now rnd) (activeWorkers p') = Some task ∧
      w_taskId <$> workers p' !! i = Some (Some (make_taskId now rnd))
  | None =>
      let task := mkTask (make_taskId now rnd) payload h None in
      Forall (λ w, available w = false) (workers p) ∧
      taskQueue p' = taskQueue p ++ [task] ∧
      workers p' = workers p ∧
      activeWorkers p' = activeWorkers p ∧
      assigned p' = assigned p
  end.
Proof.
  cbn zeta. unfold execute. cbn [workers new_promise].
  destruct (find_available (workers p)) as [i|] eqn:Hf; cbn [fst snd].
  - apply find_available_Some in Hf as (w & Hw & Hav & Hleast).
    split_and!; try done.
    + by rewrite Hw; cbn; rewrite Hav.
    + apply Forall_lookup. intros j y Hy.
      apply lookup_take_Some in Hy as [Hy Hlt]. eauto.
    + cbn. apply JSMap_get_set.
    + cbn. by rewrite list_lookup_alter_eq, Hw.
  - apply find_available_None in Hf. done.
Qed.

(** C10. A worker serves one task in the life of the pool. In every state
    a pool reaches no worker occurs twice among the calls of [assignTask],
    and every worker that was given a task fails the test of [find]. No
    handler clears [worker.taskId]: a worker that fails the test keeps its
    [taskId] and fails the test after any further events. And from a state in
    which no worker passes the test, a task submitted at any later time is
    put in the queue and is still there after any further events, while the
    calls of [assignTask] stay what they were. *)
Theorem worker_serves_one_task :
  (∀ spawn size es,
     let p := run es (new_WorkerPool (Value:=Value) spawn size) in
     NoDup (assigned p).*1 ∧
     Forall (λ e, available <$> workers p !! e.1 = Some false) (assigned p)) ∧
  (∀ p es i w,
     workers p !! i = Some w → available w = false →
     ∃ w', workers (run es p) !! i = Some w' ∧
           w_taskId w' = w_taskId w ∧ available w' = false) ∧
  (∀ p es1 payload now rnd es2,
     find_available (workers p) = None →
     let p1 := run es1 p in
     let p2 := run es2 (execute payload now rnd p1).2 in
     mkTask (make_taskId now rnd) payload (promises p1) None ∈ taskQueue p2 ∧
     assigned p2 = assigned p ∧
     find_available (workers p2) = None).
Proof.
  split_and!.
  - intros spawn size es p.
    pose proof (reachable_inv spawn size es) as Hinv. fold p in Hinv.
    split; [apply Hinv|].
    apply Forall_forall. intros [i t] Hin.
    destruct (inv_assigned_busy _ Hinv _ _ Hin) as (w & Hw & Hav).
    cbn. by rewrite Hw; cbn; rewrite Hav.
  - intros p es i w Hw Hav.
    destruct (rtc_micro_unavailable _ _ _ _ (run_micro es p) Hw Hav) as (w' & Hw' & Hid).
    exists w'. split_and!; [done..|]. unfold available in *. by rewrite Hid.
  - intros p es1 payload now rnd es2 Hnone p1 p2.
    destruct (rtc_micro_no_available _ _ (run_micro es1 p) Hnone) as (H1 & H2 & _).
    fold p1 in H1, H2.
    pose proof (execute_no_available payload now rnd p1 H1) as Hex.
    destruct (rtc_micro_no_available _ _
                (run_micro es2 (execute payload now rnd p1).2)) as (H3 & H4 & H5).
    { by rewrite Hex. }
    fold p2 in H3, H4, H5. rewrite Hex in H4, H5. cbn in H4, H5.
    split_and!; [|congruence|done].
    eapply elem_of_prefix; [|done].
    apply elem_of_app. right. apply list_elem_of_here.
Qed.

(** C9. First in, first out among the tasks that wait together: in a state
    whose line holds distinct promises that were handed out, let task [A]
    stand in the queue before task [B]. After any events, if [B] has been
    given to a worker then [A] was given to a worker by an earlier call of
    [assignTask]. *)
Theorem fifo_among_queued p es A B q1 q2 q3 :
  wf_line p →
  taskQueue p = q1 ++ A :: q2 ++ B :: q3 →
  match assigned_at (promise B) (run es p) with
  | None => True
  | Some j => ∃ i, assigned_at (promise A) (run es p) = Some i ∧ i < j
  end.
Proof.
  intros Hwf Hq.
  destruct (rtc_micro_line _ _ (run_micro es p)) as [Hsub Hwf'].
  apply line_order; [apply Hwf', Hwf|].
  etrans; [|exact Hsub]. unfold line. rewrite Hq.
  apply sublist_inserts_l. rewrite fmap_app, fmap_cons, fmap_app, fmap_cons.
  apply sublist_inserts_l, sublist_skip, sublist_inserts_l, sublist_skip.
  apply sublist_nil_l.
Qed.

(** [terminate] only marks the workers: it can be moved past every other
    transition. *)
Lemma assignTask_terminate i task p :
  assignTask i task (terminate p) = terminate (assignTask i task p).
Proof.
  unfold assignTask, terminate; cbn. f_equal.
  symmetry.
  apply (list_fmap_alter
              (λ w, {| w_taskId := w_taskId w; w_terminated := true |})
              (λ w, {| w_taskId := Some (taskId task); w_terminated := w_terminated w |})
              (λ w, {| w_taskId := Some (taskId task); w_terminated := w_terminated w |})).
  by apply Forall_true.
Qed.

Lemma find_available_terminate p :
  find_available (workers (terminate p)) = find_available (workers p).
Proof. by apply find_available_fmap. Qed.

Lemma processQueue_from_terminate q p :
  processQueue_from q (terminate p) = terminate (processQueue_from q p).
Proof.
  revert p. induction q as [|task rest IH]; intros p; [done|].
  cbn [processQueue_from]. rewrite find_available_terminate.
  destruct (find_available (workers p)) as [i|]; [|done].
  rewrite <-IH. f_equal. apply (assignTask_terminate _ _ (set_taskQueue rest p)).
Qed.

Lemma step_terminate p e : step (terminate p) e = terminate (step p e).
Proof.
  destruct e as [payload now rnd|i result|i error|i code|]; cbn [step].
  - unfold execute. cbn [workers new_promise].
    change (workers (terminate p)) with (workers (terminate (new_promise p))).
    rewrite find_available_terminate. cbn [workers new_promise].
    destruct (find_available (workers p)) as [i|]; cbn [snd]; [|done].
    apply (assignTask_terminate _ _ (new_promise p)).
  - unfold on_message. destruct (m_taskId result) as [k|]; [|done].
    cbn [activeWorkers terminate].
    destruct (JSMap.get k (activeWorkers p)) as [task|]; [|done].
    apply (processQueue_from_terminate _ (delete_active k (settle _ _ p))).
  - unfold on_error. cbn [activeWorkers terminate].
    destruct (list_find _ (activeWorkers p)) as [[j [k t]]|]; [|done].
    destruct (truthy_string k); [|done].
    destruct (JSMap.get k (activeWorkers p)) as [task|]; [|done].
    apply (processQueue_from_terminate _ (delete_active k (settle _ _ p))).
  - done.
  - done.
Qed.

Lemma run_terminate es p : run es (terminate p) = terminate (run es p).
Proof.
  revert p. induction es as [|e es IH]; intros p; [done|].
  cbn. rewrite step_terminate. apply IH.
Qed.

Lemma reachable_not_settled spawn size es h :
  let p := run es (new_WorkerPool (Value:=Value) spawn size) in
  h ∈ (settled p).*1 → h ∈ (promise ∘ snd <$> assigned p) ∧ h < promises p.
Proof.
  intros p Hin. pose proof (reachable_inv spawn size es) as Hinv. fold p in Hinv.
  pose proof (inv_settled_assigned _ Hinv _ Hin) as Ha. split; [done|].
  destruct (inv_line _ Hinv) as [_ Hlt]. rewrite Forall_forall in Hlt.
  by apply Hlt, assigned_in_line.
Qed.

(** C5, as the code has it. In every state a pool reaches, [resolve] or
    [reject] has been called at most once for each promise. A message of a
    worker that names a task in flight fulfils the promise of that task; an
    error of a worker rejects the promise of the task in flight on that
    worker. The exit of a worker and [terminate] settle nothing. *)
Theorem handle_settled_at_most_once spawn size es :
  let p := run es (new_WorkerPool (Value:=Value) spawn size) in
  (∀ h, settle_calls h p ≤ 1) ∧
  (∀ i result k t,
     m_taskId result = Some k → JSMap.get k (activeWorkers p) = Some t →
     promiseState (promise t) p = Pending ∧
     promiseState (promise t) (step p (OnMessage i result)) = Fulfilled (m_body result)) ∧
  (∀ i error k t,
     (k, t) ∈ activeWorkers p → worker t = Some i →
     promiseState (promise t) p = Pending ∧
     promiseState (promise t) (step p (OnError i error)) = Failed error) ∧
  (∀ i code, settled (step p (OnExit i code)) = settled p) ∧
  settled (step p Terminate) = settled p.
Proof.
  intros p. pose proof (reachable_inv spawn size es) as Hinv. fold p in Hinv.
  split_and!; [| | |done..].
  - intros h. apply settle_calls_NoDup, Hinv.
  - intros i result k t Hk Hg. cbn [step]. unfold on_message. rewrite Hk, Hg.
    pose proof (JSMap_get_elem_of _ _ _ Hg) as Hin.
    destruct (inv_active _ Hinv _ _ Hin) as (_ & _ & _ & Hs & _).
    split; [by apply promiseState_not_settled|].
    rewrite processQueue_stuck by apply Hinv.
    by apply (promiseState_settle _ (Resolved (m_body result))).
  - intros i error k t Hin Hw. cbn [step]. unfold on_error.
    destruct (inv_active _ Hinv _ _ Hin) as (Hk & _ & (i0 & w0 & Hw0 & Hl & Hwk) & Hs & _).
    split; [by apply promiseState_not_settled|].
    destruct (list_find _ (activeWorkers p)) as [[j [k' t']]|] eqn:Hf.
    + apply list_find_Some in Hf as (Hj & Hw' & _). cbn in Hw'.
      apply list_elem_of_lookup_2 in Hj.
      destruct (inv_active _ Hinv _ _ Hj) as (_ & _ & (i1 & w1 & Hw1 & Hl1 & Hwk1) & _).
      assert (k' = k) as -> by congruence.
      rewrite Hk, (JSMap_get_NoDup k t _ (inv_keys _ Hinv) Hin).
      rewrite processQueue_stuck by apply Hinv.
      by apply (promiseState_settle _ (Rejected error)).
    + apply list_find_None in Hf. rewrite Forall_forall in Hf.
      by destruct (Hf _ Hin).
Qed.

(** C6, as the code has it. [terminate] takes no time limit and calls
    [terminate] on every worker. It leaves the queue, the tasks in flight
    and every promise as they are: in every state a pool reaches, the tasks
    that wait when it is called still wait afterwards, and their promises are
    pending. *)
Theorem terminate_settles_nothing spawn size es :
  let p := run es (new_WorkerPool (Value:=Value) spawn size) in
  let p' := terminate p in
  Forall (λ w, w_terminated w = true) (workers p') ∧
  length (workers p') = length (workers p) ∧
  taskQueue p' = taskQueue p ∧
  Forall (λ t, promiseState (promise t) p' = Pending) (taskQueue p') ∧
  activeWorkers p' = activeWorkers p ∧
  settled p' = settled p.
Proof.
  intros p p'. pose proof (reachable_inv spawn size es) as Hinv. fold p in Hinv.
  split_and!; [| |done| |done..].
  - apply Forall_fmap, Forall_true. done.
  - apply length_fmap.
  - apply Forall_forall. intros t Hin. apply promiseState_not_settled.
    cbn [settled terminate p']. intros Hs%(inv_settled_assigned _ Hinv).
    destruct (inv_line _ Hinv) as [Hnd _]. unfold line in Hnd.
    apply NoDup_app in Hnd as (_ & Hdisj & _).
    apply (Hdisj _ Hs). by apply list_elem_of_fmap_2.
Qed.

(** C7, as the code has it. The pool has no lifecycle flag. A call of
    [execute] at any time after [terminate] returns the promise, and leaves
    the pool, that it would without the call of [terminate], but for the
    mark on the workers: the task is given to a worker or put in the queue,
    and no promise is settled. *)
Theorem execute_ignores_terminate payload now rnd es p :
  let r := execute payload now rnd (run es p) in
  let r' := execute payload now rnd (run es (terminate p)) in
  r'.1 = r.1 ∧ r'.2 = terminate r.2 ∧ settled r'.2 = settled (run es p).
Proof.
  cbn zeta. rewrite run_terminate.
  pose proof (step_terminate (run es p) (Execute payload now rnd)) as H.
  cbn [step] in H. rewrite H. split_and!; [|done|].
  - by rewrite !execute_fst.
  - cbn [settled terminate]. apply execute_settled.
Qed.

(** C8, as the code has it. The handler of a worker's exit writes to the
    console: the pool is what it was. In every state a pool reaches, a task
    in flight on the worker that exits is still in flight afterwards and its
    promise is pending; a later call of [execute] returns a new promise, which
    is pending. *)
Theorem exit_leaves_task_in_flight spawn size es i code k t :
  let p := run es (new_WorkerPool (Value:=Value) spawn size) in
  (k, t) ∈ activeWorkers p → worker t = Some i →
  let p' := step p (OnExit i code) in
  p' = p ∧
  JSMap.get k (activeWorkers p') = Some t ∧
  promiseState (promise t) p' = Pending ∧
  ∀ payload now rnd,
    (execute payload now rnd p').1 = promises p' ∧
    promiseState (promises p') (execute payload now rnd p').2 = Pending.
Proof.
  intros p Hin Hw p'. change p' with p. clear p'.
  pose proof (reachable_inv spawn size es) as Hinv. fold p in Hinv.
  destruct (inv_active _ Hinv _ _ Hin) as (_ & _ & _ & Hs & _).
  split_and!; [done| | |].
  - by apply JSMap_get_NoDup; [apply Hinv|].
  - by apply promiseState_not_settled.
  - intros payload now rnd.
    split; [apply execute_fst|]. apply promiseState_not_settled.
    rewrite execute_settled.
    intros Hs'. apply (reachable_not_settled spawn size es) in Hs' as [_ Hlt].
    fold p in Hlt. lia.
Qed.

End Claims.

(** * The claims on concrete pools *)

Section Scenarios.
#[local] Open Scope string_scope.
#[local] Open Scope list_scope.


(** C1. A pool of one worker with two submissions: the second task waits.
    The worker's message for the first task fulfils its promise, but the
    worker still fails the test of [find]: [processQueue] takes nothing from
    the queue, and the second task has not been given to a worker. The same
    holds when the worker reports an error. *)
Theorem completion_assigns_no_queued_task :
  let p := run [submit "1"; submit "2"] (new_WorkerPool all_spawn 1) in
  let p1 := step p (OnMessage 0 (done_message "1")) in
  let p2 := step p (OnError 0 "boom") in
  promise <$> taskQueue p = [1] ∧
  promiseState 0 p1 = Fulfilled "result 1" ∧
  activeWorkers p1 = [] ∧
  idle_workers p1 = 0 ∧
  promise <$> taskQueue p1 = [1] ∧
  assigned_at 1 p1 = None ∧
  promiseState 0 p2 = Failed "boom" ∧
  idle_workers p2 = 0 ∧
  promise <$> taskQueue p2 = [1] ∧
  assigned_at 1 p2 = None.
Proof. vm_compute. done. Qed.

(** C3. A pool of one worker whose only task has been settled, by an
    error of the worker or by its message: no task is in flight and nothing
    waits, so the worker runs nothing. It still fails the test of [find],
    because [worker.taskId] names the settled task. The next [execute],
    whatever its payload, returns a new promise at once, but the task is not
    given to the worker: it is put at the end of the queue, no task is in
    flight, and the promise is pending. On the new pool the same call gives
    the task to worker 0 and leaves the queue empty. *)
Theorem execute_enqueues_while_worker_runs_nothing payload now rnd :
  let p0 := new_WorkerPool all_spawn 1 in
  let pe := run [submit "1"; OnError 0 "boom"] p0 in
  let pm := run [submit "1"; OnMessage 0 (done_message "1")] p0 in
  let task w := mkTask (make_taskId now rnd) payload 1 w in
  (execute payload now rnd p0).1 = 0 ∧
  taskQueue (execute payload now rnd p0).2 = [] ∧
  assigned_at 0 (execute payload now rnd p0).2 = Some 0 ∧
  activeWorkers pe = [] ∧ taskQueue pe = [] ∧
  promiseState 0 pe = Failed "boom" ∧
  idle_workers pe = 0 ∧
  (execute payload now rnd pe).1 = 1 ∧
  taskQueue (execute payload now rnd pe).2 = [task None] ∧
  activeWorkers (execute payload now rnd pe).2 = [] ∧
  assigned_at 1 (execute payload now rnd pe).2 = None ∧
  promiseState 1 (execute payload now rnd pe).2 = Pending ∧
  activeWorkers pm = [] ∧ taskQueue pm = [] ∧
  promiseState 0 pm = Fulfilled "result 1" ∧
  idle_workers pm = 0 ∧
  (execute payload now rnd pm).1 = 1 ∧
  taskQueue (execute payload now rnd pm).2 = [task None] ∧
  activeWorkers (execute payload now rnd pm).2 = [] ∧
  assigned_at 1 (execute payload now rnd pm).2 = None ∧
  promiseState 1 (execute payload now rnd pm).2 = Pending.
Proof. cbn zeta. split_and!; reflexivity. Qed.

(** C4. A pool of two workers and four submissions at once: the first two
    tasks go to the workers, the other two wait, and the route reports two
    active tasks, two queued, with no worker passing the test of [find]. When
    the first task settles, by a message or by an error of its worker, the
    third is not given to a worker: the route reports one active task and two
    queued. *)
Theorem burst_of_four_on_two_workers :
  let p := run [submit "1"; submit "2"; submit "3"; submit "4"]
             (new_WorkerPool all_spawn 2) in
  let p' := step p (OnMessage 0 (done_message "1")) in
  let p'' := step p (OnError 0 "boom") in
  assigned_at 0 p = Some 0 ∧ assigned_at 1 p = Some 1 ∧
  promise <$> taskQueue p = [2; 3] ∧
  stats p = {| st_poolSize := 2; st_activeWorkers := 2;
               st_queuedTasks := 2; st_totalWorkers := 2 |} ∧
  idle_workers p = 0 ∧
  promiseState 0 p' = Fulfilled "result 1" ∧
  assigned_at 2 p' = None ∧
  promise <$> taskQueue p' = [2; 3] ∧
  stats p' = {| st_poolSize := 2; st_activeWorkers := 1;
                st_queuedTasks := 2; st_totalWorkers := 2 |} ∧
  idle_workers p' = 0 ∧
  promiseState 0 p'' = Failed "boom" ∧
  assigned_at 2 p'' = None ∧
  stats p'' = stats p'.
Proof. vm_compute. done. Qed.

(** C5 fails as stated: after the exit of the worker that runs a task, and
    after [terminate], the promises of the tasks are pending and neither
    [resolve] nor [reject] has been called. *)
Lemma exit_and_terminate_settle_no_handle :
  let p := run [submit "1"; OnExit 0 1] (new_WorkerPool all_spawn 1) in
  let q := run [submit "1"; submit "2"; Terminate] (new_WorkerPool all_spawn 1) in
  (worker <$> JSMap.get (id_of "1") (activeWorkers p) = Some (Some 0) ∧
   promiseState 0 p = Pending ∧ settle_calls 0 p = 0) ∧
  (promiseState 0 q = Pending ∧ promiseState 1 q = Pending ∧ settled q = []).
Proof. vm_compute. done. Qed.

(** C6 fails as stated: a task that waits when [terminate] is called is not
    rejected; it stays in the queue with its promise pending. *)
Lemma terminate_leaves_queued_task_pending :
  let p := run [submit "1"; submit "2"] (new_WorkerPool all_spawn 1) in
  let p' := step p Terminate in
  promise <$> taskQueue p = [1] ∧
  promise <$> taskQueue p' = [1] ∧
  promiseState 1 p' = Pending ∧
  settle_calls 1 p' = 0 ∧
  w_terminated <$> workers p' = [true].
Proof. vm_compute. done. Qed.

(** C7 fails as stated: after [terminate], [execute] gives the task to the
    worker, or puts it in the queue when the worker has a task, and the
    promise it returns is pending. *)
Lemma execute_after_terminate_is_accepted :
  let p := run [Terminate] (new_WorkerPool all_spawn 1) in
  let r := execute "job 1" "1700000000000" "1" p in
  let r' := execute "job 2" "1700000000000" "2" r.2 in
  (r.1 = 0 ∧ promiseState 0 r.2 = Pending ∧ assigned_at 0 r.2 = Some 0 ∧
   workers r.2 = [{| w_taskId := Some (id_of "1"); w_terminated := true |}]) ∧
  (r'.1 = 1 ∧ promiseState 1 r'.2 = Pending ∧ promise <$> taskQueue r'.2 = [1] ∧
   settled r'.2 = []).
Proof. vm_compute. done. Qed.

(** C8 fails as stated: after the exit of the worker that runs a task, the
    promise of the task is pending and the task is still in [activeWorkers]. *)
Lemma exit_settles_no_handle :
  let p := run [submit "1"] (new_WorkerPool all_spawn 1) in
  let p' := step p (OnExit 0 1) in
  worker <$> JSMap.get (id_of "1") (activeWorkers p) = Some (Some 0) ∧
  promiseState 0 p' = Pending ∧
  settle_calls 0 p' = 0 ∧
  promise <$> JSMap.get (id_of "1") (activeWorkers p') = Some 0.
Proof. vm_compute. done. Qed.

(** The amended C5 on a pool of one worker that runs the first of two
    tasks: the worker's message fulfils the promise of that task, the worker's
    error rejects it. *)
Lemma handle_settled_at_most_once_witness :
  let p := run [submit "1"; submit "2"] (new_WorkerPool all_spawn 1) in
  let t := mkTask (id_of "1") "job 1" 0 (Some 0) in
  (m_taskId (done_message "1") = Some (id_of "1") ∧
   JSMap.get (id_of "1") (activeWorkers p) = Some t ∧
   (id_of "1", t) ∈ activeWorkers p ∧
   worker t = Some 0) ∧
  (promiseState (promise t) p = Pending ∧
   promiseState (promise t) (step p (OnMessage 0 (done_message "1")))
     = Fulfilled (m_body (done_message "1"))) ∧
  (promiseState (promise t) p = Pending ∧
   promiseState (promise t) (step p (OnError 0 "boom")) = Failed "boom").
Proof.
  intros p t.
  assert (m_taskId (done_message "1") = Some (id_of "1")) as Hk by reflexivity.
  assert (JSMap.get (id_of "1") (activeWorkers p) = Some t) as Hg by reflexivity.
  assert ((id_of "1", t) ∈ activeWorkers p) as Hin by apply list_elem_of_here.
  assert (worker t = Some 0) as Hw by reflexivity.
  destruct (handle_settled_at_most_once all_spawn 1 [submit "1"; submit "2"])
    as (_ & Hmsg & Herr & _).
  split; [done|split].
  - exact (Hmsg 0 (done_message "1") (id_of "1") t Hk Hg).
  - exact (Herr 0 "boom" (id_of "1") t Hin Hw).
Defined.

(** The amended C8 on a pool of one worker that runs a task when it exits. *)
Lemma exit_leaves_task_in_flight_witness :
  let p := run [submit "1"] (new_WorkerPool all_spawn 1) in
  let t := mkTask (id_of "1") "job 1" 0 (Some 0) in
  let p' := step p (OnExit 0 1) in
  ((id_of "1", t) ∈ activeWorkers p ∧ worker t = Some 0) ∧
  (p' = p ∧
   JSMap.get (id_of "1") (activeWorkers p') = Some t ∧
   promiseState (promise t) p' = Pending ∧
   ∀ payload now rnd,
     (execute payload now rnd p').1 = promises p' ∧
     promiseState (promises p') (execute payload now rnd p').2 = Pending).
Proof.
  intros p t p'.
  assert ((id_of "1", t) ∈ activeWorkers p) as Hin by apply list_elem_of_here.
  assert (worker t = Some 0) as Hw by reflexivity.
  split; [done|].
  exact (exit_leaves_task_in_flight all_spawn 1 [submit "1"] 0 1 (id_of "1") t Hin Hw).
Defined.


(** There the worker's message starts [processQueue], which gives the two
    tasks to the two workers in the order of the queue. *)
Example waiting_pool_dequeues_in_order :
  let p' := run [OnMessage 0 (done_message "1")] waiting_pool in
  assigned_at 1 p' = Some 1 ∧ assigned_at 2 p' = Some 2 ∧ taskQueue p' = [] ∧
  (λ e, (e.1, promise e.2)) <$> assigned p' = [(0, 0); (1, 1); (2, 2)].
Proof. vm_compute. done. Qed.

(** C9 on that pool. *)
Lemma fifo_among_queued_witness :
  let A := mkTask (id_of "2") "job 2" 1 None in
  let B := mkTask (id_of "3") "job 3" 2 None in
  let p' := run [OnMessage 0 (done_message "1")] waiting_pool in
  (wf_line waiting_pool ∧ taskQueue waiting_pool = [] ++ A :: [] ++ B :: []) ∧
  match assigned_at (promise B) p' with
  | None => True
  | Some j => ∃ i, assigned_at (promise A) p' = Some i ∧ i < j
  end.
Proof.
  intros A B p'.
  assert (wf_line waiting_pool) as Hwf.
  { split.
    - apply (bool_decide_unpack _). vm_compute. exact I.
    - apply (bool_decide_unpack _). vm_compute. exact I. }
  assert (taskQueue waiting_pool = [] ++ A :: [] ++ B :: []) as Hq by reflexivity.
  split; [done|].
  exact (fifo_among_queued waiting_pool [OnMessage 0 (done_message "1")] A B [] [] [] Hwf Hq).
Defined.

(** C10 on a pool of one worker after one submission: the worker keeps its
    task's id when its message arrives, and the next task stays in the queue. *)
Lemma worker_serves_one_task_witness :
  let p := run [submit "1"] (new_WorkerPool all_spawn 1) in
  let w := {| w_taskId := Some (id_of "1"); w_terminated := false |} in
  let es := [OnMessage 0 (done_message "1"); submit "2"] in
  let p2 := run [OnError 0 "late"] (execute "job 3" "1700000000001" "3" (run es p)).2 in
  (workers p !! 0 = Some w ∧ available w = false ∧ find_available (workers p) = None) ∧
  (∃ w', workers (run es p) !! 0 = Some w' ∧
         w_taskId w' = w_taskId w ∧ available w' = false) ∧
  (mkTask (make_taskId "1700000000001" "3") "job 3" (promises (run es p)) None
     ∈ taskQueue p2 ∧
   assigned p2 = assigned p ∧
   find_available (workers p2) = None).
Proof.
  intros p w es p2.
  assert (workers p !! 0 = Some w) as Hw by reflexivity.
  assert (available w = false) as Hav by reflexivity.
  assert (find_available (workers p) = None) as Hnone by reflexivity.
  destruct (@worker_serves_one_task string) as (_ & Hkeep & Hstay).
  split; [done|split].
  - exact (Hkeep p es 0 w Hw Hav).
  - exact (Hstay p es "job 3" "1700000000001" "3" [OnError 0 "late"] Hnone).
Defined.

End Scenarios.

(** * More on the pool *)

Section PoolExtras.
Context {Value : Type}.

#[local] Abbreviation Task := (Task Value).
#[local] Abbreviation Pool := (Pool Value).

Implicit Types (p : Pool) (task : Task) (ws : list WorkerObj) (es : list (Event Value)).

Lemma micro_workers_length p p' : micro p p' → length (workers p') = length (workers p).
Proof.
  destruct 1; cbn [assignTask enqueue new_promise delete_active settle terminate
                   set_taskQueue workers]; rewrite ?length_alter, ?length_fmap; done.
Qed.

Lemma run_workers_length es p : length (workers (run es p)) = length (workers p).
Proof.
  induction (run_micro es p) as [|p0 p1 p2 Hm _ IH]; [done|].
  rewrite IH. by apply micro_workers_length.
Qed.

(** X1. No call and no event of a worker adds, removes or replaces a
    worker: after any events the pool has the workers it had, and the route
    reports the same [poolSize] and [totalWorkers]. *)
Theorem pool_is_never_resized es p :
  length (workers (run es p)) = length (workers p) ∧
  poolSize (run es p) = poolSize p ∧
  st_totalWorkers (stats (run es p)) = st_totalWorkers (stats p) ∧
  st_poolSize (stats (run es p)) = st_poolSize (stats p).
Proof.
  cbn [stats st_totalWorkers st_poolSize].
  rewrite run_workers_length, run_poolSize. done.
Qed.

Lemma initializeWorkers_from_first_failure spawn k : ∀ i ws m,
  m ≤ k → (∀ j, j < m → spawn (i + j) = true) → (m < k → spawn (i + m) = false) →
  initializeWorkers_from spawn i k ws = ws ++ replicate m fresh_worker.
Proof.
  induction k as [|k IH]; intros i ws m Hm Hok Hfail; cbn [initializeWorkers_from].
  - assert (m = 0) as -> by lia. by rewrite app_nil_r.
  - destruct m as [|m].
    + rewrite Nat.add_0_r in Hfail. rewrite Hfail by lia. by rewrite app_nil_r.
    + pose proof (Hok 0 ltac:(lia)) as H0. rewrite Nat.add_0_r in H0. rewrite H0.
      rewrite (IH (S i) _ m).
      * by rewrite <-app_assoc.
      * lia.
      * intros j Hj. replace (S i + j) with (i + S j) by lia. apply Hok. lia.
      * intros Hlt. replace (S i + m) with (i + S m) by lia. apply Hfail. lia.
Qed.

(** X2. The constructor makes workers until [new Worker] first throws:
    when the first [n] workers start and, if [n] is less than the size asked
    for, the next one does not, the pool has exactly [n] workers, all without
    a task, while [poolSize] is the size asked for. *)
Theorem constructor_stops_at_first_failure spawn size n :
  n ≤ size → (∀ j, j < n → spawn j = true) → (n < size → spawn n = false) →
  let p := new_WorkerPool (Value:=Value) spawn size in
  workers p = replicate n fresh_worker ∧
  poolSize p = size ∧
  st_totalWorkers (stats p) = n ∧
  idle_workers p = n.
Proof.
  intros Hn Hok Hfail p.
  assert (workers p = replicate n fresh_worker) as Hws.
  { unfold p. cbn. by rewrite (initializeWorkers_from_first_failure spawn size 0 [] n). }
  split_and!; [done|done| |].
  - cbn [stats st_totalWorkers]. by rewrite Hws, length_replicate.
  - unfold idle_workers. rewrite Hws.
    clear. induction n as [|n IH]; [done|].
    change (replicate (S n) fresh_worker) with (fresh_worker :: replicate n fresh_worker).
    rewrite filter_cons_True by done. cbn [length]. by rewrite IH.
Qed.

Lemma micro_line_length p p' :
  micro p p' → length (line p') + promises p = length (line p) + promises p'.
Proof.
  destruct 1 as [p payload now rnd i Hf|p payload now rnd Hf|p k task o Hg
                |p task rest i Hq Hf|p].
  - rewrite line_assignTask. unfold line. cbn. rewrite !length_app. cbn. lia.
  - unfold line. cbn. rewrite fmap_app, !length_app. cbn. lia.
  - done.
  - rewrite line_assignTask. unfold line. cbn. rewrite Hq, !length_app. cbn. lia.
  - done.
Qed.

Lemma rtc_micro_line_length p p' :
  rtc micro p p' → length (line p') + promises p = length (line p) + promises p'.
Proof.
  induction 1 as [p|p p1 p2 Hm _ IH]; [done|].
  pose proof (micro_line_length _ _ Hm). lia.
Qed.

Lemma reachable_line_length spawn size es :
  let p := run es (new_WorkerPool (Value:=Value) spawn size) in
  length (line p) = promises p.
Proof.
  cbn zeta.
  pose proof (rtc_micro_line_length _ _
                (run_micro es (new_WorkerPool (Value:=Value) spawn size))) as H.
  cbn in H. lia.
Qed.

(** X3. No task is dropped: in every state a pool reaches, the calls of
    [assignTask] and the tasks in the queue together are as many as the
    promises handed out by [execute], and each of these promises belongs to a
    task that was given to a worker or that waits. *)
Theorem every_task_is_assigned_or_queued spawn size es :
  let p := run es (new_WorkerPool (Value:=Value) spawn size) in
  length (assigned p) + length (taskQueue p) = promises p ∧
  Forall (λ h, h ∈ line p) (seq 0 (promises p)).
Proof.
  intros p. pose proof (reachable_line_length spawn size es) as Hlen.
  cbn zeta in Hlen. fold p in Hlen. split.
  - unfold line in Hlen. rewrite length_app, !length_fmap in Hlen. done.
  - destruct (reachable_wf_line spawn size es) as [Hnd Hlt]. fold p in Hnd, Hlt.
    assert (line p ≡ₚ seq 0 (promises p)) as Hperm.
    { apply submseteq_length_Permutation.
      - apply NoDup_submseteq; [done|]. intros h Hh. apply elem_of_seq.
        rewrite Forall_forall in Hlt. specialize (Hlt _ Hh). lia.
      - rewrite length_seq. lia. }
    apply Forall_forall. intros h Hh. by rewrite Hperm.
Qed.

(** A worker that fails the test of [find] was given a task. *)
Lemma micro_busy_assigned p p' :
  pool_inv p → micro p p' →
  (∀ i w, workers p !! i = Some w → available w = false → i ∈ (assigned p).*1) →
  ∀ i w, workers p' !! i = Some w → available w = false → i ∈ (assigned p').*1.
Proof.
  intros Hinv Hm Hold.
  destruct Hm as [p payload now rnd i0 Hf|p payload now rnd Hf|p k task o Hg
                 |p task rest i0 Hq Hf|p]; intros i w;
    cbn [assignTask enqueue new_promise delete_active settle terminate
         set_taskQueue workers assigned].
  - rewrite fmap_app. intros Hw Hav. apply elem_of_app.
    destruct (decide (i0 = i)) as [->|Hne]; [right; apply list_elem_of_here|].
    left. rewrite list_lookup_alter_ne in Hw by done. eauto.
  - eauto.
  - eauto.
  - rewrite (inv_stuck _ Hinv) in Hf; [done|]. by rewrite Hq.
  - rewrite list_lookup_fmap. intros Hw Hav.
    destruct (workers p !! i) as [w0|] eqn:Hw0; [|done].
    injection Hw as <-. eauto.
Qed.

Lemma reachable_busy_assigned spawn size es :
  let p := run es (new_WorkerPool (Value:=Value) spawn size) in
  ∀ i w, workers p !! i = Some w → available w = false → i ∈ (assigned p).*1.
Proof.
  cbn zeta.
  pose proof (new_WorkerPool_inv (Value:=Value) spawn size) as Hinv.
  assert (∀ i w, workers (new_WorkerPool (Value:=Value) spawn size) !! i = Some w →
                 available w = false →
                 i ∈ (assigned (new_WorkerPool (Value:=Value) spawn size)).*1) as Hq.
  { destruct (new_WorkerPool_workers (Value:=Value) spawn size) as (m & _ & ->).
    intros i w [-> _]%lookup_replicate. done. }
  induction (run_micro es (new_WorkerPool (Value:=Value) spawn size))
    as [p|p p1 p2 Hm _ IH]; [done|].
  apply IH; [by eapply micro_inv|by eapply micro_busy_assigned].
Qed.

(** X4. A pool runs as many tasks as it has workers. In every state a
    pool reaches, the calls of [assignTask] are as many as the smaller of the
    number of submissions and the number of workers, whatever the workers
    reported in between; all further submissions are in the queue. *)
Theorem pool_runs_as_many_tasks_as_workers spawn size es :
  let p := run es (new_WorkerPool (Value:=Value) spawn size) in
  length (assigned p) = min (promises p) (length (workers p)) ∧
  length (taskQueue p) = promises p - length (workers p) ∧
  length (assigned p) ≤ size.
Proof.
  intros p. pose proof (reachable_inv spawn size es) as Hinv. fold p in Hinv.
  pose proof (reachable_line_length spawn size es) as Hlen.
  cbn zeta in Hlen. fold p in Hlen.
  unfold line in Hlen. rewrite length_app, !length_fmap in Hlen.
  assert (length (workers p) ≤ size) as Hsize.
  { pose proof (inv_size _ Hinv) as H. unfold p in H at 2.
    by rewrite run_poolSize in H. }
  assert (length (assigned p) ≤ length (workers p)) as Hle.
  { rewrite <-(length_fmap fst (assigned p)), <-(length_seq (length (workers p)) 0).
    apply submseteq_length, NoDup_submseteq; [apply Hinv|].
    intros i ([i' t] & -> & Hin)%list_elem_of_fmap.
    destruct (inv_assigned_busy _ Hinv _ _ Hin) as (w & Hw & _).
    apply elem_of_seq. apply lookup_lt_Some in Hw. cbn. lia. }
  destruct (taskQueue p) as [|t q] eqn:Hq; cbn [length] in *.
  - split_and!; lia.
  - assert (length (workers p) ≤ length (assigned p)) as Hge.
    { rewrite <-(length_fmap fst (assigned p)), <-(length_seq (length (workers p)) 0).
      apply submseteq_length, NoDup_submseteq; [apply NoDup_seq|].
      intros i [_ Hi]%elem_of_seq.
      destruct (lookup_lt_is_Some_2 (workers p) i) as [w Hw]; [lia|].
      apply (reachable_busy_assigned spawn size es i w Hw).
      assert (find_available (workers p) = None) as Hnone.
      { apply (inv_stuck _ Hinv). by rewrite Hq. }
      apply find_available_None in Hnone. rewrite Forall_forall in Hnone.
      apply Hnone. by eapply list_elem_of_lookup_2. }
    split_and!; lia.
Qed.

Lemma elem_of_set_values {B} (f : Task → B) k v (m : list (string * Task)) x :
  x ∈ (f ∘ snd <$> JSMap.set k v m) → x = f v ∨ x ∈ (f ∘ snd <$> m).
Proof.
  intros ([k' v'] & -> & Hin)%list_elem_of_fmap.
  destruct (JSMap_elem_of_set _ _ _ _ _ Hin) as [[= -> ->]|[Hin' _]]; [by left|].
  right. apply list_elem_of_fmap. by exists (k', v').
Qed.

(** A pending promise whose task is not in flight stays pending. *)
Lemma micro_pending p p' h :
  pool_inv p → micro p p' →
  h < promises p → h ∉ (promise ∘ snd <$> activeWorkers p) → h ∉ (settled p).*1 →
  h < promises p' ∧ (h ∉ (promise ∘ snd <$> activeWorkers p')) ∧ h ∉ (settled p').*1.
Proof.
  intros Hinv Hm Hlt Hact Hset.
  destruct Hm as [p payload now rnd i0 Hf|p payload now rnd Hf|p k task o Hg
                 |p task rest i0 Hq Hf|p];
    cbn [assignTask enqueue new_promise delete_active settle terminate
         set_taskQueue promises activeWorkers settled promise].
  - split_and!; [lia| |done].
    intros [Heq|Hin]%elem_of_set_values; [cbn in Heq; lia|done].
  - split_and!; [lia|done..].
  - pose proof (JSMap_get_elem_of _ _ _ Hg) as Hin. split_and!; [done| |].
    + intros Hin'. apply Hact. eapply elem_of_sublist; [done|].
      apply fmap_sublist, JSMap_delete_sublist.
    + rewrite fmap_app. intros [?|Heq%list_elem_of_singleton]%elem_of_app; [done|].
      cbn in Heq. apply Hact. apply list_elem_of_fmap. by exists (k, task).
  - rewrite (inv_stuck _ Hinv) in Hf; [done|]. by rewrite Hq.
  - done.
Qed.

Lemma rtc_micro_pending p p' h :
  rtc micro p p' → pool_inv p →
  h < promises p → h ∉ (promise ∘ snd <$> activeWorkers p) → h ∉ (settled p).*1 →
  promiseState h p' = Pending.
Proof.
  induction 1 as [p|p p1 p2 Hm _ IH]; intros Hinv Hlt Hact Hset.
  - by apply promiseState_not_settled.
  - destruct (micro_pending _ _ _ Hinv Hm Hlt Hact Hset) as (H1 & H2 & H3).
    apply IH; [by eapply micro_inv|done..].
Qed.

Lemma assigned_at_None h p :
  h ∉ (promise ∘ snd <$> assigned p) → assigned_at h p = None.
Proof.
  intros Hni. destruct (assigned_at h p) as [j|] eqn:Hj; [|done].
  apply assigned_at_Some in Hj. exfalso. apply Hni.
  by eapply list_elem_of_lookup_2.
Qed.

(** X5. A task that waits never runs: in every state a pool reaches, a
    task that is in the queue is still in the queue after any further events,
    has not been given to a worker, and its promise is pending. *)
Theorem queued_task_never_settles spawn size es t es' :
  let p := run es (new_WorkerPool (Value:=Value) spawn size) in
  t ∈ taskQueue p →
  t ∈ taskQueue (run es' p) ∧
  assigned_at (promise t) (run es' p) = None ∧
  promiseState (promise t) (run es' p) = Pending.
Proof.
  intros p Hin. pose proof (reachable_inv spawn size es) as Hinv. fold p in Hinv.
  assert (find_available (workers p) = None) as Hnone.
  { apply (inv_stuck _ Hinv). intros Hq. rewrite Hq in Hin. by apply elem_of_nil in Hin. }
  destruct (rtc_micro_no_available _ _ (run_micro es' p) Hnone) as (_ & Has & Hpre).
  destruct (inv_line _ Hinv) as [Hnd Hlt].
  assert (promise t ∉ (promise ∘ snd <$> assigned p)) as Hna.
  { unfold line in Hnd. apply NoDup_app in Hnd as (_ & Hdisj & _).
    intros Ha. apply (Hdisj _ Ha). by apply list_elem_of_fmap_2. }
  split_and!.
  - by eapply elem_of_prefix.
  - apply assigned_at_None. by rewrite Has.
  - apply (rtc_micro_pending p); [apply run_micro|done| | |].
    + rewrite Forall_forall in Hlt. apply Hlt. unfold line.
      apply elem_of_app. right. by apply list_elem_of_fmap_2.
    + intros ([k t'] & Heq & Hin')%list_elem_of_fmap. apply Hna.
      destruct (inv_active _ Hinv _ _ Hin') as (_ & _ & _ & _ & Ha).
      cbn in Heq. by rewrite Heq.
    + intros Hs. apply Hna. by apply (inv_settled_assigned _ Hinv).
Qed.

Lemma JSMap_size_set_present {V} k (v : V) m :
  k ∈ JSMap.keys m → JSMap.size (JSMap.set k v m) = JSMap.size m.
Proof.
  intros Hin. unfold JSMap.size.
  rewrite <-(length_fmap fst (JSMap.set k v m)), <-(length_fmap fst m).
  pose proof (JSMap_keys_set k v m) as H. unfold JSMap.keys in *. rewrite H.
  by rewrite decide_True.
Qed.

(** X6. Two tasks under one id. When [execute] makes the id of a task
    that is in flight and finds a worker, the new task takes the place of the
    old one in [activeWorkers], which does not grow; the promise of the old
    task is pending after any further events. *)
Theorem colliding_id_orphans_task spawn size es payload now rnd t0 i es' :
  let p := run es (new_WorkerPool (Value:=Value) spawn size) in
  JSMap.get (make_taskId now rnd) (activeWorkers p) = Some t0 →
  find_available (workers p) = Some i →
  let p' := (execute payload now rnd p).2 in
  JSMap.size (activeWorkers p') = JSMap.size (activeWorkers p) ∧
  JSMap.get (make_taskId now rnd) (activeWorkers p')
    = Some (mkTask (make_taskId now rnd) payload (promises p) (Some i)) ∧
  promiseState (promise t0) (run es' p') = Pending.
Proof.
  intros p Hg Hf p'. pose proof (reachable_inv spawn size es) as Hinv. fold p in Hinv.
  pose proof (JSMap_get_elem_of _ _ _ Hg) as Hin.
  destruct (inv_active _ Hinv _ _ Hin) as (_ & _ & _ & Hs & Ha).
  assert (promise t0 < promises p) as Hlt.
  { destruct (inv_line _ Hinv) as [_ Hlt]. rewrite Forall_forall in Hlt.
    by apply Hlt, assigned_in_line. }
  assert (pool_inv p') as Hinv'.
  { eapply micro_inv; [apply execute_micro|done]. }
  unfold p' in *. rewrite (execute_available payload now rnd p i Hf) in *.
  cbn [assignTask activeWorkers taskId].
  split_and!.
  - apply JSMap_size_set_present. unfold JSMap.keys.
    by apply (list_elem_of_fmap_2 fst _ (make_taskId now rnd, t0)).
  - apply JSMap_get_set.
  - apply (rtc_micro_pending _ _ _ (run_micro es' _) Hinv');
      cbn [assignTask new_promise promises activeWorkers settled taskId]; [lia| |done].
    intros ([k t'] & Heq & Hin')%list_elem_of_fmap. cbn in Heq.
    destruct (JSMap_elem_of_set_NoDup _ _ _ _ _ (inv_keys _ Hinv) Hin')
      as [[= -> ->]|[Hin'' Hne]].
    + cbn in Heq. lia.
    + apply Hne.
      assert ((k, t') = (make_taskId now rnd, t0)) as [= -> ->]; [|done].
      eapply (NoDup_fmap_elem_of_inj (promise ∘ snd)); [apply Hinv|done..].
Qed.

Lemma JSMap_get_delete {V} k (m : list (string * V)) :
  NoDup (JSMap.keys m) → JSMap.get k (JSMap.delete k m) = None.
Proof.
  intros Hnd. destruct (JSMap.get k (JSMap.delete k m)) as [v|] eqn:Hg; [|done].
  apply JSMap_get_elem_of in Hg.
  by destruct (JSMap_elem_of_delete _ _ _ _ Hnd Hg).
Qed.

(** In a state a pool reaches, the settlement of the task under key [k]
    leaves a state in which no message names that task and no task is in
    flight on its worker. *)
Lemma settled_task_is_gone p k t i o :
  pool_inv p → (k, t) ∈ activeWorkers p → worker t = Some i →
  let p1 := delete_active k (settle (promise t) o p) in
  (∀ result, m_taskId result = Some k → on_message result p1 = p1) ∧
  (∀ error, on_error i error p1 = p1).
Proof.
  intros Hinv Hin Hw p1. split.
  - intros result Hk. unfold on_message. rewrite Hk.
    subst p1. cbn [activeWorkers delete_active settle].
    by rewrite (JSMap_get_delete k _ (inv_keys _ Hinv)).
  - intros error. unfold on_error. subst p1. cbn [activeWorkers delete_active settle].
    destruct (list_find _ (JSMap.delete k (activeWorkers p))) as [[j [k' t']]|] eqn:Hf;
      [|done].
    exfalso. apply list_find_Some in Hf as (Hj & Hw' & _). cbn in Hw'.
    apply list_elem_of_lookup_2 in Hj.
    destruct (JSMap_elem_of_delete _ _ _ _ (inv_keys _ Hinv) Hj) as [Hin' Hne].
    destruct (inv_active _ Hinv _ _ Hin) as (_ & _ & (i0 & w0 & Hw0 & Hl0 & Hk0) & _).
    destruct (inv_active _ Hinv _ _ Hin') as (_ & _ & (i1 & w1 & Hw1 & Hl1 & Hk1) & _).
    congruence.
Qed.

Lemma on_message_reachable p result k t :
  pool_inv p → m_taskId result = Some k → (k, t) ∈ activeWorkers p →
  on_message result p = delete_active k (settle (promise t) (Resolved (m_body result)) p).
Proof.
  intros Hinv Hk Hin. unfold on_message.
  rewrite Hk, (JSMap_get_NoDup k t _ (inv_keys _ Hinv) Hin).
  apply processQueue_stuck, Hinv.
Qed.

Lemma on_error_reachable p i error k t :
  pool_inv p → (k, t) ∈ activeWorkers p → worker t = Some i →
  on_error i error p = delete_active k (settle (promise t) (Rejected error) p).
Proof.
  intros Hinv Hin Hw. unfold on_error.
  destruct (inv_active _ Hinv _ _ Hin) as (Hk & _ & (i0 & w0 & Hw0 & Hl & Hwk) & _).
  destruct (list_find _ (activeWorkers p)) as [[j [k' t']]|] eqn:Hf.
  - apply list_find_Some in Hf as (Hj & Hw' & _). cbn in Hw'.
    apply list_elem_of_lookup_2 in Hj.
    destruct (inv_active _ Hinv _ _ Hj) as (_ & _ & (i1 & w1 & Hw1 & Hl1 & Hwk1) & _).
    assert (k' = k) as -> by congruence.
    rewrite Hk, (JSMap_get_NoDup k t _ (inv_keys _ Hinv) Hin).
    apply processQueue_stuck, Hinv.
  - apply list_find_None in Hf. rewrite Forall_forall in Hf. by destruct (Hf _ Hin).
Qed.

(** X7. A message that comes twice counts once: in every state a pool
    reaches, delivering the same message of a worker a second time changes
    nothing, whether or not it names a task in flight. *)
Theorem repeated_message_is_ignored spawn size es i j result :
  let p := run es (new_WorkerPool (Value:=Value) spawn size) in
  step (step p (OnMessage i result)) (OnMessage j result) = step p (OnMessage i result).
Proof.
  intros p. pose proof (reachable_inv spawn size es) as Hinv. fold p in Hinv.
  cbn [step]. destruct (m_taskId result) as [k|] eqn:Hk.
  - destruct (JSMap.get k (activeWorkers p)) as [t|] eqn:Hg.
    + pose proof (JSMap_get_elem_of _ _ _ Hg) as Hin.
      destruct (inv_active _ Hinv _ _ Hin) as (_ & _ & (i0 & w0 & Hw0 & _) & _).
      rewrite (on_message_reachable p result k t Hinv Hk Hin).
      by apply (settled_task_is_gone p k t i0 _ Hinv Hin Hw0).
    + assert (on_message result p = p) as ->; [|by unfold on_message; rewrite Hk, Hg].
      unfold on_message. by rewrite Hk, Hg.
  - unfold on_message. by rewrite !Hk.
Qed.

(** X8. Once the task of a worker is settled, by the worker's message or
    by its error, a later message that names the task and a later error of
    the worker change nothing: the promise is not touched again and the queue
    is not looked at. *)
Theorem settled_task_ignores_later_events spawn size es k t i result j j' error error' e1 e2 :
  let p := run es (new_WorkerPool (Value:=Value) spawn size) in
  (k, t) ∈ activeWorkers p → worker t = Some i → m_taskId result = Some k →
  e1 ∈ [OnMessage j result; OnError i error] →
  e2 ∈ [OnMessage j' result; OnError i error'] →
  step (step p e1) e2 = step p e1.
Proof.
  intros p Hin Hw Hk He1 He2.
  pose proof (reachable_inv spawn size es) as Hinv. fold p in Hinv.
  assert (∃ o, step p e1 = delete_active k (settle (promise t) o p)) as [o ->].
  { apply elem_of_cons in He1 as [->|He1].
    - eexists. by apply on_message_reachable.
    - apply list_elem_of_singleton in He1 as ->. eexists. by apply on_error_reachable. }
  destruct (settled_task_is_gone p k t i o Hinv Hin Hw) as [Hmsg Herr].
  apply elem_of_cons in He2 as [->|He2].
  - by apply Hmsg.
  - apply list_elem_of_singleton in He2 as ->. apply Herr.
Qed.

Lemma processQueue_from_drains q : ∀ p,
  taskQueue p = q →
  let p' := processQueue_from q p in
  (taskQueue p' = [] ∨ find_available (workers p') = None) ∧
  ∃ n, taskQueue p' = drop n q ∧
       promise ∘ snd <$> assigned p' =
         (promise ∘ snd <$> assigned p) ++ (promise <$> take n q) ∧
       settled p' = settled p ∧ promises p' = promises p.
Proof.
  induction q as [|task rest IH]; intros p Hq; cbn [processQueue_from].
  - split; [by left|]. exists 0. by rewrite app_nil_r.
  - destruct (find_available (workers p)) as [i|] eqn:Hf.
    + destruct (IH (assignTask i task (set_taskQueue rest p)) eq_refl)
        as (Hstop & n & H1 & H2 & H3 & H4).
      split; [done|]. exists (S n). split_and!; [done| |done..].
      rewrite H2. cbn. rewrite fmap_app, <-app_assoc. done.
    + split; [by right|]. exists 0. by rewrite app_nil_r.
Qed.

(** X9. [processQueue] on any pool: it stops with the queue empty or with
    no worker passing the test of [find]; the tasks it gave to workers are
    the first ones of the queue, in the order of the queue, and the rest of
    the queue is left; it settles no promise, and a second call right after
    does nothing. *)
Theorem processQueue_drains_in_order p :
  let p' := processQueue p in
  (taskQueue p' = [] ∨ find_available (workers p') = None) ∧
  (∃ n, taskQueue p' = drop n (taskQueue p) ∧
        promise ∘ snd <$> assigned p' =
          (promise ∘ snd <$> assigned p) ++ (promise <$> take n (taskQueue p))) ∧
  settled p' = settled p ∧
  processQueue p' = p'.
Proof.
  intros p'.
  destruct (processQueue_from_drains (taskQueue p) p eq_refl)
    as (Hstop & n & H1 & H2 & H3 & _).
  fold (processQueue p) in *. fold p' in Hstop, H1, H2, H3.
  split_and!; [done|by exists n|done|].
  apply processQueue_stuck. intros Hne. by destruct Hstop.
Qed.

End PoolExtras.


(** * More on the pool, on concrete pools *)

Section PoolExtrasScenarios.
#[local] Open Scope string_scope.
#[local] Open Scope list_scope.

(** X2 on a pool of size four whose third worker does not start. *)
Lemma constructor_stops_at_first_failure_witness :
  ((2 ≤ 4)%nat ∧ (∀ j, j < 2 → spawn_until 2 j = true) ∧
   (2 < 4 → spawn_until 2 2 = false)) ∧
  let p := new_WorkerPool (Value:=string) (spawn_until 2) 4 in
  workers p = replicate 2 fresh_worker ∧
  poolSize p = 4 ∧
  st_totalWorkers (stats p) = 2 ∧
  idle_workers p = 2.
Proof.
  assert (2 ≤ 4)%nat as H1 by lia.
  assert (∀ j, j < 2 → spawn_until 2 j = true) as H2.
  { intros j Hj. unfold spawn_until. by apply Nat.ltb_lt. }
  assert (2 < 4 → spawn_until 2 2 = false) as H3 by done.
  split; [done|].
  exact (constructor_stops_at_first_failure (Value:=string) (spawn_until 2) 4 2 H1 H2 H3).
Defined.

(** X5 on a pool of one worker: the second task waits while the first one
    completes, the pool is terminated and a third task is submitted. *)
Lemma queued_task_never_settles_witness :
  let p := run [submit "1"; submit "2"] (new_WorkerPool all_spawn 1) in
  let t := mkTask (id_of "2") "job 2" 1 None in
  let es' := [OnMessage 0 (done_message "1"); Terminate; submit "3"] in
  t ∈ taskQueue p ∧
  (t ∈ taskQueue (run es' p) ∧
   assigned_at (promise t) (run es' p) = None ∧
   promiseState (promise t) (run es' p) = Pending).
Proof.
  intros p t es'.
  assert (t ∈ taskQueue p) as Hin by apply list_elem_of_here.
  split; [done|].
  exact (queued_task_never_settles all_spawn 1 [submit "1"; submit "2"] t es' Hin).
Defined.

(** X6 on a pool of two workers: the second task gets the id of the
    first, and the message that names this id settles the second task. *)
Lemma colliding_id_orphans_task_witness :
  let p := run [submit "1"] (new_WorkerPool all_spawn 2) in
  let t0 := mkTask (id_of "1") "job 1" 0 (Some 0) in
  let p' := (execute "job 1 again" "1700000000000" "1" p).2 in
  let es' := [OnMessage 1 (done_message "1")] in
  (JSMap.get (make_taskId "1700000000000" "1") (activeWorkers p) = Some t0 ∧
   find_available (workers p) = Some 1) ∧
  (JSMap.size (activeWorkers p') = JSMap.size (activeWorkers p) ∧
   JSMap.get (make_taskId "1700000000000" "1") (activeWorkers p')
     = Some (mkTask (make_taskId "1700000000000" "1") "job 1 again" (promises p) (Some 1)) ∧
   promiseState (promise t0) (run es' p') = Pending).
Proof.
  intros p t0 p' es'.
  assert (JSMap.get (make_taskId "1700000000000" "1") (activeWorkers p) = Some t0)
    as Hg by reflexivity.
  assert (find_available (workers p) = Some 1) as Hf by reflexivity.
  split; [done|].
  exact (colliding_id_orphans_task all_spawn 2 [submit "1"] "job 1 again"
           "1700000000000" "1" t0 1 es' Hg Hf).
Defined.

(** X8 on a pool of one worker whose task fails and then, late, reports a
    result. *)
Lemma settled_task_ignores_later_events_witness :
  let p := run [submit "1"] (new_WorkerPool all_spawn 1) in
  let t := mkTask (id_of "1") "job 1" 0 (Some 0) in
  let e1 := OnError 0 "boom" in
  let e2 := OnMessage 0 (done_message "1") in
  ((id_of "1", t) ∈ activeWorkers p ∧ worker t = Some 0 ∧
   m_taskId (done_message "1") = Some (id_of "1") ∧
   e1 ∈ [OnMessage 0 (done_message "1"); OnError 0 "boom"] ∧
   e2 ∈ [OnMessage 0 (done_message "1"); OnError 0 "late"]) ∧
  step (step p e1) e2 = step p e1.
Proof.
  intros p t e1 e2.
  assert ((id_of "1", t) ∈ activeWorkers p) as Hin by apply list_elem_of_here.
  assert (worker t = Some 0) as Hw by reflexivity.
  assert (m_taskId (done_message "1") = Some (id_of "1")) as Hk by reflexivity.
  assert (e1 ∈ [OnMessage 0 (done_message "1"); OnError 0 "boom"]) as H1
    by apply list_elem_of_further, list_elem_of_here.
  assert (e2 ∈ [OnMessage 0 (done_message "1"); OnError 0 "late"]) as H2
    by apply list_elem_of_here.
  split; [done|].
  exact (settled_task_ignores_later_events all_spawn 1 [submit "1"] (id_of "1") t 0
           (done_message "1") 0 0 "boom" "late" e1 e2 Hin Hw Hk H1 H2).
Defined.

End PoolExtrasScenarios.

(** * More on the map *)

Section JSMapMore.
Context {V : Type}.
Implicit Types (m : list (string * V)) (k : string) (v : V).

Lemma JSMap_get_set_ne k k' v m :
  k ≠ k' → JSMap.get k (JSMap.set k' v m) = JSMap.get k m.
Proof.
  intros Hne. induction m as [|[k1 v1] m IH]; cbn.
  - destruct (String.eqb_spec k' k); [congruence|done].
  - destruct (String.eqb_spec k1 k') as [->|Hne1]; cbn.
    + destruct (String.eqb_spec k' k); [congruence|done].
    + destruct (String.eqb_spec k1 k); [done|apply IH].
Qed.

Lemma JSMap_get_delete_ne k k' m :
  k ≠ k' → JSMap.get k (JSMap.delete k' m) = JSMap.get k m.
Proof.
  intros Hne. induction m as [|[k1 v1] m IH]; cbn; [done|].
  destruct (String.eqb_spec k1 k') as [->|Hne1]; cbn.
  - destruct (String.eqb_spec k' k); [congruence|done].
  - destruct (String.eqb_spec k1 k); [done|apply IH].
Qed.

Lemma JSMap_get_set_is_Some k k' v m :
  is_Some (JSMap.get k m) → is_Some (JSMap.get k (JSMap.set k' v m)).
Proof.
  intros Hk. destruct (decide (k = k')) as [->|Hne].
  - rewrite JSMap_get_set. by eexists.
  - by rewrite JSMap_get_set_ne.
Qed.

Lemma JSMap_delete_absent k m : JSMap.get k m = None → JSMap.delete k m = m.
Proof.
  induction m as [|[k1 v1] m IH]; [done|]. cbn.
  destruct (String.eqb_spec k1 k); [done|]. intros Hg. by rewrite IH.
Qed.

Lemma JSMap_delete_NoDup k m : NoDup (JSMap.keys m) → NoDup (JSMap.keys (JSMap.delete k m)).
Proof.
  intros Hnd. apply (sublist_NoDup _ _ Hnd). unfold JSMap.keys.
  apply fmap_sublist, JSMap_delete_sublist.
Qed.

End JSMapMore.

(** * The command bot: properties *)

(** * More on objects *)

Section ObjectFacts.
Context {A : Type}.
Implicit Types (obj : list (string * A)).

Lemma insert_index_perm {B} n (e : B) l : insert_index n e l ≡ₚ (n, e) :: l.
Proof.
  induction l as [|[m e'] l IH]; cbn [insert_index]; [done|].
  destruct (n <=? m)%N; [done|]. rewrite IH. apply Permutation_swap.
Qed.

Lemma Object_entries_perm obj : Object_entries obj ≡ₚ obj.
Proof.
  unfold Object_entries, index_entries.
  induction obj as [|e obj IH]; [done|]. cbn [foldr]. rewrite filter_cons.
  destruct (array_index e.1) as [n|] eqn:Hn.
  - rewrite decide_False by done.
    rewrite insert_index_perm, fmap_cons. cbn [snd app]. by rewrite IH.
  - rewrite decide_True by done.
    rewrite <-Permutation_middle. by rewrite IH.
Qed.

(** Without array indices among the keys, the order is the one in which the
    properties were made. *)
Lemma Object_entries_no_index obj :
  Forall (λ e, array_index e.1 = None) obj → Object_entries obj = obj.
Proof.
  intros Hall. unfold Object_entries.
  assert (index_entries obj = []) as ->.
  { unfold index_entries. induction Hall as [|e obj He Hall IH]; [done|].
    cbn [foldr]. by rewrite He. }
  cbn [fmap list_fmap app].
  induction Hall as [|e obj He Hall IH]; [done|].
  rewrite filter_cons, decide_True by done. by f_equal.
Qed.

Lemma JSMap_get_is_Some k obj : is_Some (JSMap.get k obj) ↔ k ∈ JSMap.keys obj.
Proof.
  unfold JSMap.keys. induction obj as [|[k' v] obj IH]; cbn [JSMap.get fmap list_fmap fst].
  - split; [by intros [? [=]]|by intros ?%elem_of_nil].
  - destruct (String.eqb_spec k' k) as [->|Hne].
    + split; [intros _; apply list_elem_of_here|by eexists].
    + rewrite IH. split; [apply list_elem_of_further|].
      by intros [?|?]%elem_of_cons.
Qed.

Lemma Object_entries_get_is_Some k obj :
  is_Some (JSMap.get k (Object_entries obj)) ↔ is_Some (JSMap.get k obj).
Proof.
  rewrite !JSMap_get_is_Some. unfold JSMap.keys.
  by rewrite (Object_entries_perm obj).
Qed.

End ObjectFacts.

Module ComandanteProps.
Import Comandante.
#[local] Open Scope string_scope.
#[local] Open Scope list_scope.

(** ** Strings *)

Lemma is_space_lower_unit a : is_space (lower_unit a) = is_space a.
Proof. by destruct a as [[] [] [] [] [] [] [] []]. Qed.

Lemma lower_unit_idemp a : lower_unit (lower_unit a) = lower_unit a.
Proof. by destruct a as [[] [] [] [] [] [] [] []]. Qed.

Lemma toLowerCase_idemp s : toLowerCase (toLowerCase s) = toLowerCase s.
Proof. induction s as [|a s IH]; [done|]. cbn. by rewrite lower_unit_idemp, IH. Qed.

Lemma has_space_toLowerCase s : has_space (toLowerCase s) = has_space s.
Proof. induction s as [|a s IH]; [done|]. cbn. by rewrite is_space_lower_unit, IH. Qed.

Lemma has_space_snoc tok a : has_space (tok ++ String a "") = has_space tok || is_space a.
Proof.
  induction tok as [|b tok IH].
  - change (is_space a || false = false || is_space a). by rewrite orb_false_r.
  - change (is_space b || has_space (tok ++ String a "")
            = is_space b || has_space tok || is_space a).
    by rewrite IH, orb_assoc.
Qed.

Lemma snoc_not_empty tok a : (tok ++ String a "")%string ≠ "".
Proof. by destruct tok. Qed.

Lemma split_from_not_nil g tok s : split_from g tok s ≠ [].
Proof.
  revert g tok. induction s as [|a s IH]; intros g tok; cbn; [done|].
  destruct (is_space a); [destruct g|]; [apply IH|done|apply IH].
Qed.

Lemma split_from_no_space s : ∀ g tok,
  has_space tok = false →
  Forall (λ w, has_space w = false) (split_from g tok s).
Proof.
  induction s as [|a s IH]; intros g tok Htok; cbn.
  - by apply Forall_singleton.
  - destruct (is_space a) eqn:Ha.
    + destruct g; [by apply IH|]. apply Forall_cons. split; [done|]. by apply IH.
    + apply IH. by rewrite has_space_snoc, Htok, Ha.
Qed.

Lemma ends_with_space_cons a s :
  ends_with_space (String a s) = false →
  ends_with_space s = false ∧ (is_space a = true → s ≠ "").
Proof. destruct s as [|b s]; cbn; [|done]. intros ->. done. Qed.

Lemma split_from_not_empty s : ∀ g tok,
  ends_with_space s = false →
  tok ≠ "" ∨ (s ≠ "" ∧ g = true) →
  Forall (λ w, w ≠ "") (split_from g tok s).
Proof.
  induction s as [|a s IH]; intros g tok Hend Hc; cbn [split_from].
  - apply Forall_singleton. by destruct Hc as [?|[? _]].
  - apply ends_with_space_cons in Hend as [Hend Hne].
    destruct (is_space a) eqn:Ha.
    + specialize (Hne eq_refl). destruct g.
      * apply IH; [done|]. by right.
      * destruct Hc as [Htok|[_ ?]]; [|done].
        apply Forall_cons. split; [done|]. apply IH; [done|]. by right.
    + apply IH; [done|]. left. apply snoc_not_empty.
Qed.

Lemma split_from_tail_not_empty s : ∀ g tok,
  ends_with_space s = false →
  Forall (λ w, w ≠ "") (tail (split_from g tok s)).
Proof.
  induction s as [|a s IH]; intros g tok Hend; cbn [split_from].
  - by apply Forall_nil.
  - apply ends_with_space_cons in Hend as [Hend Hne].
    destruct (is_space a) eqn:Ha.
    + specialize (Hne eq_refl). destruct g; [by apply IH|].
      cbn [tail]. apply split_from_not_empty; [done|]. by right.
    + by apply IH.
Qed.

Lemma ends_with_space_trimEnd s : ends_with_space (trimEnd s) = false.
Proof.
  induction s as [|a s IH]; [done|]. cbn [trimEnd].
  destruct (trimEnd s) as [|b r] eqn:Hr.
  - destruct (is_space a) eqn:Ha; [done|]. cbn. done.
  - done.
Qed.

Lemma ends_with_space_slice1 s :
  ends_with_space s = false → ends_with_space (slice1 s) = false.
Proof.
  destruct s as [|a s]; [done|]. intros H. by apply ends_with_space_cons in H as [H _].
Qed.

(** X10. [parseCommand] always finds a first word. The alias and the
    arguments it returns hold no white space, no argument is empty, and
    [fullArgs] is the arguments with one space between them: runs of white
    space in the input count as one. *)
Theorem parseCommand_words bot input :
  ∃ parsed, parseCommand bot input = Some parsed ∧
    raw parsed = input ∧
    has_space (commandAlias parsed) = false ∧
    Forall (λ w, has_space w = false ∧ w ≠ "") (args parsed) ∧
    fullArgs parsed = join (args parsed).
Proof.
  unfold parseCommand.
  set (commandStr := if startsWith (trim input) (prefix bot)
                     then slice1 (trim input) else trim input).
  assert (ends_with_space commandStr = false) as Hend.
  { unfold commandStr. destruct (startsWith _ _).
    - apply ends_with_space_slice1, ends_with_space_trimEnd.
    - apply ends_with_space_trimEnd. }
  pose proof (split_from_no_space commandStr false "" eq_refl) as Hns.
  pose proof (split_from_tail_not_empty commandStr false "" Hend) as Hne.
  pose proof (split_from_not_nil false "" commandStr) as Hnil.
  unfold split_spaces. destruct (split_from false "" commandStr) as [|part0 rest]; [done|].
  eexists. split; [done|]. cbn.
  apply Forall_cons in Hns as [H0 Hrest]. cbn [tail] in Hne.
  split_and!; [done|by rewrite has_space_toLowerCase| |done].
  apply Forall_forall. intros w Hw. rewrite Forall_forall in Hrest, Hne. auto.
Qed.

(** ** The aliases *)

Lemma get_property_set k k' v m :
  k ≠ "__proto__" →
  JSMap.get k (property_set k' v m) = if decide (k = k') then Some v else JSMap.get k m.
Proof.
  intros Hk. unfold property_set.
  destruct (String.eqb_spec k' "__proto__") as [->|Hne].
  - by rewrite decide_False.
  - destruct (decide (k = k')) as [->|Hne'].
    + apply JSMap_get_set.
    + by apply JSMap_get_set_ne.
Qed.

Lemma get_foldl_property_set n l : ∀ m k,
  k ≠ "__proto__" →
  JSMap.get k (foldl (λ als alias, property_set alias n als) m l)
    = if decide (k ∈ l) then Some n else JSMap.get k m.
Proof.
  induction l as [|a l IH]; intros m k Hk; cbn [foldl].
  - rewrite decide_False; [done|]. apply not_elem_of_nil.
  - rewrite IH by done. rewrite get_property_set by done.
    destruct (decide (k ∈ l)) as [Hin|Hni].
    + rewrite decide_True; [done|]. by apply list_elem_of_further.
    + destruct (decide (k = a)) as [->|Hne].
      * rewrite decide_True; [done|]. apply list_elem_of_here.
      * rewrite decide_False; [done|]. intros [?|?]%elem_of_cons; done.
Qed.

Lemma get_add_command als c k :
  k ≠ "__proto__" →
  JSMap.get k (add_command als c)
    = if decide (claims c k) then Some (name c) else JSMap.get k als.
Proof.
  intros Hk. unfold add_command. rewrite get_foldl_property_set by done.
  rewrite get_property_set by done. unfold claims.
  destruct (decide (k ∈ aliases c)) as [Hin|Hni].
  - rewrite decide_True; [done|]. by right.
  - destruct (decide (k = name c)) as [->|Hne].
    + rewrite decide_True; [done|]. by left.
    + rewrite decide_False; [done|]. intros [?|?]; done.
Qed.

Lemma get_foldl_add_command cs k : ∀ als,
  k ≠ "__proto__" →
  JSMap.get k (foldl add_command als cs)
    = match last (filter (λ c, claims c k) cs) with
      | Some c => Some (name c)
      | None => JSMap.get k als
      end.
Proof.
  induction cs as [|c cs IH]; intros als Hk; cbn [foldl]; [done|].
  rewrite IH by done. rewrite filter_cons.
  destruct (decide (claims c k)) as [Hc|Hc].
  - rewrite last_cons.
    destruct (last (filter (λ c, claims c k) cs)); [done|].
    by rewrite get_add_command, decide_True.
  - destruct (last (filter (λ c, claims c k) cs)); [done|].
    by rewrite get_add_command, decide_False.
Qed.

Lemma get_proto_property_set k v m :
  JSMap.get "__proto__" m = None → JSMap.get "__proto__" (property_set k v m) = None.
Proof.
  intros Hm. unfold property_set.
  destruct (String.eqb_spec k "__proto__"); [done|].
  by rewrite JSMap_get_set_ne.
Qed.

Lemma get_proto_add_command als c :
  JSMap.get "__proto__" als = None → JSMap.get "__proto__" (add_command als c) = None.
Proof.
  intros Hals. unfold add_command.
  pose proof (get_proto_property_set (name c) (name c) als Hals) as H0.
  revert H0. generalize (property_set (name c) (name c) als).
  induction (aliases c) as [|a l IH]; intros m Hm; [done|].
  cbn [foldl]. by apply IH, get_proto_property_set.
Qed.

Lemma get_proto_foldl_add_command cs : ∀ als,
  JSMap.get "__proto__" als = None →
  JSMap.get "__proto__" (foldl add_command als cs) = None.
Proof.
  induction cs as [|c cs IH]; intros als Hals; [done|].
  cbn [foldl]. by apply IH, get_proto_add_command.
Qed.

(** X11. In the map that [initializeAliases] builds from any table of
    commands, a key goes to the last command, in the order of
    [Object.values] of the table, that has it as its name or as an alias, and
    a key that no command has is not in the map. A name or alias that a later
    command also uses is lost to the earlier command. The order of
    [Object.values] is not always the order in which the table was written:
    the commands under keys that are array indices come first, by rising
    index. The key [__proto__] never gets into the map. *)
Theorem alias_goes_to_last_claim commands k :
  JSMap.get k (initializeAliases commands)
    = if String.eqb k "__proto__" then None
      else name <$> last (filter (λ c, claims c k) (Object_values commands)).
Proof.
  unfold initializeAliases.
  destruct (String.eqb_spec k "__proto__") as [->|Hk].
  - by apply get_proto_foldl_add_command.
  - rewrite get_foldl_add_command by done.
    by destruct (last (filter (λ c, claims c k) (Object_values commands))).
Qed.

(** A table written with the key [b] before the key [1], both commands
    with the alias [z]: [Object.values] starts with the command under [1], so
    the alias goes to the command under [b]. *)
Example alias_with_index_key :
  let commands := [ ("b", mkCommand "b" "" handleHelp ["z"]);
                    ("1", mkCommand "1" "" handleCatalog ["z"]) ] in
  name <$> Object_values commands = ["1"; "b"] ∧
  JSMap.get "z" (initializeAliases commands) = Some "b".
Proof. by vm_compute. Qed.

(** The table of the source has no such key: its commands are taken in the
    order in which they are written. *)
Lemma Object_values_initializeCommands :
  Object_values initializeCommands = initializeCommands.*2.
Proof. by vm_compute. Qed.

(** ** The table of the source *)

Lemma get_in_values {V} k (v : V) m : JSMap.get k m = Some v → v ∈ m.*2.
Proof. intros H%JSMap_get_elem_of. by apply (list_elem_of_fmap_2 snd _ (k, v)). Qed.

(** The keys that go to the value [v]. *)
Lemma get_in_keys_of k v (m : list (string * string)) :
  JSMap.get k m = Some v → k ∈ (filter (λ e, e.2 = v) m).*1.
Proof.
  intros H%JSMap_get_elem_of. apply (list_elem_of_fmap_2 fst _ (k, v)).
  by apply list_elem_of_filter.
Qed.

(** X12. What the table of the source loses. The keys that reach the
    command [help] are [info] and [?] and no others: [help] itself goes to
    [support], as does [assist], and [h] goes to [hours]. Every other name
    and alias of the table goes to its own command, but for [schedule] of
    [booking], which goes to [hours], and [support] of [contact], which goes
    to [support]. *)
Theorem names_and_aliases_lost config_prefix :
  let als := aliases_of (new_ComandanteBot config_prefix) in
  (∀ k, JSMap.get k als = Some "help" ↔ k ∈ ["info"; "?"]) ∧
  JSMap.get "help" als = Some "support" ∧
  JSMap.get "assist" als = Some "support" ∧
  JSMap.get "h" als = Some "hours" ∧
  JSMap.get "schedule" als = Some "hours" ∧
  JSMap.get "support" als = Some "support" ∧
  Forall (λ c,
    Forall (λ k,
      JSMap.get k als = Some (name c) ∨
      (name c, k) ∈ [("help", "help"); ("help", "h"); ("help", "assist");
                     ("booking", "schedule"); ("contact", "support")])
      (name c :: aliases c))
    initializeCommands.*2.
Proof.
  intros als. split_and!; [|by vm_compute..|].
  - intros k. split.
    + intros H%get_in_keys_of.
      assert ((filter (λ e : string * string, e.2 = "help") als).*1 = ["info"; "?"]) as Heq
        by (by vm_compute).
      by rewrite Heq in H.
    + intros [->|[->|[]%elem_of_nil]%elem_of_cons]%elem_of_cons; by vm_compute.
  - apply (bool_decide_unpack _). by vm_compute.
Qed.

(** ** [execute], [getCommand] and [hasCommand] on the table of the source *)

Lemma parseCommand_is_Some bot input : is_Some (parseCommand bot input).
Proof.
  unfold parseCommand, split_spaces.
  match goal with |- context [split_from false "" ?s] =>
    pose proof (split_from_not_nil false "" s) as Hnil;
    destruct (split_from false "" s) end; [done|by eexists].
Qed.

(** Every value of the map of the source is the key of a command. *)
Lemma aliases_go_to_commands :
  Forall (λ e : string * string,
            truthy_string e.2 = true ∧ is_Some (JSMap.get e.2 initializeCommands))
         (initializeAliases initializeCommands).
Proof. apply (bool_decide_unpack _). by vm_compute. Qed.

Lemma own_alias_is_command k v :
  JSMap.get k (initializeAliases initializeCommands) = Some v →
  truthy_string v = true ∧ is_Some (JSMap.get v initializeCommands).
Proof.
  intros H%JSMap_get_elem_of.
  pose proof aliases_go_to_commands as Hall. rewrite Forall_forall in Hall.
  apply (Hall _ H).
Qed.

(** Of the names that an object inherits, only two are in lower case. *)
Lemma inherited_lower s :
  inherited (toLowerCase s) = true → toLowerCase s ∈ ["constructor"; "__proto__"].
Proof.
  intros Hin. pose proof (toLowerCase_idemp s) as Hid.
  apply bool_decide_eq_true in Hin. unfold Object_prototype in Hin.
  repeat (apply elem_of_cons in Hin as [Heq|Hin];
          [rewrite Heq in Hid |- *; try (by vm_compute in Hid);
           try apply list_elem_of_here; try apply list_elem_of_further, list_elem_of_here|]).
  by apply elem_of_nil in Hin.
Qed.

Lemma property_get_shipped k :
  k ∈ ["constructor"; "__proto__"] →
  property_get (initializeAliases initializeCommands) k = Inherited.
Proof.
  intros [->|[->|[]%elem_of_nil]%elem_of_cons]%elem_of_cons; by vm_compute.
Qed.

(** X13. With the table of the source, [execute] ends in its [catch]
    exactly on the inputs whose first word, in lower case, is [constructor]
    or [__proto__]: these are not in the map of aliases but are found in the
    object it inherits from, so they are not answered as unknown commands. On
    every other input [execute] calls a handler or answers that the command is
    unknown. *)
Theorem execute_throws_on_inherited_names config_prefix input :
  let bot := new_ComandanteBot config_prefix in
  execute bot input = Threw ↔
  ∃ parsed, parseCommand bot input = Some parsed ∧
            commandAlias parsed ∈ ["constructor"; "__proto__"].
Proof.
  intros bot. unfold execute.
  destruct (parseCommand_is_Some bot input) as [parsed Hp]. rewrite Hp.
  assert (∃ w, commandAlias parsed = toLowerCase w) as [w Hw].
  { unfold parseCommand in Hp. destruct (split_spaces _) as [|part0 rest]; [done|].
    injection Hp as <-. by eexists. }
  cbn [aliases_of commands bot new_ComandanteBot]. split.
  - intros Hthrew. exists parsed. split; [done|].
    unfold property_get in Hthrew.
    destruct (JSMap.get _ (initializeAliases initializeCommands)) as [v|] eqn:Hg.
    + destruct (own_alias_is_command _ _ Hg) as [Ht [c Hc]].
      by rewrite Ht, Hc in Hthrew.
    + destruct (inherited (commandAlias parsed)) eqn:Hi; [|done].
      rewrite Hw in Hi |- *. by apply inherited_lower.
  - intros (parsed' & [= <-] & Hin). by rewrite (property_get_shipped _ Hin).
Qed.

(** X14. With the table of the source, [hasCommand] says yes exactly when
    [getCommand] finds a command, but for the names that are [constructor]
    or [__proto__] in lower case: for these [hasCommand] says yes and
    [getCommand] finds nothing. *)
Theorem hasCommand_and_getCommand config_prefix nameOrAlias :
  let bot := new_ComandanteBot config_prefix in
  (hasCommand bot nameOrAlias = true ↔
     is_Some (getCommand bot nameOrAlias) ∨
     toLowerCase nameOrAlias ∈ ["constructor"; "__proto__"]) ∧
  (toLowerCase nameOrAlias ∈ ["constructor"; "__proto__"] →
     getCommand bot nameOrAlias = None).
Proof.
  intros bot. unfold hasCommand, getCommand, property_in.
  cbn [aliases_of commands bot new_ComandanteBot]. split.
  - unfold property_get.
    destruct (JSMap.get _ (initializeAliases initializeCommands)) as [v|] eqn:Hg.
    + destruct (own_alias_is_command _ _ Hg) as [Ht Hc]. rewrite Ht.
      split; [by left|done].
    + destruct (inherited (toLowerCase nameOrAlias)) eqn:Hi.
      * split; [|done]. intros _. right. by apply inherited_lower.
      * split; [done|]. intros [[? [=]]|Hin].
        apply property_get_shipped in Hin. unfold property_get in Hin.
        by rewrite Hg, Hi in Hin.
  - intros Hin. by rewrite (property_get_shipped _ Hin).
Qed.

(** X15. With the table of the source, whatever the prefix: an input
    whose first word is [help], in any case, has the handler of [support]
    called with its arguments, not the handler of [help]. *)
Theorem help_runs_support config_prefix input parsed :
  let bot := new_ComandanteBot config_prefix in
  parseCommand bot input = Some parsed →
  commandAlias parsed = "help" →
  execute bot input = Called "support" handleSupport (args parsed) (fullArgs parsed).
Proof.
  intros bot Hp Ha. unfold execute. rewrite Hp, Ha. done.
Qed.

(** ** The prefix *)

Lemma trimStart_no_space s : has_space s = false → trimStart s = s.
Proof. destruct s as [|a s]; [done|]. cbn. by destruct (is_space a). Qed.

Lemma trimEnd_fixed s : ends_with_space s = false → trimEnd s = s.
Proof.
  induction s as [|a s IH]; [done|].
  intros [Hend Hne]%ends_with_space_cons. cbn [trimEnd]. rewrite (IH Hend).
  destruct s as [|b s]; [|done].
  destruct (is_space a); [|done]. by destruct (Hne eq_refl).
Qed.

Lemma ends_with_space_no_space s : has_space s = false → ends_with_space s = false.
Proof.
  induction s as [|a s IH]; [done|]. cbn [has_space].
  intros [Ha Hs]%orb_false_elim. destruct s as [|b s]; [done|]. by apply IH.
Qed.

Lemma trim_no_space s : has_space s = false → trim s = s.
Proof.
  intros Hs. unfold trim. rewrite trimStart_no_space by done.
  by apply trimEnd_fixed, ends_with_space_no_space.
Qed.

Lemma append_assoc_snoc tok a s : ((tok ++ String a "") ++ s = tok ++ String a s)%string.
Proof.
  induction tok as [|b tok IH]; [done|].
  change (String b ((tok ++ String a "") ++ s) = String b (tok ++ String a s))%string.
  by rewrite IH.
Qed.

Lemma append_empty_r tok : (tok ++ "")%string = tok.
Proof.
  induction tok as [|b tok IH]; [done|].
  change (String b (tok ++ "") = String b tok)%string. by rewrite IH.
Qed.

Lemma split_from_no_space_word s : ∀ tok,
  has_space s = false → split_from false tok s = [(tok ++ s)%string].
Proof.
  induction s as [|a s IH]; intros tok Hs; cbn [split_from].
  - by rewrite append_empty_r.
  - cbn [has_space] in Hs. apply orb_false_elim in Hs as [Ha Hs]. rewrite Ha.
    rewrite IH by done. f_equal. apply append_assoc_snoc.
Qed.

(** X16. The prefix of [config] stands even when it is empty: the
    default ['/'] is not used then. With the empty prefix every input counts
    as having the prefix and loses its first code unit: a single word goes to
    the command named by the rest of the word. *)
Theorem empty_prefix_eats_first_unit a w :
  has_space (String a w) = false →
  let bot := new_ComandanteBot (Some "") in
  prefix bot = "" ∧
  parseCommand bot (String a w)
    = Some {| raw := String a w; hasPrefix := true;
              commandAlias := toLowerCase w; args := []; fullArgs := "" |}.
Proof.
  intros Hs bot. split; [done|]. subst bot. unfold parseCommand.
  rewrite trim_no_space by done.
  change (prefix (new_ComandanteBot (Some ""))) with "".
  assert (startsWith (String a w) "" = true) as -> by done.
  cbn [slice1]. unfold split_spaces.
  cbn [has_space] in Hs. apply orb_false_elim in Hs as [_ Hs].
  by rewrite split_from_no_space_word.
Qed.

Lemma trim_prefixed c t :
  is_space c = false → ends_with_space t = false → trim (String c t) = String c t.
Proof.
  intros Hc Ht. unfold trim. cbn [trimStart]. rewrite Hc.
  cbn [trimEnd]. rewrite (trimEnd_fixed t Ht). destruct t; [by rewrite Hc|done].
Qed.

Lemma startsWith_unit c t : startsWith (String c t) (String c "") = true.
Proof.
  unfold startsWith. cbn. destruct (Ascii.ascii_dec c c); [|done]. by destruct t.
Qed.

(** X17. The prefix is not needed. For a bot whose prefix is one code
    unit that is not white space, an input that does not start with the
    prefix is executed like the same input with the prefix put before it. *)
Theorem prefix_is_optional bot c input :
  prefix bot = String c "" → is_space c = false →
  startsWith (trim input) (prefix bot) = false →
  execute bot input = execute bot (String c (trim input)) ∧
  (fmap commandAlias (parseCommand bot input),
   fmap args (parseCommand bot input))
    = (fmap commandAlias (parseCommand bot (String c (trim input))),
       fmap args (parseCommand bot (String c (trim input)))).
Proof.
  intros Hp Hc Hno.
  assert (∀ f : Parsed → Outcome,
            match parseCommand bot input with Some p => f p | None => Threw end
            = match parseCommand bot (String c (trim input)) with
              | Some p => f {| raw := input; hasPrefix := false;
                               commandAlias := commandAlias p; args := args p;
                               fullArgs := fullArgs p |}
              | None => Threw end) as Hsame.
  { intros f. unfold parseCommand.
    rewrite (trim_prefixed c (trim input) Hc (ends_with_space_trimEnd _)).
    rewrite Hno, Hp, startsWith_unit. cbn [slice1].
    by destruct (split_spaces (trim input)). }
  split.
  - unfold execute. rewrite Hsame.
    by destruct (parseCommand bot (String c (trim input))).
  - unfold parseCommand.
    rewrite (trim_prefixed c (trim input) Hc (ends_with_space_trimEnd _)).
    rewrite Hno, Hp, startsWith_unit. cbn [slice1].
    by destruct (split_spaces (trim input)).
Qed.

(** ** On concrete inputs *)

(** X12 at the key [info]. *)
Lemma names_and_aliases_lost_witness :
  "info" ∈ ["info"; "?"] ∧
  JSMap.get "info" (aliases_of (new_ComandanteBot None)) = Some "help".
Proof.
  assert ("info" ∈ ["info"; "?"]) as Hin by apply list_elem_of_here.
  split; [done|].
  exact (proj2 (proj1 (names_and_aliases_lost None) "info") Hin).
Defined.

(** X13 at the input [/constructor]. *)
Lemma execute_throws_on_inherited_names_witness :
  let bot := new_ComandanteBot None in
  execute bot "/constructor" = Threw ∧
  ∃ parsed, parseCommand bot "/constructor" = Some parsed ∧
            commandAlias parsed ∈ ["constructor"; "__proto__"].
Proof.
  intros bot.
  assert (execute bot "/constructor" = Threw) as Hthrew by reflexivity.
  split; [done|].
  exact (proj1 (execute_throws_on_inherited_names None "/constructor") Hthrew).
Defined.

(** X14 at the name [Constructor]. *)
Lemma hasCommand_and_getCommand_witness :
  let bot := new_ComandanteBot None in
  toLowerCase "Constructor" ∈ ["constructor"; "__proto__"] ∧
  hasCommand bot "Constructor" = true ∧
  getCommand bot "Constructor" = None.
Proof.
  intros bot.
  assert (toLowerCase "Constructor" ∈ ["constructor"; "__proto__"]) as Hin
    by apply list_elem_of_here.
  split; [done|]. split.
  - exact (proj2 (proj1 (hasCommand_and_getCommand None "Constructor")) (or_intror Hin)).
  - exact (proj2 (hasCommand_and_getCommand None "Constructor") Hin).
Defined.

(** X15 at the input [/help me]. *)
Lemma help_runs_support_witness :
  let bot := new_ComandanteBot None in
  let parsed := {| raw := "/help me"; hasPrefix := true; commandAlias := "help";
                   args := ["me"]; fullArgs := "me" |} in
  (parseCommand bot "/help me" = Some parsed ∧ commandAlias parsed = "help") ∧
  execute bot "/help me" = Called "support" handleSupport ["me"] "me".
Proof.
  intros bot parsed.
  assert (parseCommand bot "/help me" = Some parsed) as Hp by reflexivity.
  assert (commandAlias parsed = "help") as Ha by reflexivity.
  split; [done|].
  exact (help_runs_support None "/help me" parsed Hp Ha).
Defined.

(** X16 at the input [help]. *)
Lemma empty_prefix_eats_first_unit_witness :
  has_space "help" = false ∧
  let bot := new_ComandanteBot (Some "") in
  prefix bot = "" ∧
  parseCommand bot "help"
    = Some {| raw := "help"; hasPrefix := true; commandAlias := toLowerCase "elp";
              args := []; fullArgs := "" |}.
Proof.
  assert (has_space "help" = false) as Hs by reflexivity.
  split; [done|].
  exact (empty_prefix_eats_first_unit "h" "elp" Hs).
Defined.

(** X17 at an input without the prefix. *)
Lemma prefix_is_optional_witness :
  let bot := new_ComandanteBot None in
  (prefix bot = "/" ∧ is_space "/" = false ∧
   startsWith (trim "  status 42 ") (prefix bot) = false) ∧
  execute bot "  status 42 " = execute bot "/status 42".
Proof.
  intros bot.
  assert (prefix bot = "/") as Hp by reflexivity.
  assert (is_space "/" = false) as Hc by reflexivity.
  assert (startsWith (trim "  status 42 ") (prefix bot) = false) as Hno by reflexivity.
  split; [done|].
  exact (proj1 (prefix_is_optional bot "/" "  status 42 " Hp Hc Hno)).
Defined.

End ComandanteProps.


(** * The conversation bot: properties *)

Module PorteroProps.
Import Portero.
#[local] Open Scope string_scope.
#[local] Open Scope list_scope.

Section Facts.
Context {V : Type}.

#[local] Abbreviation Bot := (Bot V).
#[local] Abbreviation plain_bot := (@Portero.plain_bot V).

Implicit Types (bot : Bot) (ops : list (@Op V)).

(** ** The moves *)

Lemma if_handler_spec handler outcome bot o :
  if_handler handler outcome bot = Some o → o = handler_outcome handler outcome.
Proof.
  unfold if_handler, handler_outcome, _executeHandler.
  destruct handler as [h|]; [|by intros [= <-]].
  destruct (call h outcome); [by intros [= <-]|].
  destruct (_error bot); [|done]. cbn. by intros [= <-].
Qed.

Lemma transitionTo_catch_spec targetState nullish bot r bot' :
  transitionTo_catch targetState nullish bot = Some (r, bot') →
  r = (if nullish then PromiseRejected else Caught targetState) ∧ bot' = bot.
Proof.
  unfold transitionTo_catch. destruct (_error bot); [|done]. cbn. by intros [= <- <-].
Qed.

(** What [transitionTo] has done when it is through. *)
Lemma transitionTo_cases targetState ctx t_history t_result exit_outcome enter_outcome
    bot r bot' :
  transitionTo targetState ctx t_history t_result exit_outcome enter_outcome bot
    = Some (r, bot') →
  (¬ registered bot (currentState bot) ∧ r = Caught targetState ∧ bot' = bot) ∨
  ∃ st, JSMap.get (currentState bot) (states bot) = Some st ∧
    (((targetState ∉ allowedTransitions st) ∧
      r = NotAllowed (currentState bot) targetState ∧ bot' = bot) ∨
     (targetState ∈ allowedTransitions st ∧
      ((¬ registered bot targetState ∧
        r = NotFound (currentState bot) targetState ∧ bot' = bot) ∨
       ∃ newState, JSMap.get targetState (states bot) = Some newState ∧
         match handler_outcome (onExit st) exit_outcome with
         | Throws nullish =>
             r = (if nullish then PromiseRejected else Caught targetState) ∧ bot' = bot
         | Returns =>
             bot' = moved (currentState bot) targetState t_history ctx bot ∧
             match handler_outcome (onEnter newState) enter_outcome with
             | Throws nullish =>
                 r = if nullish then PromiseRejected else Caught targetState
             | Returns => r = Success (currentState bot) targetState t_result
             end
         end))).
Proof.
  unfold transitionTo, registered.
  destruct (JSMap.get (currentState bot) (states bot)) as [st|] eqn:Hst.
  - intros Ht. right. exists st. split; [done|].
    destruct (bool_decide (targetState ∈ allowedTransitions st)) eqn:Hal;
      cbn [negb] in Ht.
    + apply bool_decide_eq_true in Hal. right. split; [done|].
      destruct (JSMap.get targetState (states bot)) as [newState|] eqn:Hnew.
      * right. exists newState. split; [done|].
        destruct (if_handler (onExit st) exit_outcome bot) as [exited|] eqn:Hex;
          [|done].
        apply if_handler_spec in Hex as ->. cbn [mbind option_bind] in Ht.
        destruct (handler_outcome (onExit st) exit_outcome) as [|nullish].
        -- destruct (emit "state_transition" bot); [|done].
           cbn [mbind option_bind] in Ht.
           destruct (if_handler (onEnter newState) enter_outcome _) as [entered|] eqn:Hen;
             [|done].
           apply if_handler_spec in Hen as ->. cbn [mbind option_bind] in Ht.
           destruct (handler_outcome (onEnter newState) enter_outcome) as [|nullish].
           ++ by injection Ht as <- <-.
           ++ by apply transitionTo_catch_spec in Ht as [-> ->].
        -- by apply transitionTo_catch_spec in Ht as [-> ->].
      * left. destruct (_error bot); [|done]. cbn in Ht. injection Ht as <- <-.
        split_and!; [|done..]. by intros [? [=]].
    + apply bool_decide_eq_false in Hal. left.
      destruct (_error bot); [|done]. cbn in Ht. by injection Ht as <- <-.
  - intros [-> ->]%transitionTo_catch_spec. left. split_and!; [|done..].
    by intros [? [=]].
Qed.

(** [transitionTo] leaves the bot as it is or moves it to a state that is
    registered. *)
Lemma transitionTo_frame targetState ctx t_history t_result exit_outcome enter_outcome
    bot r bot' :
  transitionTo targetState ctx t_history t_result exit_outcome enter_outcome bot
    = Some (r, bot') →
  bot' = bot ∨
  (registered bot targetState ∧
   bot' = moved (currentState bot) targetState t_history ctx bot).
Proof.
  intros Ht.
  destruct (transitionTo_cases _ _ _ _ _ _ _ _ _ Ht)
    as [(_ & _ & ->)|(st & Hst & [(_ & _ & ->)|(Hal & [(_ & _ & ->)|(newState & Hnew & H)])])];
    [by left..|].
  destruct (handler_outcome (onExit st) exit_outcome).
  - destruct H as [-> _]. right. split; [by eexists|done].
  - destruct H as [_ ->]. by left.
Qed.

Lemma getOrCreateConversation_frame user t_start t_last sid bot :
  let bot' := (getOrCreateConversation user t_start t_last sid bot).2 in
  states bot' = states bot ∧ currentState bot' = currentState bot ∧
  previousState bot' = previousState bot ∧ flowHistory bot' = flowHistory bot ∧
  eventHandlers bot' = eventHandlers bot ∧ initialState bot' = initialState bot.
Proof. done. Qed.

(** What the calls on conversations leave alone. *)
Lemma apply_op_frame bot op bot' :
  apply_op bot op = Some bot' →
  match op with
  | OpGetOrCreateConversation _ _ _ _ | OpAddMessage _ _ _ _ _ _ _ _
  | OpUpdateConversationContext _ _ _ _ _ | OpClearConversation _ =>
      states bot' = states bot ∧ currentState bot' = currentState bot ∧
      previousState bot' = previousState bot ∧ flowHistory bot' = flowHistory bot ∧
      eventHandlers bot' = eventHandlers bot ∧ initialState bot' = initialState bot
  | _ => True
  end.
Proof.
  destruct op; cbn [apply_op]; try done.
  - by intros [= <-].
  - unfold addMessage. cbn. destruct (emit _ _); [|done]. cbn. by intros [= <-].
  - unfold updateConversationContext. cbn. destruct (emit _ _); [|done]. cbn.
    by intros [= <-].
  - by intros [= <-].
Qed.

Lemma reset_cases t_history t_result exit_outcome enter_outcome bot r bot' :
  reset t_history t_result exit_outcome enter_outcome bot = Some (r, bot') →
  ∃ bot1, transitionTo (initialState bot) ResetContext t_history t_result
            exit_outcome enter_outcome bot = Some (r, bot1) ∧
          match r with
          | PromiseRejected => bot' = bot1
          | _ => bot' = {| name := name bot1; version := version bot1;
                           initialState := initialState bot1; states := states bot1;
                           currentState := currentState bot1;
                           previousState := previousState bot1;
                           conversations := []; flowHistory := [];
                           eventHandlers := eventHandlers bot1 |}
          end.
Proof.
  unfold reset.
  destruct (transitionTo _ _ _ _ _ _ bot) as [[r1 bot1]|]; [|done].
  cbn [mbind option_bind]. destruct r1.
  5: { destruct (_error bot1); [|done]. cbn. intros [= <- <-]. by exists bot1. }
  all: intros [= <- <-]; by exists bot1.
Qed.

(** [reset] keeps the states, and the state it leaves the bot in is one
    that [transitionTo] left it in. *)
Lemma reset_frame t_history t_result exit_outcome enter_outcome bot r bot' :
  reset t_history t_result exit_outcome enter_outcome bot = Some (r, bot') →
  ∃ bot1, (bot1 = bot ∨
           (registered bot (initialState bot) ∧
            bot1 = moved (currentState bot) (initialState bot) t_history ResetContext bot)) ∧
          states bot' = states bot1 ∧ currentState bot' = currentState bot1 ∧
          previousState bot' = previousState bot1 ∧
          (bot' = bot1 ∨ (conversations bot' = [] ∧ flowHistory bot' = [])).
Proof.
  intros Hr. destruct (reset_cases _ _ _ _ _ _ _ Hr) as (bot1 & Ht & Hb).
  exists bot1. split; [by eapply transitionTo_frame|].
  destruct r; subst bot'; split_and!; try done; by (left + right).
Qed.

Lemma apply_op_registered bot op bot' :
  registered bot (currentState bot) → apply_op bot op = Some bot' →
  registered bot' (currentState bot').
Proof.
  intros Hreg Hop. pose proof (apply_op_frame _ _ _ Hop) as Hframe.
  destruct op; cbn [apply_op] in Hop;
    try (destruct Hframe as (Hs & Hc & _); unfold registered; by rewrite Hs, Hc).
  - injection Hop as <-. by apply JSMap_get_set_is_Some.
  - unfold onEnterState in Hop. destruct (JSMap.get _ _); [|done].
    injection Hop as <-. by apply JSMap_get_set_is_Some.
  - unfold onExitState in Hop. destruct (JSMap.get _ _); [|done].
    injection Hop as <-. by apply JSMap_get_set_is_Some.
  - by injection Hop as <-.
  - destruct (transitionTo _ _ _ _ _ _ bot) as [[r b]|] eqn:Ht; [|done].
    injection Hop as <-.
    destruct (transitionTo_frame _ _ _ _ _ _ _ _ _ Ht) as [->|[Hr ->]]; done.
  - destruct (reset _ _ _ _ bot) as [[r b]|] eqn:Hr; [|done]. injection Hop as <-.
    destruct (reset_frame _ _ _ _ _ _ _ Hr) as (bot1 & Hb1 & Hs & Hc & _).
    unfold registered. rewrite Hs, Hc. by destruct Hb1 as [->|[Hr' ->]].
Qed.

Lemma apply_ops_registered ops : ∀ bot bot',
  registered bot (currentState bot) → apply_ops ops bot = Some bot' →
  registered bot' (currentState bot').
Proof.
  induction ops as [|op ops IH]; intros bot bot' Hreg; cbn [apply_ops].
  - by intros [= <-].
  - destruct (apply_op bot op) as [bot1|] eqn:Hop; [|done]. cbn.
    apply IH. by eapply apply_op_registered.
Qed.

(** The states that the constructor registers are those of [finalStates]. *)
Lemma foldl_registerState_get (l : list (string * StateConfig V)) : ∀ bot k,
  is_Some (JSMap.get k (states bot)) ∨ is_Some (JSMap.get k l) ↔
  is_Some (JSMap.get k (states (foldl (λ b e, registerState e.1 e.2 b) bot l))).
Proof.
  induction l as [|[k1 c1] l IH]; intros bot k; cbn [foldl].
  - split; [intros [?|[? [=]]]; done|by left].
  - rewrite <-IH. cbn [registerState set_states states fst snd JSMap.get].
    destruct (String.eqb_spec k1 k) as [->|Hne].
    + rewrite JSMap_get_set. split; intros _; [left|right]; by eexists.
    + by rewrite JSMap_get_set_ne.
Qed.

Lemma foldl_registerState_frame (l : list (string * StateConfig V)) : ∀ bot,
  let bot' := foldl (λ b e, registerState e.1 e.2 b) bot l in
  currentState bot' = currentState bot ∧ previousState bot' = previousState bot ∧
  conversations bot' = conversations bot ∧ flowHistory bot' = flowHistory bot ∧
  eventHandlers bot' = eventHandlers bot ∧ initialState bot' = initialState bot.
Proof.
  induction l as [|e l IH]; intros bot; [done|].
  cbn [foldl]. destruct (IH (registerState e.1 e.2 bot)) as (H1 & H2 & H3 & H4 & H5 & H6).
  cbn zeta. by rewrite H1, H2, H3, H4, H5, H6.
Qed.

Lemma new_PorteroBot_frame (config : Config V) :
  let bot := new_PorteroBot config in
  currentState bot = or_string (cfg_initialState config) "idle" ∧
  previousState bot = None ∧ conversations bot = [] ∧ flowHistory bot = [] ∧
  eventHandlers bot = [] ∧ initialState bot = or_string (cfg_initialState config) "idle".
Proof.
  cbn zeta. unfold new_PorteroBot, _initializeStates.
  match goal with |- context [foldl _ ?b ?l] =>
    destruct (foldl_registerState_frame l b) as (H1 & H2 & H3 & H4 & H5 & H6) end.
  by rewrite H1, H2, H3, H4, H5, H6.
Qed.

Lemma new_PorteroBot_registered (config : Config V) k :
  registered (new_PorteroBot config) k ↔
  is_Some (JSMap.get k (finalStates (cfg_states config))).
Proof.
  unfold registered, new_PorteroBot, _initializeStates.
  rewrite <-foldl_registerState_get, Object_entries_get_is_Some. cbn.
  split; [|by right]. by intros [[? [=]]|?].
Qed.

(** X18. A bot whose initial state is one of the states it is made with
    is always in a state it knows: after any calls, the current state is in
    [this.states]. On such a bot [transitionTo] ends in its [catch], with the
    error result or a rejected promise, exactly when the move is allowed, the
    target is registered and the [onExit] handler of the current state or the
    [onEnter] handler of the target throws; otherwise it moves, or answers
    that the move is not allowed or that the target is not found. The calls
    spoken of are those that run no listener registered with [on]. *)
Theorem current_state_stays_registered config ops bot' :
  is_Some (JSMap.get (or_string (cfg_initialState config) "idle")
             (finalStates (cfg_states config))) →
  apply_ops ops (new_PorteroBot config) = Some bot' →
  registered bot' (currentState bot') ∧
  ∀ targetState ctx t_history t_result exit_outcome enter_outcome r bot'',
    transitionTo targetState ctx t_history t_result exit_outcome enter_outcome bot'
      = Some (r, bot'') →
    (r = Caught targetState ∨ r = PromiseRejected) ↔
    ∃ st newState,
      JSMap.get (currentState bot') (states bot') = Some st ∧
      targetState ∈ allowedTransitions st ∧
      JSMap.get targetState (states bot') = Some newState ∧
      (handler_outcome (onExit st) exit_outcome ≠ Returns ∨
       handler_outcome (onEnter newState) enter_outcome ≠ Returns).
Proof.
  intros Hinit Hops.
  assert (registered bot' (currentState bot')) as Hreg.
  { eapply apply_ops_registered; [|done]. apply new_PorteroBot_registered.
    by destruct (new_PorteroBot_frame config) as (-> & _). }
  split; [done|].
  intros targetState ctx t_history t_result exit_outcome enter_outcome r bot'' Ht.
  destruct (transitionTo_cases _ _ _ _ _ _ _ _ _ Ht)
    as [(Hn & _)|(st & Hst & [(Hal & -> & _)|(Hal & [(Hn & -> & _)|(newState & Hnew & H)])])].
  - done.
  - split; [by intros [|]|]. intros (st' & _ & Hst' & Hal' & _).
    rewrite Hst in Hst'. by injection Hst' as <-.
  - split; [by intros [|]|]. intros (_ & newState & _ & _ & Hnew & _).
    destruct Hn. by eexists.
  - split.
    + intros Hr. exists st, newState. split_and!; [done..|].
      destruct (handler_outcome (onExit st) exit_outcome); [|by left].
      destruct H as [_ H].
      destruct (handler_outcome (onEnter newState) enter_outcome); [|by right].
      subst r. by destruct Hr.
    + intros (st' & newState' & Hst' & _ & Hnew' & Hthrows).
      rewrite Hst in Hst'. injection Hst' as <-.
      rewrite Hnew in Hnew'. injection Hnew' as <-.
      destruct (handler_outcome (onExit st) exit_outcome) as [|nullish].
      * destruct H as [_ H].
        destruct (handler_outcome (onEnter newState) enter_outcome) as [|nullish].
        -- by destruct Hthrows.
        -- subst r. destruct nullish; by (left + right).
      * destruct H as [-> _]. destruct nullish; by (left + right).
Qed.

(** X19. A bot made with an initial state that is not among its states
    cannot move: every [transitionTo] ends in the [catch] and leaves the bot
    as it is, whatever the target. *)
Theorem unknown_initial_state_blocks_moves (config : Config V)
    targetState ctx t_history t_result exit_outcome enter_outcome :
  JSMap.get (or_string (cfg_initialState config) "idle")
    (finalStates (cfg_states config)) = None →
  transitionTo targetState ctx t_history t_result exit_outcome enter_outcome
    (new_PorteroBot config)
    = Some (Caught targetState, new_PorteroBot config).
Proof.
  intros Hnone.
  destruct (new_PorteroBot_frame config) as (Hc & _ & _ & _ & He & _).
  assert (JSMap.get (currentState (new_PorteroBot config))
            (states (new_PorteroBot config)) = None) as Hg.
  { destruct (JSMap.get _ (states (new_PorteroBot config))) as [st|] eqn:Hst; [|done].
    assert (registered (new_PorteroBot config) (currentState (new_PorteroBot config)))
      as Hreg by (by eexists).
    apply new_PorteroBot_registered in Hreg.
    rewrite Hc, Hnone in Hreg. by destruct Hreg. }
  unfold transitionTo, transitionTo_catch, _error, emit. by rewrite Hg, He.
Qed.








(** ** The states of the source *)


Lemma plain_states_keys : JSMap.keys (states plain_bot) = default_names.
Proof. done. Qed.

Lemma plain_states_quiet st :
  st ∈ (states plain_bot).*2 →
  onEnter st = None ∧ onExit st = None ∧
  Forall (λ t, t ∈ default_names) (allowedTransitions st).
Proof.
  cbn. intros Hin.
  repeat (apply elem_of_cons in Hin as [->|Hin];
          [split_and!; [done..|]; cbn;
           repeat (apply Forall_cons; split; [set_solver|]); apply Forall_nil_2|]).
  by apply elem_of_nil in Hin.
Qed.

Lemma plain_get_quiet k st :
  JSMap.get k (states plain_bot) = Some st →
  onEnter st = None ∧ onExit st = None ∧
  Forall (λ t, t ∈ default_names) (allowedTransitions st).
Proof.
  intros H%JSMap_get_elem_of. apply plain_states_quiet.
  by apply (list_elem_of_fmap_2 snd _ (k, st)).
Qed.

Lemma plain_get_name k : k ∈ default_names → is_Some (JSMap.get k (states plain_bot)).
Proof.
  intros Hin. unfold default_names in Hin.
  repeat (apply elem_of_cons in Hin as [->|Hin]; [by eexists|]).
  by apply elem_of_nil in Hin.
Qed.

Lemma plain_transitionTo targetState ctx t_history t_result exit_outcome enter_outcome
    bot :
  plain_inv bot →
  ∃ r bot', transitionTo targetState ctx t_history t_result exit_outcome enter_outcome bot
              = Some (r, bot') ∧
            r ≠ PromiseRejected ∧ plain_inv bot'.
Proof.
  intros (Hs & He & Hi & Hc). unfold transitionTo, _error, emit. rewrite Hs, He. cbn [JSMap.get].
  destruct (plain_get_name _ Hc) as [st Hst]. rewrite Hst.
  destruct (plain_get_quiet _ _ Hst) as (Hen & Hex & Hal).
  destruct (bool_decide (targetState ∈ allowedTransitions st)) eqn:Hb; cbn [negb].
  - apply bool_decide_eq_true in Hb. rewrite Forall_forall in Hal.
    destruct (plain_get_name _ (Hal _ Hb)) as [newState Hnew]. rewrite Hnew, Hex.
    destruct (plain_get_quiet _ _ Hnew) as (Hen' & _ & _). rewrite Hen'.
    cbn [if_handler mbind option_bind].
    eexists _, _. split; [done|]. split; [done|].
    unfold plain_inv, moved. cbn. split_and!; [done..|]. auto.
  - cbn. eexists _, _. split; [done|]. done.
Qed.

Lemma plain_apply_op bot op :
  plain_inv bot → registers_nothing op = true →
  ∃ bot', apply_op bot op = Some bot' ∧ plain_inv bot'.
Proof.
  intros Hinv Hop. pose proof Hinv as (Hs & He & Hi & Hc).
  destruct op; try done; cbn [apply_op].
  - destruct (plain_transitionTo targetState (GivenContext context0) t_history t_result
                exit_outcome enter_outcome bot Hinv) as (r & bot' & -> & _ & Hinv').
    by exists bot'.
  - unfold reset.
    destruct (plain_transitionTo (initialState bot) ResetContext t_history t_result
                exit_outcome enter_outcome bot Hinv) as (r & bot' & -> & Hr & Hinv').
    cbn [mbind option_bind]. destruct Hinv' as (? & ? & ? & ?).
    destruct r; [by eexists..|done].
  - by eexists.
  - unfold addMessage. cbn. unfold emit. cbn [eventHandlers set_conversations].
    rewrite He. cbn. by eexists.
  - unfold updateConversationContext. cbn. unfold emit.
    cbn [eventHandlers set_conversations]. rewrite He. cbn. by eexists.
  - by eexists.
Qed.

Lemma plain_apply_ops ops : ∀ bot,
  plain_inv bot → Forall (λ op, registers_nothing op = true) ops →
  ∃ bot', apply_ops ops bot = Some bot' ∧ plain_inv bot'.
Proof.
  induction ops as [|op ops IH]; intros bot Hinv Hall; cbn [apply_ops].
  - by exists bot.
  - apply Forall_cons in Hall as [Hop Hall].
    destruct (plain_apply_op bot op Hinv Hop) as (bot1 & -> & Hinv1). cbn.
    by apply IH.
Qed.

Lemma plain_bot_inv : plain_inv plain_bot.
Proof. unfold plain_inv. split_and!; [done..|]. apply list_elem_of_here. Qed.

Lemma plain_allows_idle k st :
  JSMap.get k (states plain_bot) = Some st →
  bool_decide ("idle" ∈ allowedTransitions st) = negb (String.eqb k "idle").
Proof.
  intros Hget.
  assert (k ∈ default_names) as Hk.
  { rewrite <-plain_states_keys. apply JSMap_get_is_Some. by eexists. }
  unfold default_names in Hk.
  repeat (apply elem_of_cons in Hk as [->|Hk];
          [vm_compute in Hget; injection Hget as <-; by vm_compute|]).
  by apply elem_of_nil in Hk.
Qed.

Lemma plain_reset t_history t_result exit_outcome enter_outcome bot :
  plain_inv bot →
  ∃ bot',
    reset t_history t_result exit_outcome enter_outcome bot
      = Some (if decide (currentState bot = "idle") then NotAllowed "idle" "idle"
              else Success (currentState bot) "idle" t_result, bot') ∧
    currentState bot' = "idle".
Proof.
  intros (Hs & He & Hi & Hc).
  unfold reset, transitionTo, _error, emit. rewrite Hs, He, Hi. cbn [JSMap.get].
  destruct (plain_get_name _ Hc) as [st Hst]. rewrite Hst.
  destruct (plain_get_quiet _ _ Hst) as (Hen & Hex & Hal).
  rewrite (plain_allows_idle _ _ Hst).
  destruct (String.eqb_spec (currentState bot) "idle") as [Hidle|Hidle]; cbn [negb].
  - rewrite decide_True by done. cbn [mbind option_bind]. rewrite Hidle.
    eexists. split; [done|]. done.
  - rewrite decide_False by done.
    assert ("idle" ∈ default_names) as Hin by apply list_elem_of_here.
    destruct (plain_get_name _ Hin) as [newState Hnew]. rewrite Hnew, Hex.
    destruct (plain_get_quiet _ _ Hnew) as (Hen' & _ & _). rewrite Hen'.
    cbn [if_handler mbind option_bind]. eexists. split; [done|]. done.
Qed.

(** X22. The bot made without [config], used without registering any
    state, handler or listener: every call goes through, and [reset] always
    leaves the bot in [idle]. From any other state [reset] reports the move to
    [idle]; in [idle] it reports that the move from [idle] to [idle] is not
    allowed. *)
Theorem plain_bot_reset ops t_history t_result exit_outcome enter_outcome :
  Forall (λ op, registers_nothing op = true) ops →
  ∃ bot r bot',
    apply_ops ops plain_bot = Some bot ∧
    reset t_history t_result exit_outcome enter_outcome bot = Some (r, bot') ∧
    currentState bot' = "idle" ∧
    r = if decide (currentState bot = "idle") then NotAllowed "idle" "idle"
        else Success (currentState bot) "idle" t_result.
Proof.
  intros Hall.
  destruct (plain_apply_ops ops plain_bot plain_bot_inv Hall) as (bot & Hops & Hinv).
  destruct (plain_reset t_history t_result exit_outcome enter_outcome bot Hinv)
    as (bot' & Hr & Hc).
  exists bot. eexists _, bot'. by split_and!.
Qed.

(** ** The history *)

Lemma slice_from_negative {A} (l : list A) (start : Z) :
  (start < 0)%Z → slice_from start l = drop (length l - Z.to_nat (- start)) l.
Proof.
  intros Hneg. unfold slice_from. destruct (Z.ltb_spec start 0); [|lia]. f_equal. lia.
Qed.

Lemma slice_from_positive {A} (l : list A) (start : Z) :
  (0 ≤ start)%Z → slice_from start l = drop (Z.to_nat start) l.
Proof. intros Hpos. unfold slice_from. by destruct (Z.ltb_spec start 0); [lia|]. Qed.

(** X23. [getFlowHistory] with a limit above zero returns the last moves
    of the history, as many as the limit when there are that many; without a
    limit it returns the last fifty. With the limit zero it returns the whole
    history, not an empty list, and with a limit below zero it drops that many
    moves from the start. *)
Theorem getFlowHistory_limits bot (limit : Z) :
  let h := flowHistory bot in
  ((0 < limit)%Z →
     getFlowHistory (Some limit) bot = drop (length h - Z.to_nat limit) h ∧
     length (getFlowHistory (Some limit) bot) = min (Z.to_nat limit) (length h)) ∧
  getFlowHistory (Some 0%Z) bot = h ∧
  ((limit < 0)%Z → getFlowHistory (Some limit) bot = drop (Z.to_nat (- limit)) h) ∧
  getFlowHistory None bot = drop (length h - 50) h.
Proof.
  intros h. unfold getFlowHistory. fold h.
  change (default 50%Z (Some limit)) with limit.
  split; [|split; [|split]].
  - intros Hpos. rewrite slice_from_negative by lia.
    rewrite Z.opp_involutive. split; [done|]. rewrite length_drop. lia.
  - reflexivity.
  - intros Hneg. by rewrite slice_from_positive by lia.
  - change (default 50%Z None) with 50%Z. rewrite slice_from_negative by lia.
    f_equal.
Qed.

(** ** The conversations *)

Lemma Forall_JSMap_set {A} (P : string * A → Prop) k v (m : list (string * A)) :
  Forall P m → P (k, v) → Forall P (JSMap.set k v m).
Proof.
  intros Hm Hv. apply Forall_forall. intros [k' v'] Hin.
  destruct (JSMap_elem_of_set _ _ _ _ _ Hin) as [->|[Hin' _]]; [done|].
  rewrite Forall_forall in Hm. by apply Hm.
Qed.


Lemma getOrCreateConversation_ok user t_start t_last sid bot :
  conversations_ok bot →
  let r := getOrCreateConversation user t_start t_last sid bot in
  conversations_ok r.2 ∧ userId r.1 = user ∧ messageCount r.1 = length (messages r.1).
Proof.
  intros [Hnd Hall]. unfold getOrCreateConversation. cbn zeta.
  assert (userId (match JSMap.get user (conversations bot) with
                  | Some c => c
                  | None => mkConversation user t_start t_start 0 [] []
                              (initialState bot) sid end) = user ∧
          messageCount (match JSMap.get user (conversations bot) with
                  | Some c => c
                  | None => mkConversation user t_start t_start 0 [] []
                              (initialState bot) sid end)
          = length (messages (match JSMap.get user (conversations bot) with
                  | Some c => c
                  | None => mkConversation user t_start t_start 0 [] []
                              (initialState bot) sid end))) as [Hu Hm].
  { destruct (JSMap.get user (conversations bot)) as [c|] eqn:Hg; [|done].
    apply JSMap_get_elem_of in Hg. rewrite Forall_forall in Hall.
    apply (Hall _ Hg). }
  cbn. split_and!; [|done..]. split.
  - by apply JSMap_set_NoDup.
  - by apply Forall_JSMap_set.
Qed.

Lemma apply_op_conversations_ok bot op bot' :
  conversations_ok bot → apply_op bot op = Some bot' → conversations_ok bot'.
Proof.
  intros Hok Hop. destruct op; cbn [apply_op] in Hop.
  - by injection Hop as <-.
  - unfold onEnterState in Hop. destruct (JSMap.get _ _); [|done]. by injection Hop as <-.
  - unfold onExitState in Hop. destruct (JSMap.get _ _); [|done]. by injection Hop as <-.
  - by injection Hop as <-.
  - destruct (transitionTo _ _ _ _ _ _ bot) as [[r b]|] eqn:Ht; [|done].
    injection Hop as <-.
    destruct (transitionTo_frame _ _ _ _ _ _ _ _ _ Ht) as [->|[_ ->]]; done.
  - destruct (reset _ _ _ _ bot) as [[r b]|] eqn:Hr; [|done]. injection Hop as <-.
    destruct (reset_frame _ _ _ _ _ _ _ Hr) as (bot1 & Hb1 & _ & _ & _ & [->|[Hc Hh]]).
    + by destruct Hb1 as [->|[_ ->]].
    + unfold conversations_ok. rewrite Hc.
      split; [apply NoDup_nil_2|apply Forall_nil_2].
  - injection Hop as <-. by apply getOrCreateConversation_ok.
  - unfold addMessage in Hop.
    destruct (getOrCreateConversation_ok user t_start t_last sid bot Hok)
      as ([Hnd Hall] & Hu & Hm).
    destruct (getOrCreateConversation user t_start t_last sid bot) as [conv bot1].
    cbn [fst snd] in *. destruct (emit _ _); [|done]. cbn in Hop. injection Hop as <-.
    split; cbn [conversations set_conversations].
    + by apply JSMap_set_NoDup.
    + apply Forall_JSMap_set; [done|]. cbn. split; [done|].
      rewrite length_app. cbn. lia.
  - unfold updateConversationContext in Hop.
    destruct (getOrCreateConversation_ok user t_start t_last sid bot Hok)
      as ([Hnd Hall] & Hu & Hm).
    destruct (getOrCreateConversation user t_start t_last sid bot) as [conv bot1].
    cbn [fst snd] in *. destruct (emit _ _); [|done]. cbn in Hop. injection Hop as <-.
    split; cbn [conversations set_conversations].
    + by apply JSMap_set_NoDup.
    + by apply Forall_JSMap_set.
  - injection Hop as <-. destruct Hok as [Hnd Hall]. split; cbn.
    + by apply JSMap_delete_NoDup.
    + apply Forall_forall. intros e He. rewrite Forall_forall in Hall. apply Hall.
      eapply elem_of_sublist; [done|]. apply JSMap_delete_sublist.
Qed.

Lemma apply_ops_conversations_ok ops : ∀ bot bot',
  conversations_ok bot → apply_ops ops bot = Some bot' → conversations_ok bot'.
Proof.
  induction ops as [|op ops IH]; intros bot bot' Hok; cbn [apply_ops].
  - by intros [= <-].
  - destruct (apply_op bot op) as [bot1|] eqn:Hop; [|done]. cbn.
    apply IH. by eapply apply_op_conversations_ok.
Qed.

Lemma new_PorteroBot_conversations_ok (config : Config V) :
  conversations_ok (new_PorteroBot config).
Proof.
  destruct (new_PorteroBot_frame config) as (_ & _ & Hc & _).
  unfold conversations_ok. rewrite Hc. split; [apply NoDup_nil_2|apply Forall_nil_2].
Qed.

Lemma foldl_messageCount (l : list (string * Conversation V)) : ∀ n,
  Forall (λ e, messageCount e.2 = length (messages e.2)) l →
  foldl (λ n e, n + messageCount e.2) n l
    = n + sum_list (length ∘ messages ∘ snd <$> l).
Proof.
  induction l as [|e l IH]; intros n Hall; cbn [foldl]; [cbn; lia|].
  apply Forall_cons in Hall as [He Hall]. rewrite IH by done. cbn. rewrite He. lia.
Qed.

(** X24. The count of a conversation is the number of its messages.
    After any calls on a new bot, every conversation is kept under the id of
    its user, its [messageCount] is the length of its [messages], and
    [totalMessages] of [getStatistics] is the number of all messages kept. *)
Theorem message_counts_agree (config : Config V) ops bot' :
  apply_ops ops (new_PorteroBot config) = Some bot' →
  Forall (λ e, userId e.2 = e.1 ∧ messageCount e.2 = length (messages e.2))
         (conversations bot') ∧
  NoDup (JSMap.keys (conversations bot')) ∧
  totalMessages (getStatistics bot')
    = sum_list (length ∘ messages ∘ snd <$> conversations bot') ∧
  activeConversations (getStatistics bot') = length (conversations bot').
Proof.
  intros Hops.
  destruct (apply_ops_conversations_ok _ _ _ (new_PorteroBot_conversations_ok config) Hops)
    as [Hnd Hall].
  split_and!; [done|done| |done].
  cbn [getStatistics totalMessages]. rewrite foldl_messageCount; [lia|].
  eapply Forall_impl; [done|]. by intros e [_ ?].
Qed.

(** X25. [addMessage] on any bot without listeners for its event: the
    message is put at the end of the messages the user had, the index
    returned is the place of the message, and the conversations of the other
    users are what they were. *)
Theorem addMessage_appends user role content meta t_start t_last t_message sid bot idx bot' :
  addMessage user role content meta t_start t_last t_message sid bot = Some (idx, bot') →
  ∃ conv,
    getConversation user bot' = Some conv ∧
    messages conv
      = default [] (messages <$> getConversation user bot)
          ++ [mkChatMessage role content t_message meta] ∧
    (0 ≤ idx)%Z ∧
    messages conv !! Z.to_nat idx = Some (mkChatMessage role content t_message meta) ∧
    lastMessageTime conv = t_last ∧
    ∀ other, other ≠ user → getConversation other bot' = getConversation other bot.
Proof.
  unfold addMessage, getOrCreateConversation, getConversation. cbn zeta.
  set (conv0 := match JSMap.get user (conversations bot) with
                | Some c => c
                | None => mkConversation user t_start t_start 0 [] []
                            (initialState bot) sid end).
  destruct (emit _ _); [|done]. cbn [mbind option_bind].
  intros [= <- <-]. cbn [conversations set_conversations].
  eexists. split; [apply JSMap_get_set|]. cbn [messages lastMessageTime].
  assert (Z.to_nat (Z.of_nat (length (messages conv0
                       ++ [mkChatMessage role content t_message meta])) - 1)
          = length (messages conv0)) as Hidx.
  { rewrite length_app. cbn [length]. lia. }
  split_and!.
  - unfold conv0. by destruct (JSMap.get user (conversations bot)).
  - rewrite length_app. cbn [length]. lia.
  - rewrite Hidx. by rewrite list_lookup_middle.
  - done.
  - intros other Hne. by rewrite !JSMap_get_set_ne.
Qed.

(** X26. [clearConversation] after any calls on a new bot: it returns
    [true] exactly when the user had a conversation; afterwards the user has
    none, the other users keep theirs, and a second call returns [false] and
    changes nothing. *)
Theorem clearConversation_forgets (config : Config V) ops bot user :
  apply_ops ops (new_PorteroBot config) = Some bot →
  let r := clearConversation user bot in
  (r.1 = true ↔ is_Some (getConversation user bot)) ∧
  getConversation user r.2 = None ∧
  (∀ other, other ≠ user → getConversation other r.2 = getConversation other bot) ∧
  clearConversation user r.2 = (false, r.2).
Proof.
  intros Hops r.
  destruct (apply_ops_conversations_ok _ _ _ (new_PorteroBot_conversations_ok config) Hops)
    as [Hnd _].
  assert (getConversation user r.2 = None) as Hgone.
  { unfold getConversation. cbn. by apply JSMap_get_delete. }
  split_and!.
  - unfold r, clearConversation, getConversation. cbn [fst]. apply bool_decide_eq_true.
  - done.
  - intros other Hne. unfold getConversation. cbn. by apply JSMap_get_delete_ne.
  - unfold clearConversation at 1. unfold getConversation in Hgone.
    rewrite Hgone, (JSMap_delete_absent _ _ Hgone).
    rewrite bool_decide_eq_false_2 by (by intros [? [=]]).
    by destruct r.2.
Qed.

End Facts.
(** ** On concrete bots *)

(** X18 on the bot with the two handlers, when the handler for leaving
    [greeting] throws an error. *)
Lemma current_state_stays_registered_witness :
  let config := mkConfig (V:=unit) None None None [] in
  (is_Some (JSMap.get (or_string (cfg_initialState config) "idle")
              (finalStates (cfg_states config))) ∧
   apply_ops guarded_ops (new_PorteroBot config) = Some guarded_bot ∧
   transitionTo "processing" (GivenContext ()) 6 7 (Throws false) Returns guarded_bot
     = Some (Caught "processing", guarded_bot)) ∧
  registered guarded_bot (currentState guarded_bot) ∧
  ∃ st newState,
    JSMap.get (currentState guarded_bot) (states guarded_bot) = Some st ∧
    "processing" ∈ allowedTransitions st ∧
    JSMap.get "processing" (states guarded_bot) = Some newState ∧
    (handler_outcome (onExit st) (Throws false) ≠ Returns ∨
     handler_outcome (onEnter newState) Returns ≠ Returns).
Proof.
  intros config.
  assert (is_Some (JSMap.get (or_string (cfg_initialState config) "idle")
                     (finalStates (cfg_states config)))) as Hinit
    by (eexists; vm_compute; reflexivity).
  assert (apply_ops guarded_ops (new_PorteroBot config) = Some guarded_bot) as Hops
    by (vm_compute; reflexivity).
  assert (transitionTo "processing" (GivenContext ()) 6 7 (Throws false) Returns guarded_bot
          = Some (Caught "processing", guarded_bot)) as Ht
    by (vm_compute; reflexivity).
  split; [done|]. split.
  - exact (proj1 (current_state_stays_registered config guarded_ops guarded_bot Hinit Hops)).
  - exact (proj1 (proj2 (current_state_stays_registered config guarded_ops guarded_bot
                           Hinit Hops)
                    "processing" (GivenContext ()) 6 7 (Throws false) Returns
                    (Caught "processing") guarded_bot Ht)
             (or_introl eq_refl)).
Defined.

(** X19 on a bot made with the initial state [lobby]. *)
Lemma unknown_initial_state_blocks_moves_witness :
  let config := mkConfig (V:=unit) None None (Some "lobby") [] in
  JSMap.get (or_string (cfg_initialState config) "idle")
    (finalStates (cfg_states config)) = None ∧
  transitionTo "idle" (GivenContext ()) 1 2 Returns Returns (new_PorteroBot config)
    = Some (Caught "idle", new_PorteroBot config).
Proof.
  intros config.
  assert (JSMap.get (or_string (cfg_initialState config) "idle")
            (finalStates (cfg_states config)) = None) as Hnone by (vm_compute; reflexivity).
  split; [done|].
  exact (unknown_initial_state_blocks_moves config "idle" (GivenContext ()) 1 2
           Returns Returns Hnone).
Defined.

Lemma three_moves_go_through :
  apply_ops three_moves plain_bot = Some after_three_moves.
Proof. vm_compute. reflexivity. Qed.



(** X22 after the three moves. *)
Lemma plain_bot_reset_witness :
  Forall (λ op, registers_nothing op = true) three_moves ∧
  ∃ bot r bot',
    apply_ops three_moves plain_bot = Some bot ∧
    reset 12 13 Returns Returns bot = Some (r, bot') ∧
    currentState bot' = "idle" ∧
    r = if decide (currentState bot = "idle") then NotAllowed "idle" "idle"
        else Success (currentState bot) "idle" 13.
Proof.
  assert (Forall (λ op, registers_nothing op = true) three_moves) as Hall.
  { unfold three_moves. repeat (apply Forall_cons; split; [reflexivity|]).
    apply Forall_nil_2. }
  split; [done|].
  exact (plain_bot_reset three_moves 12 13 Returns Returns Hall).
Defined.

(** X23 on that bot, whose history has two moves, with the limits 1 and -1. *)
Lemma getFlowHistory_limits_witness :
  let h := flowHistory after_three_moves in
  ((0 < 1)%Z ∧ (-1 < 0)%Z) ∧
  (getFlowHistory (Some 1%Z) after_three_moves = drop (length h - Z.to_nat 1) h ∧
   length (getFlowHistory (Some 1%Z) after_three_moves) = min (Z.to_nat 1) (length h)) ∧
  getFlowHistory (Some (-1)%Z) after_three_moves = drop (Z.to_nat (- -1)) h.
Proof.
  intros h.
  assert (0 < 1)%Z as Hpos by lia.
  assert (-1 < 0)%Z as Hneg by lia.
  split; [done|]. split.
  - exact (proj1 (getFlowHistory_limits after_three_moves 1%Z) Hpos).
  - exact (proj1 (proj2 (proj2 (getFlowHistory_limits after_three_moves (-1)%Z))) Hneg).
Defined.

(** X24 on that bot. *)
Lemma message_counts_agree_witness :
  apply_ops three_moves (new_PorteroBot (mkConfig None None None []))
    = Some after_three_moves ∧
  Forall (λ e, userId e.2 = e.1 ∧ messageCount e.2 = length (messages e.2))
         (conversations after_three_moves) ∧
  NoDup (JSMap.keys (conversations after_three_moves)) ∧
  totalMessages (getStatistics after_three_moves)
    = sum_list (length ∘ messages ∘ snd <$> conversations after_three_moves) ∧
  activeConversations (getStatistics after_three_moves)
    = length (conversations after_three_moves).
Proof.
  split; [vm_compute; reflexivity|].
  exact (message_counts_agree (mkConfig None None None []) three_moves after_three_moves
           three_moves_go_through).
Defined.

(** X25: a second message of the same user on that bot. *)
Lemma addMessage_appends_witness :
  let bot' := default after_three_moves
                (snd <$> addMessage "ana" "bot" "buenas" () 12 13 14 "session_2"
                           after_three_moves) in
  addMessage "ana" "bot" "buenas" () 12 13 14 "session_2" after_three_moves
    = Some (1%Z, bot') ∧
  ∃ conv,
    getConversation "ana" bot' = Some conv ∧
    messages conv
      = default [] (messages <$> getConversation "ana" after_three_moves)
          ++ [mkChatMessage "bot" "buenas" 14 ()] ∧
    (0 ≤ 1)%Z ∧
    messages conv !! Z.to_nat 1 = Some (mkChatMessage "bot" "buenas" 14 ()) ∧
    lastMessageTime conv = 13 ∧
    ∀ other, other ≠ "ana" →
      getConversation other bot' = getConversation other after_three_moves.
Proof.
  intros bot'.
  assert (addMessage "ana" "bot" "buenas" () 12 13 14 "session_2" after_three_moves
          = Some (1%Z, bot')) as Ha by (vm_compute; reflexivity).
  split; [done|].
  exact (addMessage_appends "ana" "bot" "buenas" () 12 13 14 "session_2"
           after_three_moves 1%Z bot' Ha).
Defined.

(** X26 on that bot. *)
Lemma clearConversation_forgets_witness :
  let r := clearConversation "ana" after_three_moves in
  apply_ops three_moves (new_PorteroBot (mkConfig None None None []))
    = Some after_three_moves ∧
  (r.1 = true ↔ is_Some (getConversation "ana" after_three_moves)) ∧
  getConversation "ana" r.2 = None ∧
  (∀ other, other ≠ "ana" →
     getConversation other r.2 = getConversation other after_three_moves) ∧
  clearConversation "ana" r.2 = (false, r.2).
Proof.
  intros r. split; [vm_compute; reflexivity|].
  exact (clearConversation_forgets (mkConfig None None None []) three_moves
           after_three_moves "ana" three_moves_go_through).
Defined.

End PorteroProps.
